(** * The npmx connector: operations queue, execution engine and auth gate

    A shallow embedding of
    - [shared/test-utils/mock-connector-state.ts] (the shared state manager:
      operations store and execution engine),
    - the connector CLI's [npm-client.ts] (the command executor) and
    - the connector CLI's [server.ts] (the HTTP surface and its auth gate),
    together with the properties the specification states about them.

    JavaScript objects that are shared by reference (the operations held in
    [state.operations] and again in the [approved] and [sorted] arrays of
    [executeOperations]) are modelled by their position in the store: a
    reference is an index into [operations], a field assignment is an update
    of the store at that index. *)

From Stdlib Require Import ZArith Ascii String.
From stdpp Require Import base option list gmap strings pretty relations.

Open Scope Z_scope.
Open Scope stdpp_scope.

(** ** JavaScript values and string helpers

    A [string] holds the UTF-8 encoding of the JavaScript string. The
    functions below that compare, search, cut or join work on its bytes.
    For well-formed text that is what the JavaScript does on code units: no
    encoding of a code point starts or ends inside the encoding of another,
    and every pattern and separator the program uses is ASCII. *)

Module Js.

(** Truthiness of an optional string: [undefined], [null] and the empty
    string are falsy. *)
Definition truthy (s : option string) : bool :=
  match s with
  | Some "" => false
  | Some _ => true
  | None => false
  end.

(** [s.startsWith(p)] *)
Fixpoint startsWith (p s : string) : bool :=
  match p, s with
  | "", _ => true
  | String a p', String b s' => if decide (a = b) then startsWith p' s' else false
  | String _ _, "" => false
  end.

Fixpoint drop (n : nat) (s : string) : string :=
  match n, s with
  | O, _ => s
  | S n', String _ s' => drop n' s'
  | S _, "" => ""
  end.

(** [s.replace(pat, rep)] for a string pattern: the first occurrence of
    [pat], scanning from the left, is replaced; without an occurrence the
    string is returned as it is. *)
Fixpoint replace (pat rep s : string) : string :=
  if startsWith pat s then rep +:+ drop (String.length pat) s
  else match s with
       | "" => ""
       | String c s' => String c (replace pat rep s')
       end.

(** The code points [trim] removes, each by its UTF-8 encoding:
    ECMAScript's WhiteSpace (TAB, VT, FF, the space separators of Unicode
    and U+FEFF) and LineTerminator (LF, CR, U+2028, U+2029). *)
Definition encoded (bytes : list nat) : list ascii := ascii_of_nat <$> bytes.

Definition white_space : list (list ascii) :=
  encoded <$>
  [ [9]; [10]; [11]; [12]; [13]; [32];
    [194; 160];
    [225; 154; 128];
    [226; 128; 128]; [226; 128; 129]; [226; 128; 130]; [226; 128; 131];
    [226; 128; 132]; [226; 128; 133]; [226; 128; 134]; [226; 128; 135];
    [226; 128; 136]; [226; 128; 137]; [226; 128; 138];
    [226; 128; 168]; [226; 128; 169];
    [226; 128; 175];
    [226; 129; 159];
    [227; 128; 128];
    [239; 187; 191] ]%nat.

(** What follows [p] in [s], when [s] starts with [p]. *)
Fixpoint strip_prefix (p s : list ascii) : option (list ascii) :=
  match p, s with
  | [], _ => Some s
  | a :: p', b :: s' => if decide (a = b) then strip_prefix p' s' else None
  | _ :: _, [] => None
  end.

(** What follows the element of [ws] that [s] starts with, if any. *)
Fixpoint strip_one (ws : list (list ascii)) (s : list ascii) : option (list ascii) :=
  match ws with
  | [] => None
  | w :: ws' =>
      match strip_prefix w s with
      | Some r => Some r
      | None => strip_one ws' s
      end
  end.

(** [s] without the elements of [ws] it starts with; every removal takes
    a byte at least, so as many rounds as [s] has bytes are enough. *)
Fixpoint strip_all (fuel : nat) (ws : list (list ascii)) (s : list ascii) : list ascii :=
  match fuel with
  | O => s
  | S fuel' =>
      match strip_one ws s with
      | Some r => strip_all fuel' ws r
      | None => s
      end
  end.

Definition trimStart (s : string) : string :=
  let l := list_ascii_of_string s in
  string_of_list_ascii (strip_all (length l) white_space l).

Definition trimEnd (s : string) : string :=
  let l := rev (list_ascii_of_string s) in
  string_of_list_ascii (rev (strip_all (length l) (@rev ascii <$> white_space) l)).

(** [s.trim()] *)
Definition trim (s : string) : string := trimEnd (trimStart s).

(** [parts.join(sep)] *)
Fixpoint join (sep : string) (parts : list string) : string :=
  match parts with
  | [] => ""
  | [p] => p
  | p :: rest => p +:+ sep +:+ join sep rest
  end.

(** [s.split(c)] for a one-character separator. *)
Fixpoint split_go (c : ascii) (cur : string) (s : string) : list string :=
  match s with
  | "" => [String.rev cur]
  | String a s' =>
      if decide (a = c) then String.rev cur :: split_go c "" s'
      else split_go c (String a cur) s'
  end.
Definition split (c : ascii) (s : string) : list string := split_go c "" s.

(** *** Objects used as maps

    The registry data of the mock ([orgs], [users], [teamMembers],
    [packages], [userPackages]) are objects made by [{}] literals. A [gmap]
    holds the properties such an object owns; a property it does not own
    is looked up in [Object.prototype], whose members have these names. *)
Definition prototype_names : list string :=
  ["__proto__"; "constructor"; "hasOwnProperty"; "isPrototypeOf";
   "propertyIsEnumerable"; "toLocaleString"; "toString"; "valueOf";
   "__defineGetter__"; "__defineSetter__"; "__lookupGetter__"; "__lookupSetter__"].

(** [o[k]]: a property of [o], a member of [Object.prototype], or
    [undefined]. *)
Inductive Property (V : Type) :=
  | Own (v : V)
  | Inherited
  | Undefined.
Arguments Own {V} v.
Arguments Inherited {V}.
Arguments Undefined {V}.


Definition property {V} (o : gmap string V) (k : string) : Property V :=
  match o !! k with
  | Some v => Own v
  | None => if bool_decide (k ∈ prototype_names) then Inherited else Undefined
  end.

End Js.

(** ** Data model ([cli/src/types.ts]) *)

Inductive OperationStatus :=
  | pending | approved | running | completed | failed | cancelled.

Global Instance OperationStatus_eq_dec : EqDecision OperationStatus.
Proof. solve_decision. Defined.

(** What the [exitCode] of a result holds at run time. The interfaces
    declare a number; [execNpm] stores the [code] of a rejection of
    [child_process.exec] as it is, which is the exit code of the child when
    it ran, and the name of the error (['ENOENT'], ['E2BIG'],
    ['ERR_CHILD_PROCESS_STDIO_MAXBUFFER']) when it could not be spawned or
    was cut off. *)
Inductive ExitCode :=
  | Exit (n : Z)
  | ErrorName (name : string).

Global Instance ExitCode_eq_dec : EqDecision ExitCode.
Proof. solve_decision. Defined.

(** [{stdout, stderr, exitCode, requiresOtp?, authFailure?}] *)
Record OperationResult := mkResult {
  stdout : string;
  stderr : string;
  exitCode : ExitCode;
  requiresOtp : option bool;
  authFailure : option bool;
}.

Global Instance OperationResult_eq_dec : EqDecision OperationResult.
Proof. solve_decision. Defined.

(** The operation type is kept as the string the caller sent: the handlers
    cast the request body without validating it, and both switch statements
    have a fall-through for names they do not know. *)
Record PendingOperation := mkOp {
  id : string;
  type : string;
  params : gmap string string;
  description : string;
  command : string;
  status : OperationStatus;
  createdAt : Z;
  dependsOn : option string;
  result : option OperationResult;
}.

Global Instance PendingOperation_eq_dec : EqDecision PendingOperation.
Proof. solve_decision. Defined.

Definition with_status (s : OperationStatus) (op : PendingOperation) : PendingOperation :=
  mkOp (id op) (type op) (params op) (description op) (command op) s
       (createdAt op) (dependsOn op) (result op).

Definition with_result (r : option OperationResult) (op : PendingOperation) : PendingOperation :=
  mkOp (id op) (type op) (params op) (description op) (command op) (status op)
       (createdAt op) (dependsOn op) r.

(** [arr.find(pred)] and [arr.findIndex(pred)] *)
Definition find {A} (p : A → bool) (l : list A) : option A := List.find p l.

Fixpoint findIndex {A} (p : A → bool) (l : list A) : option nat :=
  match l with
  | [] => None
  | x :: l' => if p x then Some O else S <$> findIndex p l'
  end.

(** ** Dependency sort

    [sortByDependencies] only reads [id] and [dependsOn] of the elements of
    its argument, so it is written once over any representation [A] of an
    operation: the operation record itself, or a reference into the store. *)

Section SortByDependencies.
Context {A : Type}.
Variable op_id : A → string.
Variable op_dependsOn : A → option string.

(** [operations.find(d => d.id === op.dependsOn)], guarded by
    [if (op.dependsOn)]. *)
Definition dependency (operations : list A) (op : A) : option A :=
  if Js.truthy (op_dependsOn op)
  then find (λ d, bool_decide (Some (op_id d) = op_dependsOn op)) operations
  else None.

(** The closure [visit], with the captured [visited] set and [result]
    array passed explicitly. [fuel] bounds the depth of the recursion;
    [None] means the bound was hit. *)
Fixpoint visit (fuel : nat) (operations : list A) (op : A)
    (st : gset string * list A) : option (gset string * list A) :=
  match fuel with
  | O => None
  | S fuel' =>
      let '(visited, result) := st in
      if decide (op_id op ∈ visited) then Some st
      else
        let visited := {[op_id op]} ∪ visited in
        st' ← match dependency operations op with
              | Some dep => visit fuel' operations dep (visited, result)
              | None => Some (visited, result)
              end;
        Some (st'.1, st'.2 ++ [op])
  end.

(** [for (const op of operations) visit(op)] *)
Fixpoint visit_all (fuel : nat) (operations todo : list A)
    (st : gset string * list A) : option (gset string * list A) :=
  match todo with
  | [] => Some st
  | op :: todo' => st' ← visit fuel operations op st; visit_all fuel operations todo' st'
  end.

Definition sortByDependencies_fuel (fuel : nat) (operations : list A) : option (list A) :=
  snd <$> visit_all fuel operations operations (∅, []).

(** One more call than there are operations is always enough
    (see [visit_all_total]). *)
Definition sortByDependencies (operations : list A) : list A :=
  default [] (sortByDependencies_fuel (S (length operations)) operations).

End SortByDependencies.

(** ** The shared state manager ([mock-connector-state.ts]) *)

Module Mock.

Record MockConnectorConfig := mkConfig {
  token : string;
  npmUser : string;
  avatar : option string;
  port : option Z;
}.

Record MockOrgData := mkOrg {
  users : gmap string string;
  teams : list string;
  teamMembers : gmap string (list string);
}.

Record MockPackageData := mkPackage {
  collaborators : gmap string string;
}.

Record MockConnectorStateData := mkState {
  config : MockConnectorConfig;
  connected : bool;
  connectedAt : option Z;
  orgs : gmap string MockOrgData;
  packages : gmap string MockPackageData;
  userPackages : gmap string string;
  userOrgs : list string;
  operations : list PendingOperation;
  operationIdCounter : nat;
}.

Definition set_connection (c : bool) (t : option Z) (st : MockConnectorStateData) :=
  mkState (config st) c t (orgs st) (packages st) (userPackages st) (userOrgs st)
          (operations st) (operationIdCounter st).

Definition set_orgs (o : gmap string MockOrgData) (st : MockConnectorStateData) :=
  mkState (config st) (connected st) (connectedAt st) o (packages st) (userPackages st)
          (userOrgs st) (operations st) (operationIdCounter st).

Definition set_packages (p : gmap string MockPackageData) (st : MockConnectorStateData) :=
  mkState (config st) (connected st) (connectedAt st) (orgs st) p (userPackages st)
          (userOrgs st) (operations st) (operationIdCounter st).

Definition set_userPackages (p : gmap string string) (st : MockConnectorStateData) :=
  mkState (config st) (connected st) (connectedAt st) (orgs st) (packages st) p
          (userOrgs st) (operations st) (operationIdCounter st).

Definition set_operations (ops : list PendingOperation) (st : MockConnectorStateData) :=
  mkState (config st) (connected st) (connectedAt st) (orgs st) (packages st)
          (userPackages st) (userOrgs st) ops (operationIdCounter st).

Definition set_counter (n : nat) (st : MockConnectorStateData) :=
  mkState (config st) (connected st) (connectedAt st) (orgs st) (packages st)
          (userPackages st) (userOrgs st) (operations st) n.

(** [createMockConnectorState]: the defaults [port: 31415, avatar: null]
    are overridden by what the caller's config carries. *)
Definition createMockConnectorState (cfg : MockConnectorConfig) : MockConnectorStateData :=
  mkState (mkConfig (token cfg) (npmUser cfg) (avatar cfg) (Some (default 31415 (port cfg))))
          false None ∅ ∅ ∅ [] [] 0.

(** *** Connection *)

Definition connect (now : Z) (tok : string) (st : MockConnectorStateData)
    : bool * MockConnectorStateData :=
  if decide (tok ≠ token (config st)) then (false, st)
  else (true, set_connection true (Some now) st).

Definition disconnect (st : MockConnectorStateData) : MockConnectorStateData :=
  set_operations [] (set_connection false None st).

Definition isConnected (st : MockConnectorStateData) : bool := connected st.

(** *** Operations queue *)

Record NewOperationInput := mkInput {
  in_type : string;
  in_params : gmap string string;
  in_description : string;
  in_command : string;
  in_dependsOn : option string;
}.

Definition addOperation (now : Z) (operation : NewOperationInput)
    (st : MockConnectorStateData) : PendingOperation * MockConnectorStateData :=
  let counter := S (operationIdCounter st) in
  let newOp := mkOp ("op-" +:+ pretty counter) (in_type operation) (in_params operation)
                    (in_description operation) (in_command operation) pending now
                    (in_dependsOn operation) None in
  (newOp, set_operations (operations st ++ [newOp]) (set_counter counter st)).

Fixpoint addOperations (now : Z) (inputs : list NewOperationInput)
    (st : MockConnectorStateData) : list PendingOperation * MockConnectorStateData :=
  match inputs with
  | [] => ([], st)
  | i :: rest =>
      let '(op, st1) := addOperation now i st in
      let '(ops, st2) := addOperations now rest st1 in
      (op :: ops, st2)
  end.

Definition has_id (i : string) (op : PendingOperation) : bool := bool_decide (id op = i).

Definition getOperation (i : string) (st : MockConnectorStateData) : option PendingOperation :=
  find (has_id i) (operations st).

Definition removeOperation (i : string) (st : MockConnectorStateData)
    : bool * MockConnectorStateData :=
  match findIndex (has_id i) (operations st) with
  | None => (false, st)
  | Some index =>
      match operations st !! index with
      | Some op =>
          if decide (status op = running) then (false, st)
          else (true, set_operations (delete index (operations st)) st)
      | None => (true, set_operations (delete index (operations st)) st)
      end
  end.

Definition clearOperations (st : MockConnectorStateData) : nat * MockConnectorStateData :=
  let removable := filter (λ op, status op ≠ running) (operations st) in
  (length removable, set_operations (filter (λ op, status op = running) (operations st)) st).

(** [approveOperation]: the operation found by id is updated in place. *)
Definition approveOperation (i : string) (st : MockConnectorStateData)
    : option PendingOperation * MockConnectorStateData :=
  match findIndex (has_id i) (operations st) with
  | None => (None, st)
  | Some index =>
      match operations st !! index with
      | None => (None, st)
      | Some op =>
          if decide (status op ≠ pending) then (None, st)
          else let op' := with_status approved op in
               (Some op', set_operations (<[index := op']> (operations st)) st)
      end
  end.

(** [approveAll]: one pass over the store, counting what it approves. *)
Fixpoint approveAll_loop (ops : list PendingOperation) (count : nat)
    : nat * list PendingOperation :=
  match ops with
  | [] => (count, [])
  | op :: rest =>
      if decide (status op = pending)
      then let '(c, rest') := approveAll_loop rest (S count) in
           (c, with_status approved op :: rest')
      else let '(c, rest') := approveAll_loop rest count in
           (c, op :: rest')
  end.

Definition approveAll (st : MockConnectorStateData) : nat * MockConnectorStateData :=
  let '(count, ops) := approveAll_loop (operations st) 0 in
  (count, set_operations ops st).

Definition retryOperation (i : string) (st : MockConnectorStateData)
    : option PendingOperation * MockConnectorStateData :=
  match findIndex (has_id i) (operations st) with
  | None => (None, st)
  | Some index =>
      match operations st !! index with
      | None => (None, st)
      | Some op =>
          if decide (status op ≠ failed) then (None, st)
          else let op' := with_result None (with_status approved op) in
               (Some op', set_operations (<[index := op']> (operations st)) st)
      end
  end.

(** *** Effects of a successful operation on the mirrored registry data

    The registry objects are modelled by the properties they own (see
    [Js.property]), and [applyOperationEffect] is the effect on those: it
    is what the JavaScript does whenever the user, team and package names
    an operation carries are not names of members of [Object.prototype]
    ([EffectSpec.plain]) and the registry objects have [Object.prototype]
    for prototype. For a name of a member the JavaScript differs: where it
    reads the key it finds the inherited member, which is no registry data,
    and raises a [TypeError]; where it assigns to [__proto__] nothing is
    stored, or the prototype is replaced. The arrays and objects of the
    registry data are values here, as if none were held at two places;
    that is the case for data the effects themselves build. Every
    statement below that needs an effect to be the one modelled here says
    so, by [EffectSpec.plain] and [MockSpec.plainly_reachable]. *)

Definition normalizeOrg (org : string) : string :=
  if Js.startsWith "@" org then org else "@" +:+ org.

Definition emptyOrg : MockOrgData := mkOrg ∅ [] ∅.

Definition set_users (u : gmap string string) (o : MockOrgData) : MockOrgData :=
  mkOrg u (teams o) (teamMembers o).

(** [includes] on an array of strings *)
Definition includes (x : string) (l : list string) : bool := bool_decide (x ∈ l).

(** [const [scope, team] = scopeTeam.split(':')] *)
Definition scope_and_team (scopeTeam : string) : option string * option string :=
  let parts := Js.split ":" scopeTeam in (parts !! 0%nat, parts !! 1%nat).

Definition applyOperationEffect (op : PendingOperation) (st : MockConnectorStateData)
    : MockConnectorStateData :=
  let p := params op in
  let t := type op in
  if decide (t = "org:add-user") then
    let role := default "developer" (p !! "role") in
    match p !! "org", p !! "user" with
    | Some org, Some user =>
        if Js.truthy (Some org) && Js.truthy (Some user) then
          let n := normalizeOrg org in
          let o := default emptyOrg (orgs st !! n) in
          set_orgs (<[n := set_users (<[user := role]> (users o)) o]> (orgs st)) st
        else st
    | _, _ => st
    end
  else if decide (t = "org:rm-user") then
    match p !! "org", p !! "user" with
    | Some org, Some user =>
        if Js.truthy (Some org) && Js.truthy (Some user) then
          let n := normalizeOrg org in
          match orgs st !! n with
          | Some o => set_orgs (<[n := set_users (delete user (users o)) o]> (orgs st)) st
          | None => st
          end
        else st
    | _, _ => st
    end
  else if decide (t = "org:set-role") then
    match p !! "org", p !! "user", p !! "role" with
    | Some org, Some user, Some role =>
        if Js.truthy (Some org) && Js.truthy (Some user) && Js.truthy (Some role) then
          let n := normalizeOrg org in
          match orgs st !! n with
          | Some o => set_orgs (<[n := set_users (<[user := role]> (users o)) o]> (orgs st)) st
          | None => st
          end
        else st
    | _, _, _ => st
    end
  else if decide (t = "team:create") then
    match p !! "org", p !! "team" with
    | Some org, Some team =>
        if Js.truthy (Some org) && Js.truthy (Some team) then
          let n := normalizeOrg org in
          let o := default emptyOrg (orgs st !! n) in
          let ts := if includes team (teams o) then teams o else teams o ++ [team] in
          set_orgs (<[n := mkOrg (users o) ts (<[team := []]> (teamMembers o))]> (orgs st)) st
        else st
    | _, _ => st
    end
  else if decide (t = "team:destroy") then
    match p !! "org", p !! "team" with
    | Some org, Some team =>
        if Js.truthy (Some org) && Js.truthy (Some team) then
          let n := normalizeOrg org in
          match orgs st !! n with
          | Some o =>
              set_orgs (<[n := mkOrg (users o) (filter (λ x, x ≠ team) (teams o))
                                     (delete team (teamMembers o))]> (orgs st)) st
          | None => st
          end
        else st
    | _, _ => st
    end
  else if decide (t = "team:add-user") then
    match p !! "scopeTeam", p !! "user" with
    | Some scopeTeam, Some user =>
        if Js.truthy (Some scopeTeam) && Js.truthy (Some user) then
          match scope_and_team scopeTeam with
          | (Some scope, Some team) =>
              if Js.truthy (Some scope) && Js.truthy (Some team) then
                let n := normalizeOrg scope in
                match orgs st !! n with
                | Some o =>
                    let members := default [] (teamMembers o !! team) in
                    let members := if includes user members then members
                                   else members ++ [user] in
                    set_orgs (<[n := mkOrg (users o) (teams o)
                                           (<[team := members]> (teamMembers o))]> (orgs st)) st
                | None => st
                end
              else st
          | _ => st
          end
        else st
    | _, _ => st
    end
  else if decide (t = "team:rm-user") then
    match p !! "scopeTeam", p !! "user" with
    | Some scopeTeam, Some user =>
        if Js.truthy (Some scopeTeam) && Js.truthy (Some user) then
          match scope_and_team scopeTeam with
          | (Some scope, Some team) =>
              if Js.truthy (Some scope) && Js.truthy (Some team) then
                let n := normalizeOrg scope in
                match orgs st !! n with
                | Some o =>
                    match teamMembers o !! team with
                    | Some members =>
                        set_orgs (<[n := mkOrg (users o) (teams o)
                                    (<[team := filter (λ u, u ≠ user) members]> (teamMembers o))]>
                                    (orgs st)) st
                    | None => st
                    end
                | None => st
                end
              else st
          | _ => st
          end
        else st
    | _, _ => st
    end
  else if decide (t = "access:grant") then
    let level := default "read-write" (p !! "level") in
    match p !! "package", p !! "user" with
    | Some pkg, Some user =>
        if Js.truthy (Some pkg) && Js.truthy (Some user) then
          let d := default (mkPackage ∅) (packages st !! pkg) in
          set_packages (<[pkg := mkPackage (<[user := level]> (collaborators d))]> (packages st)) st
        else st
    | _, _ => st
    end
  else if decide (t = "access:revoke" ∨ t = "owner:rm") then
    match p !! "package", p !! "user" with
    | Some pkg, Some user =>
        if Js.truthy (Some pkg) && Js.truthy (Some user) then
          match packages st !! pkg with
          | Some d =>
              set_packages (<[pkg := mkPackage (delete user (collaborators d))]> (packages st)) st
          | None => st
          end
        else st
    | _, _ => st
    end
  else if decide (t = "owner:add") then
    match p !! "package", p !! "user" with
    | Some pkg, Some user =>
        if Js.truthy (Some pkg) && Js.truthy (Some user) then
          let d := default (mkPackage ∅) (packages st !! pkg) in
          set_packages (<[pkg := mkPackage (<[user := "read-write"]> (collaborators d))]>
                          (packages st)) st
        else st
    | _, _ => st
    end
  else if decide (t = "package:init") then
    match p !! "package" with
    | Some pkg =>
        if Js.truthy (Some pkg) then
          set_userPackages (<[pkg := "read-write"]> (userPackages st))
            (set_packages (<[pkg := mkPackage {[npmUser (config st) := "read-write"]}]>
                             (packages st)) st)
        else st
    | None => st
    end
  else st.

(** *** Execution engine *)

(** [Partial<OperationResult>] *)
Record PartialResult := mkPartial {
  p_stdout : option string;
  p_stderr : option string;
  p_exitCode : option Z;
  p_requiresOtp : option bool;
  p_authFailure : option bool;
}.

Record ExecuteOptions := mkOptions {
  opt_otp : option string;
  opt_results : option (gmap string PartialResult);
}.

Record ExecuteResult := mkExecuteResult {
  results : list OperationResult;
  otpRequired : option bool;
}.

(** What a call of [executeOperations] leaves behind: the state of the
    manager, the value it returns, and [journal], the state as it stood
    right after each assignment to the [status] of an operation, in the
    order of the assignments. *)
Record ExecRun := mkRun {
  final : MockConnectorStateData;
  output : ExecuteResult;
  journal : list MockConnectorStateData;
}.

(** [options?.results?.[op.id]] *)
Definition configuredResult (options : option ExecuteOptions) (i : string)
    : option PartialResult :=
  match options with
  | Some o => match opt_results o with
              | Some m => m !! i
              | None => None
              end
  | None => None
  end.

(** [options?.otp], as a condition *)
Definition otpSupplied (options : option ExecuteOptions) : bool :=
  Js.truthy (match options with Some o => opt_otp o | None => None end).

(** Lines 232-238: the dependency check made when the loop reaches [op]. *)
Definition dependencyMet (st : MockConnectorStateData) (op : PendingOperation) : bool :=
  if Js.truthy (dependsOn op) then
    match dependency id dependsOn (operations st) op with
    | Some dep => bool_decide (status dep = completed)
    | None => false
    end
  else true.

(** A field assignment on the operation that reference [i] points to. *)
Definition assign (f : PendingOperation → PendingOperation) (i : nat)
    (st : MockConnectorStateData) : MockConnectorStateData :=
  set_operations (alter f i (operations st)) st.

Definition outcome_status (r : OperationResult) : OperationStatus :=
  if decide (exitCode r = Exit 0) then completed else failed.

Definition fromConfigured (c : PartialResult) : OperationResult :=
  mkResult (default "" (p_stdout c)) (default "" (p_stderr c))
           (Exit (default 1 (p_exitCode c)))
           (p_requiresOtp c) (p_authFailure c).

Definition defaultSuccess (op : PendingOperation) : OperationResult :=
  mkResult ("Mock: " +:+ command op) "" (Exit 0) None None.

(** The loop [for (const op of sorted)] of [executeOperations]; [sorted]
    holds references into the store. The loop is modelled with every
    effect running to its end. A [TypeError] raised by an effect (see
    above) is caught by nothing and ends [executeOperations] there: the
    assignments the JavaScript makes are then the first of those made
    here, in the same order. *)
Fixpoint executeLoop (options : option ExecuteOptions) (sorted : list nat)
    (st : MockConnectorStateData) (acc : list OperationResult)
    (jrn : list MockConnectorStateData) : ExecRun :=
  match sorted with
  | [] => mkRun st (mkExecuteResult acc None) jrn
  | i :: rest =>
      match operations st !! i with
      | None => executeLoop options rest st acc jrn
      | Some op =>
          if dependencyMet st op then
            let st1 := assign (with_status running) i st in
            match configuredResult options (id op) with
            | Some c =>
                let r := fromConfigured c in
                let st2 := assign (λ o, with_status (outcome_status r) (with_result (Some r) o))
                                  i st1 in
                if bool_decide (requiresOtp r = Some true) && negb (otpSupplied options)
                then mkRun st2 (mkExecuteResult (acc ++ [r]) (Some true)) (jrn ++ [st1; st2])
                else executeLoop options rest st2 (acc ++ [r]) (jrn ++ [st1; st2])
            | None =>
                let r := defaultSuccess op in
                let st2 := assign (λ o, with_status completed (with_result (Some r) o)) i st1 in
                let st3 := match operations st2 !! i with
                           | Some op' => applyOperationEffect op' st2
                           | None => st2
                           end in
                executeLoop options rest st3 (acc ++ [r]) (jrn ++ [st1; st2])
            end
          else executeLoop options rest st acc jrn
      end
  end.

(** What a reference into the store reads as [op.id] and [op.dependsOn]. *)
Definition ref_id (st : MockConnectorStateData) (i : nat) : string :=
  default "" (id <$> operations st !! i).
Definition ref_dependsOn (st : MockConnectorStateData) (i : nat) : option string :=
  match operations st !! i with Some op => dependsOn op | None => None end.
Definition ref_status (st : MockConnectorStateData) (i : nat) : option OperationStatus :=
  status <$> operations st !! i.

(** [this.state.operations.filter(op => op.status === 'approved')], as
    references. *)
Definition approvedRefs (st : MockConnectorStateData) : list nat :=
  filter (λ i, ref_status st i = Some approved) (seq 0 (length (operations st))).

Definition executeOperations (options : option ExecuteOptions)
    (st : MockConnectorStateData) : ExecRun :=
  let approved := approvedRefs st in
  let sorted := sortByDependencies (ref_id st) (ref_dependsOn st) approved in
  executeLoop options sorted st [] [].

(** [reset] *)
Definition reset (st : MockConnectorStateData) : MockConnectorStateData :=
  mkState (config st) false None ∅ ∅ ∅ [] [] 0.

End Mock.

(** ** Computations that may throw *)

(** The outcome of evaluating a JavaScript expression or awaiting a promise:
    a value, or an exception (a rejection) carrying [E]. *)
Inductive Completion (E A : Type) :=
  | Normal (a : A)
  | Throw (e : E).
Arguments Normal {E A} a.
Arguments Throw {E A} e.

Definition bind {E A B} (c : Completion E A) (k : A → Completion E B) : Completion E B :=
  match c with
  | Normal a => k a
  | Throw e => Throw e
  end.

(** [try { body } catch (e) { handler(e) }] *)
Definition try_catch {E A} (body : Completion E A) (handler : E → Completion E A)
    : Completion E A :=
  match body with
  | Normal a => Normal a
  | Throw e => handler e
  end.

Notation "x ←! c ; k" := (bind c (λ x, k))
  (at level 20, c at level 100, k at level 200, only parsing).

(** ** The command executor ([npm-client.ts]) *)

Module NpmClient.

(** What [execAsync] rejects with, as far as [execNpm] reads it:
    [stdout], [stderr] and [code], each of which may be missing, and the
    text [String(error)]. The cast in the [catch] clause declares [code] a
    number; at run time it is the exit code of the child, the name of the
    error when the child could not be spawned or overran the buffer, and
    missing ([null]) when the child was killed at the timeout. *)
Record ExecError := mkExecError {
  err_stdout : option string;
  err_stderr : option string;
  err_code : option ExitCode;
  err_text : string;
}.

(** [promisify(exec)] applied to a command line. The child process is
    outside the program: its behaviour is a parameter. The options of the
    call ([timeout: 60000], the environment with [FORCE_COLOR] set to 0)
    are the same at every call and are part of that parameter. *)
Definition ExecAsync := string → Completion ExecError (string * string).

Section WithProcess.
Variable execAsync : ExecAsync.

(** [cmd.join(' ')], with [--otp] pushed when an OTP is given. *)
Definition commandLine (args : list string) (otp : option string) : string :=
  let cmd := "npm" :: args in
  let cmd := if Js.truthy otp then cmd ++ ["--otp"; default "" otp] else cmd in
  Js.join " " cmd.

Definition execNpm (args : list string) (otp : option string)
    : Completion ExecError OperationResult :=
  try_catch
    (out ←! execAsync (commandLine args otp);
     Normal (mkResult (Js.trim out.1) (Js.trim out.2) (Exit 0) None None))
    (λ err,
       Normal (mkResult (default "" (Js.trim <$> err_stdout err))
                        (default (err_text err) (Js.trim <$> err_stderr err))
                        (default (Exit 1) (err_code err)) None None)).

Definition getNpmUser : Completion ExecError (option string) :=
  r ←! execNpm ["whoami"] None;
  Normal (if bool_decide (exitCode r = Exit 0) && Js.truthy (Some (stdout r))
          then Some (stdout r) else None).

Definition orgAddUser (org user role : string) (otp : option string) :=
  execNpm ["org"; "set"; org; user; role] otp.
Definition orgRemoveUser (org user : string) (otp : option string) :=
  execNpm ["org"; "rm"; org; user] otp.
Definition teamCreate (scopeTeam : string) (otp : option string) :=
  execNpm ["team"; "create"; scopeTeam] otp.
Definition teamDestroy (scopeTeam : string) (otp : option string) :=
  execNpm ["team"; "destroy"; scopeTeam] otp.
Definition teamAddUser (scopeTeam user : string) (otp : option string) :=
  execNpm ["team"; "add"; scopeTeam; user] otp.
Definition teamRemoveUser (scopeTeam user : string) (otp : option string) :=
  execNpm ["team"; "rm"; scopeTeam; user] otp.
Definition accessGrant (permission scopeTeam pkg : string) (otp : option string) :=
  execNpm ["access"; "grant"; permission; scopeTeam; pkg] otp.
Definition accessRevoke (scopeTeam pkg : string) (otp : option string) :=
  execNpm ["access"; "revoke"; scopeTeam; pkg] otp.
Definition ownerAdd (user pkg : string) (otp : option string) :=
  execNpm ["owner"; "add"; user; pkg] otp.
Definition ownerRemove (user pkg : string) (otp : option string) :=
  execNpm ["owner"; "rm"; user; pkg] otp.

End WithProcess.

End NpmClient.

(** ** The connector service ([server.ts]) *)

Module Server.

Record ConnectorSession := mkSession {
  token : string;
  connectedAt : Z;
  npmUser : option string;
}.

Record ConnectorState := mkState {
  session : ConnectorSession;
  operations : list PendingOperation;
  otp : option string;
}.

Definition set_operations (ops : list PendingOperation) (st : ConnectorState) :=
  mkState (session st) ops (otp st).

(** What a handler answers: the payload of [{ success: true, data }], or
    the error raised with [createError]. *)
Inductive Payload :=
  | ConnectData (user : option string) (at_ : Z)
  | StateData (user : option string) (ops : list PendingOperation) (hasOtp : bool)
  | OperationData (op : PendingOperation)
  | OperationsData (ops : list PendingOperation)
  | ApprovedData (n : nat)
  | ExecuteData (rs : list (string * OperationResult))
  | RemovedData (n : nat)
  | NoData.

Inductive Response :=
  | Success (data : Payload)
  | Failure (statusCode : Z) (message : string).

(** The body of [POST /operations] and of the elements of
    [POST /operations/batch]. *)
Record OperationBody := mkBody {
  b_type : string;
  b_params : gmap string string;
  b_description : string;
  b_command : string;
}.

(** The bodies of [POST /connect] and [POST /otp]; the handlers read them
    as [body?.token] and [body?.otp], so the body and the field may each
    be missing. *)
Record ConnectBody := mkConnectBody { b_token : option string }.
Record OtpBody := mkOtpBody { b_otp : option string }.

Inductive Request :=
  | PostConnect (body : option ConnectBody)
  | GetState (auth : option string)
  | PostOperations (auth : option string) (body : OperationBody)
  | PostOperationsBatch (auth : option string) (body : list OperationBody)
  | PostOtp (auth : option string) (body : option OtpBody)
  | PostApprove (auth : option string) (queryId : option string)
  | PostApproveAll (auth : option string)
  | PostExecute (auth : option string)
  | DeleteOperations (auth : option string) (queryId : option string)
  | DeleteOperationsAll (auth : option string).

(** What a handler takes from outside the program while it runs: the
    clock ([Date.now()]), the random operation ids
    ([generateOperationId()]) and the child processes, each numbered by
    the order of the calls within the handler. *)
Record Env := mkEnv {
  now : nat → Z;
  randomId : nat → string;
  execAsync : nat → NpmClient.ExecAsync;
}.

Definition unauthorized : Response := Failure 401 "Unauthorized".

Definition param (k : string) (op : PendingOperation) : string :=
  default "" (params op !! k).

(** [executeOperation]; a parameter the caller did not send is
    [undefined], which [join] renders as the empty string. The operations
    of the model carry a [params] object; the handlers store the body of a
    request as it came, and for an operation stored without [params] the
    first [params.org] raises a [TypeError] before any command is run. *)
Definition executeOperation (exec : NpmClient.ExecAsync) (op : PendingOperation)
    (otp : option string) : Completion NpmClient.ExecError OperationResult :=
  let t := type op in
  if decide (t = "org:add-user") then
    NpmClient.orgAddUser exec (param "org" op) (param "user" op) (param "role" op) otp
  else if decide (t = "org:rm-user") then
    NpmClient.orgRemoveUser exec (param "org" op) (param "user" op) otp
  else if decide (t = "team:create") then
    NpmClient.teamCreate exec (param "scopeTeam" op) otp
  else if decide (t = "team:destroy") then
    NpmClient.teamDestroy exec (param "scopeTeam" op) otp
  else if decide (t = "team:add-user") then
    NpmClient.teamAddUser exec (param "scopeTeam" op) (param "user" op) otp
  else if decide (t = "team:rm-user") then
    NpmClient.teamRemoveUser exec (param "scopeTeam" op) (param "user" op) otp
  else if decide (t = "access:grant") then
    NpmClient.accessGrant exec (param "permission" op) (param "scopeTeam" op)
                          (param "pkg" op) otp
  else if decide (t = "access:revoke") then
    NpmClient.accessRevoke exec (param "scopeTeam" op) (param "pkg" op) otp
  else if decide (t = "owner:add") then
    NpmClient.ownerAdd exec (param "user" op) (param "pkg" op) otp
  else if decide (t = "owner:rm") then
    NpmClient.ownerRemove exec (param "user" op) (param "pkg" op) otp
  else Normal (mkResult "" ("Unknown operation type: " +:+ t) (Exit 1) None None).

Section App.
(** [createConnectorApp(expectedToken)] *)
Variable expectedToken : string.

Definition initialState : ConnectorState :=
  mkState (mkSession expectedToken 0 None) [] None.

Definition validateToken (authHeader : option string) : bool :=
  if negb (Js.truthy authHeader) then false
  else
    let token := Js.replace "Bearer " "" (default "" authHeader) in
    bool_decide (token = expectedToken).

Definition newOperation (env : Env) (k : nat) (b : OperationBody) : PendingOperation :=
  mkOp (randomId env k) (b_type b) (b_params b) (b_description b) (b_command b)
       pending (now env k) None None.

(** The references of the operations with a given status, in store order. *)
Definition refsWithStatus (s : OperationStatus) (ops : list PendingOperation) : list nat :=
  filter (λ i, status <$> ops !! i = Some s) (seq 0 (length ops)).

(** [for (const op of pendingOps) op.status = 'approved'] *)
Definition approveRefs (refs : list nat) (ops : list PendingOperation)
    : list PendingOperation :=
  foldl (λ acc i, alter (with_status approved) i acc) ops refs.

(** The loop of the [/execute] handler over [approvedOps], run as one
    step: no other handler is taken to run while a command is awaited. A
    rejection of [executeOperation] is not caught by the handler and ends
    it. *)
Fixpoint executeRefs (env : Env) (k : nat) (refs : list nat) (st : ConnectorState)
    (acc : list (string * OperationResult)) : Response * ConnectorState :=
  match refs with
  | [] => (Success (ExecuteData acc), st)
  | i :: rest =>
      match operations st !! i with
      | None => executeRefs env k rest st acc
      | Some op =>
          let st1 := set_operations (alter (with_status running) i (operations st)) st in
          match executeOperation (execAsync env k) op (otp st1) with
          | Normal r =>
              let settle o := with_status (if decide (exitCode r = Exit 0) then completed else failed)
                                          (with_result (Some r) o) in
              let st2 := set_operations (alter settle i (operations st1)) st1 in
              executeRefs env (S k) rest st2 (acc ++ [(id op, r)])
          | Throw e => (Failure 500 (NpmClient.err_text e), st1)
          end
      end
  end.

Definition has_query_id (q : option string) (op : PendingOperation) : bool :=
  bool_decide (Some (id op) = q).

(** The handlers, each taken as one step from state to state. The
    [await]s of the source are points at which Node could run another
    handler; the specification (section 5) asks that handlers be serialised,
    and that is what is modelled. *)
Definition handle (env : Env) (req : Request) (st : ConnectorState)
    : Response * ConnectorState :=
  match req with
  | PostConnect body =>
      if decide (body ≫= b_token ≠ Some expectedToken) then (Failure 401 "Invalid token", st)
      else
        match NpmClient.getNpmUser (execAsync env 0) with
        | Normal user =>
            let at_ := now env 0 in
            (Success (ConnectData user at_),
             mkState (mkSession (token (session st)) at_ user) (operations st) (otp st))
        | Throw e => (Failure 500 (NpmClient.err_text e), st)
        end
  | GetState auth =>
      if negb (validateToken auth) then (unauthorized, st)
      else (Success (StateData (npmUser (session st)) (operations st) (Js.truthy (otp st))), st)
  | PostOperations auth body =>
      if negb (validateToken auth) then (unauthorized, st)
      else
        let operation := newOperation env 0 body in
        (Success (OperationData operation), set_operations (operations st ++ [operation]) st)
  | PostOperationsBatch auth body =>
      if negb (validateToken auth) then (unauthorized, st)
      else
        let created := imap (λ k b, newOperation env k b) body in
        (Success (OperationsData created), set_operations (operations st ++ created) st)
  | PostOtp auth body =>
      if negb (validateToken auth) then (unauthorized, st)
      else (Success NoData, mkState (session st) (operations st) (body ≫= b_otp))
  | PostApprove auth queryId =>
      if negb (validateToken auth) then (unauthorized, st)
      else
        match findIndex (has_query_id queryId) (operations st) with
        | None => (Failure 404 "Operation not found", st)
        | Some index =>
            match operations st !! index with
            | None => (Failure 404 "Operation not found", st)
            | Some operation =>
                if decide (status operation ≠ pending)
                then (Failure 400 "Operation is not pending", st)
                else (Success (OperationData (with_status approved operation)),
                      set_operations (alter (with_status approved) index (operations st)) st)
            end
        end
  | PostApproveAll auth =>
      if negb (validateToken auth) then (unauthorized, st)
      else
        let pendingOps := refsWithStatus pending (operations st) in
        (Success (ApprovedData (length pendingOps)),
         set_operations (approveRefs pendingOps (operations st)) st)
  | PostExecute auth =>
      if negb (validateToken auth) then (unauthorized, st)
      else executeRefs env 0 (refsWithStatus approved (operations st)) st []
  | DeleteOperations auth queryId =>
      if negb (validateToken auth) then (unauthorized, st)
      else
        match findIndex (has_query_id queryId) (operations st) with
        | None => (Failure 404 "Operation not found", st)
        | Some index =>
            match operations st !! index with
            | None => (Failure 400 "Cannot cancel running operation", st)
            | Some operation =>
                if decide (status operation = running)
                then (Failure 400 "Cannot cancel running operation", st)
                else (Success NoData, set_operations (delete index (operations st)) st)
            end
        end
  | DeleteOperationsAll auth =>
      if negb (validateToken auth) then (unauthorized, st)
      else
        let removed := length (filter (λ op, status op ≠ running) (operations st)) in
        (Success (RemovedData removed),
         set_operations (filter (λ op, status op = running) (operations st)) st)
  end.

End App.

End Server.

(** ** The auth helper of the mock HTTP server ([tests/helpers/fixtures.ts]) *)

Module MockServer.

(** [requireAuth]: [None] when the request may proceed, otherwise the
    error of the 401 answer. *)
Definition requireAuth (authHeader : option string) (st : Mock.MockConnectorStateData)
    : option string :=
  if negb (Js.truthy authHeader) || negb (Js.startsWith "Bearer " (default "" authHeader))
  then Some "Authorization required"
  else
    let token := Js.drop 7 (default "" authHeader) in
    if decide (token ≠ Mock.token (Mock.config st)) then Some "Invalid token"
    else if negb (Mock.isConnected st) then Some "Not connected"
    else None.

(** The [/connect] handler: the status code and the state it leaves. *)
Definition connect (now : Z) (bodyToken : option string) (st : Mock.MockConnectorStateData)
    : Z * Mock.MockConnectorStateData :=
  if negb (Js.truthy bodyToken) || bool_decide (bodyToken ≠ Some (Mock.token (Mock.config st)))
  then (401, st)
  else (200, (Mock.connect now (default "" bodyToken) st).2).

End MockServer.

(** ** The mirrored registry data of the state manager
    ([mock-connector-state.ts], "Org Data", "Package Data", "User Data") *)

Module MockData.
Import Mock.

(** [Partial<MockOrgData>] *)
Record PartialOrgData := mkPartialOrg {
  d_users : option (gmap string string);
  d_teams : option (list string);
  d_teamMembers : option (gmap string (list string));
}.

(** [{ ...a, ...b }]: the keys of [b] win; spreading [undefined] adds
    nothing. *)
Definition spread {V} (a : gmap string V) (b : option (gmap string V)) : gmap string V :=
  default ∅ b ∪ a.

Definition set_userOrgs (o : list string) (st : MockConnectorStateData) :=
  mkState (config st) (connected st) (connectedAt st) (orgs st) (packages st)
          (userPackages st) o (operations st) (operationIdCounter st).

(** [setOrgData] and [setPackageData] for a plain name; for the name
    of a member of [Object.prototype] see [applyOperationEffect]. *)
Definition setOrgData (org : string) (data : PartialOrgData) (st : MockConnectorStateData)
    : MockConnectorStateData :=
  let existing := default emptyOrg (orgs st !! org) in
  set_orgs (<[org := mkOrg (spread (users existing) (d_users data))
                           (default (teams existing) (d_teams data))
                           (spread (teamMembers existing) (d_teamMembers data))]>
              (orgs st)) st.

Definition getOrgUsers (org : string) (st : MockConnectorStateData)
    : option (gmap string string) :=
  users <$> orgs st !! normalizeOrg org.

Definition getOrgTeams (org : string) (st : MockConnectorStateData) : option (list string) :=
  teams <$> orgs st !! normalizeOrg org.

(** [getTeamUsers]: the members of the team, [Undefined] for the [null]
    it returns for an unknown org or team, [Inherited] for the member of
    [Object.prototype] that [org.teamMembers[team]] finds when [team] is
    the name of one and no team of the org. *)
Definition getTeamUsers (scope team : string) (st : MockConnectorStateData)
    : Js.Property (list string) :=
  match orgs st !! normalizeOrg scope with
  | None => Js.Undefined
  | Some org => Js.property (teamMembers org) team
  end.

Definition setPackageData (pkg : string) (data : MockPackageData)
    (st : MockConnectorStateData) : MockConnectorStateData :=
  set_packages (<[pkg := data]> (packages st)) st.

(** [this.state.packages[pkg]?.collaborators ?? null]; a member of
    [Object.prototype] has no [collaborators]. *)
Definition getPackageCollaborators (pkg : string) (st : MockConnectorStateData)
    : option (gmap string string) :=
  match Js.property (packages st) pkg with
  | Js.Own data => Some (collaborators data)
  | Js.Inherited | Js.Undefined => None
  end.

Definition setUserPackages (p : gmap string string) (st : MockConnectorStateData) :=
  set_userPackages p st.

Definition setUserOrgs (o : list string) (st : MockConnectorStateData) := set_userOrgs o st.

Definition getUserPackages (st : MockConnectorStateData) : gmap string string := userPackages st.

Definition getUserOrgs (st : MockConnectorStateData) : list string := userOrgs st.

Definition getOperations (st : MockConnectorStateData) : list PendingOperation := operations st.

End MockData.

(** ** The mock of the [useConnector] composable
    ([mock-connector-composable.ts])

    The reactive [state] of the composable is the record [View]; an
    instance is the state manager together with it. [syncState] copies the
    array of operations, whose elements the view shares with the manager;
    every action below that changes an operation calls [syncState] before
    it returns, so the copy is modelled by value. The delay in [connect] is
    left out. *)

Module Composable.
Import Mock.

Record View := mkView {
  v_connected : bool;
  v_connecting : bool;
  v_npmUser : option string;
  v_avatar : option string;
  v_operations : list PendingOperation;
  v_error : option string;
  v_lastExecutionTime : option Z;
}.

Record Instance := mkInstance {
  manager : MockConnectorStateData;
  view : View;
}.

Definition emptyView : View := mkView false false None None [] None None.

(** [createMockConnectorComposable(config)] *)
Definition create (cfg : MockConnectorConfig) : Instance :=
  mkInstance (createMockConnectorState cfg) emptyView.

Definition syncState (m : MockConnectorStateData) (v : View) : View :=
  mkView (isConnected m)
         (v_connecting v)
         (if isConnected m then Some (npmUser (config m)) else None)
         (if isConnected m then avatar (config m) else None)
         (MockData.getOperations m)
         (v_error v)
         (v_lastExecutionTime v).

Definition set_error (e : option string) (v : View) : View :=
  mkView (v_connected v) (v_connecting v) (v_npmUser v) (v_avatar v) (v_operations v) e
         (v_lastExecutionTime v).

Definition set_connecting (c : bool) (v : View) : View :=
  mkView (v_connected v) c (v_npmUser v) (v_avatar v) (v_operations v) (v_error v)
         (v_lastExecutionTime v).

Definition set_lastExecutionTime (t : option Z) (v : View) : View :=
  mkView (v_connected v) (v_connecting v) (v_npmUser v) (v_avatar v) (v_operations v)
         (v_error v) t.

(** *** Computed lists *)

(** [op.result?.requiresOtp], as a condition *)
Definition wantsOtp (op : PendingOperation) : bool :=
  match result op with
  | Some r => bool_decide (requiresOtp r = Some true)
  | None => false
  end.

Definition isPending (op : PendingOperation) : bool := bool_decide (status op = pending).
Definition isApproved (op : PendingOperation) : bool := bool_decide (status op = approved).

Definition isCompleted (op : PendingOperation) : bool :=
  bool_decide (status op = completed)
  || (bool_decide (status op = failed) && negb (wantsOtp op)).

Definition isActive (op : PendingOperation) : bool :=
  bool_decide (status op = pending) || bool_decide (status op = approved)
  || bool_decide (status op = running)
  || (bool_decide (status op = failed) && wantsOtp op).

Definition pendingOperations (v : View) := List.filter isPending (v_operations v).
Definition approvedOperations (v : View) := List.filter isApproved (v_operations v).
Definition completedOperations (v : View) := List.filter isCompleted (v_operations v).
Definition activeOperations (v : View) := List.filter isActive (v_operations v).

(** *** Actions *)

Definition connect (now : Z) (tok : string) (i : Instance) : bool * Instance :=
  let v := set_error None (set_connecting true (view i)) in
  let '(success, m) := Mock.connect now tok (manager i) in
  let v := if success then syncState m v else set_error (Some "Invalid token") v in
  (success, mkInstance m (set_connecting false v)).

Definition reconnect (i : Instance) : bool := isConnected (manager i).

Definition disconnect (i : Instance) : Instance :=
  let m := Mock.disconnect (manager i) in
  mkInstance m (set_error None (syncState m (view i))).

Definition refreshState (i : Instance) : Instance :=
  mkInstance (manager i) (syncState (manager i) (view i)).

Definition addOperation (now : Z) (operation : NewOperationInput) (i : Instance)
    : option PendingOperation * Instance :=
  if negb (isConnected (manager i)) then (None, i)
  else let '(op, m) := Mock.addOperation now operation (manager i) in
       (Some op, mkInstance m (syncState m (view i))).

Definition addOperations (now : Z) (inputs : list NewOperationInput) (i : Instance)
    : list PendingOperation * Instance :=
  if negb (isConnected (manager i)) then ([], i)
  else let '(ops, m) := Mock.addOperations now inputs (manager i) in
       (ops, mkInstance m (syncState m (view i))).

Definition removeOperation (id_ : string) (i : Instance) : bool * Instance :=
  if negb (isConnected (manager i)) then (false, i)
  else let '(success, m) := Mock.removeOperation id_ (manager i) in
       (success, mkInstance m (syncState m (view i))).

Definition clearOperations (i : Instance) : nat * Instance :=
  if negb (isConnected (manager i)) then (O, i)
  else let '(count, m) := Mock.clearOperations (manager i) in
       (count, mkInstance m (syncState m (view i))).

Definition approveOperation (id_ : string) (i : Instance) : bool * Instance :=
  if negb (isConnected (manager i)) then (false, i)
  else let '(op, m) := Mock.approveOperation id_ (manager i) in
       (bool_decide (op ≠ None), mkInstance m (syncState m (view i))).

Definition retryOperation (id_ : string) (i : Instance) : bool * Instance :=
  if negb (isConnected (manager i)) then (false, i)
  else let '(op, m) := Mock.retryOperation id_ (manager i) in
       (bool_decide (op ≠ None), mkInstance m (syncState m (view i))).

Definition approveAll (i : Instance) : nat * Instance :=
  if negb (isConnected (manager i)) then (O, i)
  else let '(count, m) := Mock.approveAll (manager i) in
       (count, mkInstance m (syncState m (view i))).

(** The answer of [executeOperations]: [{ success, otpRequired? }] *)
Definition executeOperations (now : Z) (otp : option string) (i : Instance)
    : (bool * option bool) * Instance :=
  if negb (isConnected (manager i)) then ((false, None), i)
  else
    let run := Mock.executeOperations (Some (mkOptions otp None)) (manager i) in
    let m := final run in
    ((true, otpRequired (output run)),
     mkInstance m (set_lastExecutionTime (Some now) (syncState m (view i)))).

(** *** Data fetching *)

Definition listOrgUsers (org : string) (i : Instance) : option (gmap string string) :=
  if negb (isConnected (manager i)) then None else MockData.getOrgUsers org (manager i).

Definition listOrgTeams (org : string) (i : Instance) : option (list string) :=
  if negb (isConnected (manager i)) then None else MockData.getOrgTeams org (manager i).

Definition listTeamUsers (scopeTeam : string) (i : Instance)
    : Js.Property (list string) :=
  if negb (isConnected (manager i)) then Js.Undefined
  else match scope_and_team scopeTeam with
       | (Some scope, Some team) =>
           if negb (Js.truthy (Some scope)) || negb (Js.truthy (Some team)) then Js.Undefined
           else MockData.getTeamUsers scope team (manager i)
       | _ => Js.Undefined
       end.

Definition listPackageCollaborators (pkg : string) (i : Instance)
    : option (gmap string string) :=
  if negb (isConnected (manager i)) then None
  else MockData.getPackageCollaborators pkg (manager i).

Definition listUserPackages (i : Instance) : option (gmap string string) :=
  if negb (isConnected (manager i)) then None else Some (MockData.getUserPackages (manager i)).

Definition listUserOrgs (i : Instance) : option (list string) :=
  if negb (isConnected (manager i)) then None else Some (MockData.getUserOrgs (manager i)).

(** *** Test controls *)

Definition controlReset (i : Instance) : Instance :=
  mkInstance (reset (manager i)) emptyView.

(** [simulateConnect] connects with the token of the configuration the
    instance was created with, which is the token of its manager. *)
Definition simulateConnect (now : Z) (i : Instance) : Instance :=
  let m := (Mock.connect now (token (config (manager i))) (manager i)).2 in
  mkInstance m (syncState m (view i)).

Definition simulateDisconnect (i : Instance) : Instance :=
  let m := Mock.disconnect (manager i) in
  mkInstance m (syncState m (view i)).

Definition simulateError (message : string) (i : Instance) : Instance :=
  mkInstance (manager i) (set_error (Some message) (view i)).

Definition clearError (i : Instance) : Instance :=
  mkInstance (manager i) (set_error None (view i)).

Definition controlSetOrgData (org : string) (data : MockData.PartialOrgData) (i : Instance) :=
  mkInstance (MockData.setOrgData org data (manager i)) (view i).

Definition controlSetUserOrgs (o : list string) (i : Instance) :=
  mkInstance (MockData.setUserOrgs o (manager i)) (view i).

Definition controlSetUserPackages (p : gmap string string) (i : Instance) :=
  mkInstance (MockData.setUserPackages p (manager i)) (view i).

(** [setPackageData(pkg, { collaborators: data.collaborators ?? {} })] *)
Definition controlSetPackageData (pkg : string) (c : option (gmap string string))
    (i : Instance) :=
  mkInstance (MockData.setPackageData pkg (mkPackage (default ∅ c)) (manager i)) (view i).

End Composable.

(** ** Names the model of the registry data covers *)

Module EffectSpec.
Import Mock.

(** A name that no member of [Object.prototype] has. *)
Definition plain (k : string) : Prop := k ∉ Js.prototype_names.

(** The parameters an effect uses as keys of registry objects: the user,
    the team (given by itself or as the second part of [scopeTeam]) and
    the package. The org is used with [@] in front, which no member of
    [Object.prototype] has. *)
Definition effect_keys (p : gmap string string) : list string :=
  omap (λ k, k)
       [p !! "user"; p !! "team"; p !! "package";
        match p !! "scopeTeam" with
        | Some scopeTeam => (scope_and_team scopeTeam).2
        | None => None
        end].

(** An operation whose identifier and whose keys are plain, and a queue
    in which every approved operation is: on such a queue every effect
    that [executeOperations] applies is the one of [applyOperationEffect],
    and a result is configured for an operation exactly when the object
    [results] owns its identifier. *)
Definition plain_operation (op : PendingOperation) : Prop :=
  plain (id op) ∧ Forall plain (effect_keys (params op)).

Definition plain_queue (st : MockConnectorStateData) : Prop :=
  Forall (λ op, status op = approved → plain_operation op) (operations st).

Global Instance plain_dec k : Decision (plain k).
Proof. unfold plain. apply _. Defined.
Global Instance plain_operation_dec op : Decision (plain_operation op).
Proof. unfold plain_operation. apply _. Defined.
Global Instance plain_queue_dec st : Decision (plain_queue st).
Proof. unfold plain_queue. apply _. Defined.

End EffectSpec.

(** ** Vocabulary of the specification *)

Section DependencyGraph.
Context {A : Type}.
Variable op_id : A → string.
Variable op_dependsOn : A → option string.

(** The edge "[op] depends on [d]" that the sort follows within a list. *)
Definition depends (operations : list A) (op d : A) : Prop :=
  dependency op_id op_dependsOn operations op = Some d.

(** No operation of the list reaches itself along dependency edges. *)
Definition acyclic (operations : list A) : Prop :=
  ∀ op, op ∈ operations → ¬ tc (depends operations) op op.

(** Identifiers as the store hands them out: distinct and not empty. *)
Definition wf_ids (operations : list A) : Prop :=
  NoDup (op_id <$> operations) ∧ Forall (λ op, op_id op ≠ "") operations.

(** [d] stands before [op] in [l]. *)
Definition before (l : list A) (d op : A) : Prop :=
  ∃ j i, (j < i)%nat ∧ l !! j = Some d ∧ l !! i = Some op.

(** Every operation of [l] stands after what it depends on. *)
Definition ordered (operations l : list A) : Prop :=
  ∀ op d, op ∈ l → depends operations op d → before l d op.

(** A sufficient, computable test for [acyclic]: a rank that goes down
    along every edge. *)
Definition ranked (rank : A → nat) (operations : list A) : bool :=
  forallb (λ op, match dependency op_id op_dependsOn operations op with
                 | Some d => bool_decide (rank d < rank op)%nat
                 | None => true
                 end) operations.

(** What one outermost call of [visit] appends to [result] when it starts
    at an operation that is not yet visited: the operations along the
    dependency edges from [op] up to the first one whose dependency is
    missing or already visited, deepest first. *)
Inductive dep_chain (operations : list A) : gset string → A → list A → Prop :=
  | chain_last visited op :
      op_id op ∉ visited →
      (∀ d, depends operations op d → op_id d ∈ ({[op_id op]} ∪ visited : gset string)) →
      dep_chain operations visited op [op]
  | chain_cons visited op d l :
      op_id op ∉ visited →
      depends operations op d →
      dep_chain operations ({[op_id op]} ∪ visited) d l →
      dep_chain operations visited op (l ++ [op]).

End DependencyGraph.

(** What [approveAll] is to do to a store: [count] is the number of
    pending operations of [ops], and [ops'] is [ops] with exactly those
    approved, every other operation and every other field as it was. *)
Definition approves_pending (ops ops' : list PendingOperation) (count : nat) : Prop :=
  count = length (filter (λ op, status op = pending) ops) ∧
  length ops' = length ops ∧
  ∀ j op, ops !! j = Some op →
          ops' !! j = Some (if decide (status op = pending)
                            then with_status approved op else op).

(** A string that neither starts nor ends with white space. *)
Definition trimmed (s : string) : Prop :=
  Js.strip_one Js.white_space (list_ascii_of_string s) = None ∧
  Js.strip_one (@rev ascii <$> Js.white_space) (rev (list_ascii_of_string s)) = None.


Module MockSpec.
Import Mock.

(** The calls of the store and of the engine that assign a status. *)
Inductive Call :=
  | Approve (i : string)
  | ApproveAll
  | Retry (i : string)
  | Execute (options : option ExecuteOptions).

(** The lifecycle of the specification:
    pending → approved → running → completed | failed ([forward]), and
    failed → approved, the edge of retry. *)
Inductive forward : OperationStatus → OperationStatus → Prop :=
  | f_approve : forward pending approved
  | f_run : forward approved running
  | f_complete : forward running completed
  | f_fail : forward running failed.

Inductive transition : OperationStatus → OperationStatus → Prop :=
  | t_forward a b : forward a b → transition a b
  | t_retry : transition failed approved.

(** Between two states of the store every operation is either left as it
    was or moved along one edge of [T]. *)
Definition steps (T : OperationStatus → OperationStatus → Prop)
    (ops ops' : list PendingOperation) : Prop :=
  length ops = length ops' ∧
  ∀ j op op', ops !! j = Some op → ops' !! j = Some op' →
              op' = op ∨ T (status op) (status op').

Definition lawful := steps transition.

Definition is_retry (c : Call) : bool :=
  match c with Retry _ => true | _ => false end.

(** The references [executeOperations] works on, in the order it works on
    them. *)
Definition sortedRefs (st : MockConnectorStateData) : list nat :=
  sortByDependencies (ref_id st) (ref_dependsOn st) (approvedRefs st).

(** [R] relates every element of a list to its successor. *)
Definition adjacent {X} (R : X → X → Prop) (l : list X) : Prop :=
  ∀ k x y, l !! k = Some x → l !! S k = Some y → R x y.

(** The store after each assignment of one call, and the state the call
    leaves. *)
Definition call_journal (c : Call) (st : MockConnectorStateData)
    : list (list PendingOperation) :=
  match c with
  | Approve i => [operations (approveOperation i st).2]
  | ApproveAll => [operations (approveAll st).2]
  | Retry i => [operations (retryOperation i st).2]
  | Execute options => operations <$> journal (executeOperations options st)
  end.

Definition call_final (c : Call) (st : MockConnectorStateData) : MockConnectorStateData :=
  match c with
  | Approve i => (approveOperation i st).2
  | ApproveAll => (approveAll st).2
  | Retry i => (retryOperation i st).2
  | Execute options => final (executeOperations options st)
  end.

(** The successive states of the store over a sequence of calls. *)
Fixpoint history (calls : list Call) (st : MockConnectorStateData)
    : list (list PendingOperation) :=
  match calls with
  | [] => []
  | c :: rest => call_journal c st ++ history rest (call_final c st)
  end.

(** Between two states of the store, an operation with a dependency [X]
    has become running only if the operation found under [X] is completed,
    before and after. *)
Definition gated (ops ops' : list PendingOperation) : Prop :=
  ∀ j op X,
    ops' !! j = Some op → status op = running → status <$> ops !! j ≠ Some running →
    dependsOn op = Some X → X ≠ "" →
    ∃ dep, find (has_id X) ops = Some dep ∧ find (has_id X) ops' = Some dep ∧
           status dep = completed.

(** One pass through the body of the loop of [executeOperations] for the
    reference [i]: [None] when the operation is skipped, otherwise the state
    after [op.status = 'running'], the state after the result and the final
    status are assigned, the state the pass leaves, the result, and whether
    the pass returns from [executeOperations]. *)
Record Pass := mkPass {
  started : MockConnectorStateData;
  settled : MockConnectorStateData;
  left : MockConnectorStateData;
  outcome : OperationResult;
  halts : bool;
}.

Definition iteration (options : option ExecuteOptions) (i : nat)
    (st : MockConnectorStateData) : option Pass :=
  match operations st !! i with
  | None => None
  | Some op =>
      if dependencyMet st op then
        let st1 := assign (with_status running) i st in
        match configuredResult options (id op) with
        | Some c =>
            let r := fromConfigured c in
            let st2 := assign (λ o, with_status (outcome_status r) (with_result (Some r) o))
                              i st1 in
            Some (mkPass st1 st2 st2 r
                    (bool_decide (requiresOtp r = Some true) && negb (otpSupplied options)))
        | None =>
            let r := defaultSuccess op in
            let st2 := assign (λ o, with_status completed (with_result (Some r) o)) i st1 in
            let st3 := match operations st2 !! i with
                       | Some op' => applyOperationEffect op' st2
                       | None => st2
                       end in
            Some (mkPass st1 st2 st3 r false)
        end
      else None
  end.

(** The passes that a run of the loop over [refs] makes from a state, the
    state the run leaves and whether it returned early. *)
Inductive passes (options : option ExecuteOptions)
    : list nat → MockConnectorStateData → list (nat * Pass) →
      MockConnectorStateData → bool → Prop :=
  | passes_nil st : passes options [] st [] st false
  | passes_skip i rest st ps st' h :
      iteration options i st = None →
      passes options rest st ps st' h →
      passes options (i :: rest) st ps st' h
  | passes_halt i rest st p :
      iteration options i st = Some p → halts p = true →
      passes options (i :: rest) st [(i, p)] (settled p) true
  | passes_next i rest st p ps st' h :
      iteration options i st = Some p → halts p = false →
      passes options rest (left p) ps st' h →
      passes options (i :: rest) st ((i, p) :: ps) st' h.

(** The journal entries of a list of passes. *)
Definition entries (ps : list (nat * Pass)) : list MockConnectorStateData :=
  ps ≫= λ ip, [started ip.2; settled ip.2].

(** The references of [refs] are distinct and point to approved
    operations of [st]. *)
Definition approved_refs (refs : list nat) (st : MockConnectorStateData) : Prop :=
  NoDup refs ∧ ∀ i, i ∈ refs → ref_status st i = Some approved.

(** Every call of the state manager that touches the queue or the
    connection, and the states a manager can be in: those that the calls
    lead to from [createMockConnectorState]. *)
Inductive ManagerCall :=
  | Connect (now : Z) (tok : string)
  | Disconnect
  | Add (now : Z) (operation : NewOperationInput)
  | AddMany (now : Z) (inputs : list NewOperationInput)
  | Remove (i : string)
  | Clear
  | Assigning (c : Call)
  | Reset.

Definition perform (c : ManagerCall) (st : MockConnectorStateData) : MockConnectorStateData :=
  match c with
  | Connect now tok => (connect now tok st).2
  | Disconnect => disconnect st
  | Add now operation => (addOperation now operation st).2
  | AddMany now inputs => (addOperations now inputs st).2
  | Remove i => (removeOperation i st).2
  | Clear => (clearOperations st).2
  | Assigning c => call_final c st
  | Reset => reset st
  end.

Inductive reachable : MockConnectorStateData → Prop :=
  | reachable_created cfg : reachable (createMockConnectorState cfg)
  | reachable_perform c st : reachable st → reachable (perform c st).

(** The identifiers of a store whose counter stands at [n]: distinct, each
    [op-k] for some [k] from 1 to [n]. *)
Definition issued (n : nat) (ids : list string) : Prop :=
  NoDup ids ∧ ∀ i, i ∈ ids → ∃ k, (1 ≤ k ≤ n)%nat ∧ i = "op-" +:+ pretty k.

(** A store as the calls of the manager leave it, whatever registry data
    was prepared: its identifiers are the ones issued up to the counter. *)
Definition numbered (st : MockConnectorStateData) : Prop :=
  issued (operationIdCounter st) (id <$> operations st).

(** A step in the life of a manager: a call, or one of the setters that
    tests prepare registry data with. *)
Inductive Step :=
  | Calling (c : ManagerCall)
  | SettingOrg (org : string) (data : MockData.PartialOrgData)
  | SettingPackage (pkg : string) (data : MockPackageData)
  | SettingUserOrgs (o : list string)
  | SettingUserPackages (p : gmap string string).

Definition step (s : Step) (st : MockConnectorStateData) : MockConnectorStateData :=
  match s with
  | Calling c => perform c st
  | SettingOrg org data => MockData.setOrgData org data st
  | SettingPackage pkg data => MockData.setPackageData pkg data st
  | SettingUserOrgs o => MockData.setUserOrgs o st
  | SettingUserPackages p => MockData.setUserPackages p st
  end.

Definition is_setter (s : Step) : bool :=
  match s with
  | Calling _ => false
  | _ => true
  end.

(** A step that keeps the registry objects as the model has them: the
    batch that an [executeOperations] runs is plain, and so is the org or
    the package whose data is set. *)
Definition plain_step (s : Step) (st : MockConnectorStateData) : Prop :=
  match s with
  | Calling (Assigning (Execute _)) => EffectSpec.plain_queue st
  | SettingOrg org _ => EffectSpec.plain org
  | SettingPackage pkg _ => EffectSpec.plain pkg
  | _ => True
  end.

(** The states that plain steps lead to from [createMockConnectorState];
    [setters] says whether setters may be among the steps. On the way to
    such a state no effect has raised an error and no assignment has
    reached a prototype, so the state of the JavaScript is the one
    computed here; without setters its registry data is all built by the
    effects, and holds no array or object at two places. *)
Inductive plainly_reachable (setters : bool) : MockConnectorStateData → Prop :=
  | plainly_created cfg : plainly_reachable setters (createMockConnectorState cfg)
  | plainly_stepped s st :
      plainly_reachable setters st → (is_setter s = true → setters = true) →
      plain_step s st → plainly_reachable setters (step s st).


(** C8 in the words of the specification: the sorted list holds each
    operation of the input exactly once. *)
Definition sort_as_specified (operations : list PendingOperation) : Prop :=
  sortByDependencies id dependsOn operations ≡ₚ operations.


(** C3 in the words of the specification, for one call and a dependency
    that is not in the store: the operation is never running and is still
    approved afterwards. *)
Definition dependency_gate_as_specified (st : MockConnectorStateData)
    (options : option ExecuteOptions) : Prop :=
  let run := executeOperations options st in
  ∀ j op X, operations st !! j = Some op → status op = approved →
            dependsOn op = Some X → getOperation X st = None →
            ref_status (final run) j = Some approved ∧
            ∀ s, s ∈ journal run → ref_status s j ≠ Some running.

End MockSpec.

(** ** Sample states, built through the calls of the state manager *)

Module Samples.
Import Mock.

(** [DEFAULT_MOCK_CONFIG] *)
Definition DEFAULT_MOCK_CONFIG : MockConnectorConfig :=
  mkConfig "test-token-e2e-12345" "testuser" None (Some 31415).

Definition fresh : MockConnectorStateData := createMockConnectorState DEFAULT_MOCK_CONFIG.

Definition addUser (user : string) (dep : option string) : NewOperationInput :=
  mkInput "org:add-user"
          {["org" := "@acme"; "user" := user; "role" := "developer"]}
          ("Add " +:+ user +:+ " to @acme")
          ("npm org set @acme " +:+ user +:+ " developer")
          dep.

(** One approved operation, [op-1]. *)
Definition one_approved : MockConnectorStateData :=
  (approveAll (addOperation 1 (addUser "bob" None) fresh).2).2.

(** [op-1] pending; [op-2], which depends on it, approved. *)
Definition second_approved : MockConnectorStateData :=
  (approveOperation "op-2"
     (addOperations 1 [addUser "bob" None; addUser "eve" (Some "op-1")] fresh).2).2.

(** One approved operation whose [dependsOn] is the empty string. *)
Definition empty_dependency : MockConnectorStateData :=
  (approveAll (addOperation 1 (addUser "bob" (Some "")) fresh).2).2.

(** The command of [op-1] asks for an OTP; no exit code is configured. *)
Definition otp_wanted : option ExecuteOptions :=
  Some (mkOptions None (Some {["op-1" := mkPartial None None None (Some true) None]})).

(** Three operations in a chain, listed against the direction of the
    dependencies, and two that depend on each other. *)
Definition opA : PendingOperation :=
  mkOp "op-1" "team:create" ∅ "Create team" "npm team create @acme:core" approved 1 None None.
Definition opB : PendingOperation :=
  mkOp "op-2" "team:add-user" ∅ "Add bob" "npm team add @acme:core bob" approved 2
       (Some "op-1") None.
Definition opC : PendingOperation :=
  mkOp "op-3" "access:grant" ∅ "Grant" "npm access grant read-write @acme:core pkg" approved 3
       (Some "op-2") None.
Definition opX : PendingOperation :=
  mkOp "op-4" "team:create" ∅ "X" "npm team create @acme:x" approved 4 (Some "op-5") None.
Definition opY : PendingOperation :=
  mkOp "op-5" "team:create" ∅ "Y" "npm team create @acme:y" approved 5 (Some "op-4") None.

(** Two operations under one identifier. *)
Definition twin1 : PendingOperation :=
  mkOp "op-1" "team:create" ∅ "Create core" "npm team create @acme:core" approved 1 None None.
Definition twin2 : PendingOperation :=
  mkOp "op-1" "team:create" ∅ "Create docs" "npm team create @acme:docs" approved 2 None None.



(** A child process that is killed by the timeout: the rejection carries
    the streams and no code. *)
Definition timed_out : NpmClient.ExecAsync :=
  λ _, Throw (NpmClient.mkExecError (Some "") (Some "npm ERR! timed out  ") None
                                    "Error: Command failed: npm whoami").

(** The environment of a handler in which every command succeeds. *)
Definition quiet : Server.Env :=
  Server.mkEnv (λ _, 1700000000000%Z) (λ k, "id-" +:+ pretty k) (λ _ _, Normal ("", "")).

End Samples.

(** ** Vocabulary for the queue of the state manager *)

Module QueueSpec.
Import Mock MockSpec.

(** The statuses an operation can have between two calls. *)
Definition at_rest (s : OperationStatus) : Prop :=
  s = pending ∨ s = approved ∨ s = completed ∨ s = failed.

(** The state after a sequence of calls. *)
Definition perform_all (calls : list ManagerCall) (st : MockConnectorStateData)
    : MockConnectorStateData :=
  foldl (λ s c, perform c s) st calls.

(** No result is configured for any operation. *)
Definition unconfigured (options : option ExecuteOptions) : Prop :=
  ∀ i, configuredResult options i = None.

(** An operation as the default branch of [executeOperations] leaves it. *)
Definition succeeded (op : PendingOperation) : PendingOperation :=
  with_status completed (with_result (Some (defaultSuccess op)) op).

(** An operation as [executeOperations] leaves it with result [r]. *)
Definition settled_with (r : OperationResult) (op : PendingOperation) : PendingOperation :=
  with_status (outcome_status r) (with_result (Some r) op).

(** The result [executeOperations] gives an operation it runs: the
    configured one, or the default success. *)
Definition expected (options : option ExecuteOptions) (op : PendingOperation)
    : OperationResult :=
  match configuredResult options (id op) with
  | Some c => fromConfigured c
  | None => defaultSuccess op
  end.

(** [op] carries what [input] asked for. *)
Definition made_from (now : Z) (input : NewOperationInput) (op : PendingOperation) : Prop :=
  type op = in_type input ∧ params op = in_params input ∧
  description op = in_description input ∧ command op = in_command input ∧
  dependsOn op = in_dependsOn input ∧ createdAt op = now ∧
  status op = pending ∧ result op = None.

End QueueSpec.

(** ** Further sample states of the state manager *)

Module QueueSamples.
Import Mock MockSpec Samples.

(** [op-1] and [op-2], which depends on it, both approved. *)
Definition chain_approved : MockConnectorStateData :=
  (approveAll (addOperations 1 [addUser "bob" None; addUser "eve" (Some "op-1")] fresh).2).2.

(** The command of [op-1] is refused by the registry. *)
Definition refused : option ExecuteOptions :=
  Some (mkOptions None (Some {["op-1" := mkPartial None (Some "E403") (Some 1) None None]})).

(** [op-1] has failed. *)
Definition one_failed : MockConnectorStateData :=
  final (executeOperations refused one_approved).

(** The position of a reference of [chain_approved] in the chain. *)
Definition chain_rank (i : nat) : nat := i.

End QueueSamples.

(** ** Sample operations and registry data *)

Module EffectSamples.
Import Mock MockData Samples.

(** An operation of the given type and parameters. *)
Definition operation (t : string) (p : gmap string string) : PendingOperation :=
  mkOp "op-1" t p "" "" approved 0 None None.

(** The org [@acme] with one owner, one team and its member. *)
Definition acme : MockConnectorStateData :=
  setOrgData "@acme"
    (mkPartialOrg (Some {["alice" := "owner"]}) (Some ["core"]) (Some {["core" := ["alice"]]}))
    fresh.

(** The grant of the end-to-end tests, with the parameter names the
    connector reads. *)
Definition grant_for_connector : PendingOperation :=
  operation "access:grant"
    {["scopeTeam" := "@nuxt:triage"; "pkg" := "@nuxt/kit"; "permission" := "read-write"]}.

End EffectSamples.

(** ** Vocabulary for the mock composable *)

Module ComposableSpec.
Import Mock Composable.

(** What a test or a component can do with an instance through the
    composable and through its test controls (not through
    [controls.stateManager], which bypasses the view). *)
Inductive Action :=
  | Connecting (now : Z) (tok : string)
  | Disconnecting
  | Refreshing
  | Adding (now : Z) (operation : NewOperationInput)
  | AddingMany (now : Z) (inputs : list NewOperationInput)
  | Removing (i : string)
  | Clearing
  | Approving (i : string)
  | Retrying (i : string)
  | ApprovingAll
  | Executing (now : Z) (otp : option string)
  | ControlReset
  | SimulateConnect (now : Z)
  | SimulateDisconnect
  | SimulateError (message : string)
  | ClearError
  | SetOrgData (org : string) (data : MockData.PartialOrgData)
  | SetUserOrgs (o : list string)
  | SetUserPackages (p : gmap string string)
  | SetPackageData (pkg : string) (c : option (gmap string string)).

Definition act (a : Action) (i : Instance) : Instance :=
  match a with
  | Connecting now tok => (connect now tok i).2
  | Disconnecting => disconnect i
  | Refreshing => refreshState i
  | Adding now operation => (addOperation now operation i).2
  | AddingMany now inputs => (addOperations now inputs i).2
  | Removing id_ => (removeOperation id_ i).2
  | Clearing => (clearOperations i).2
  | Approving id_ => (approveOperation id_ i).2
  | Retrying id_ => (retryOperation id_ i).2
  | ApprovingAll => (approveAll i).2
  | Executing now otp => (executeOperations now otp i).2
  | ControlReset => controlReset i
  | SimulateConnect now => simulateConnect now i
  | SimulateDisconnect => simulateDisconnect i
  | SimulateError message => simulateError message i
  | ClearError => clearError i
  | SetOrgData org data => controlSetOrgData org data i
  | SetUserOrgs o => controlSetUserOrgs o i
  | SetUserPackages p => controlSetUserPackages p i
  | SetPackageData pkg c => controlSetPackageData pkg c i
  end.

(** An action that hands the manager plain names only: the keys of an
    operation it adds, the org or the package whose data it sets. *)
Definition plain_action (a : Action) : Prop :=
  match a with
  | Adding _ operation => Forall EffectSpec.plain (EffectSpec.effect_keys (in_params operation))
  | AddingMany _ inputs =>
      Forall (λ operation,
                Forall EffectSpec.plain (EffectSpec.effect_keys (in_params operation)))
             inputs
  | SetOrgData org _ => EffectSpec.plain org
  | SetPackageData pkg _ => EffectSpec.plain pkg
  | _ => True
  end.

(** The instance after a sequence of actions. *)
Definition act_all (actions : list Action) (i : Instance) : Instance :=
  foldl (λ s a, act a s) i actions.

(** The view shows the connection and the queue of the manager. *)
Definition mirrors (i : Instance) : Prop :=
  v_connected (view i) = isConnected (manager i) ∧
  v_operations (view i) = operations (manager i) ∧
  v_npmUser (view i)
  = (if isConnected (manager i) then Some (npmUser (config (manager i))) else None) ∧
  v_avatar (view i) = (if isConnected (manager i) then avatar (config (manager i)) else None) ∧
  v_connecting (view i) = false.

(** The statuses of an operation that has not failed. *)
Definition calm (s : OperationStatus) : Prop :=
  s = pending ∨ s = approved ∨ s = completed.

(** What holds of an instance whatever is done with it: the view mirrors
    the manager, no operation has failed, and the queue is empty while
    disconnected. *)
Definition steady (i : Instance) : Prop :=
  mirrors i ∧
  Forall (λ op, calm (status op)) (operations (manager i)) ∧
  (isConnected (manager i) = false → operations (manager i) = []).

End ComposableSpec.

(** ** Vocabulary for the connector service *)

Module ServerSpec.
Import Server.

(** The [authorization] header of a request, for the handlers that check
    it; [/connect] checks the token of its body instead. *)
Definition request_auth (req : Request) : option (option string) :=
  match req with
  | PostConnect _ => None
  | GetState auth | PostOperations auth _ | PostOperationsBatch auth _ | PostOtp auth _
  | PostApprove auth _ | PostApproveAll auth | PostExecute auth
  | DeleteOperations auth _ | DeleteOperationsAll auth => Some auth
  end.

(** An operation as the [/execute] handler leaves it with result [r]. *)
Definition settled (r : OperationResult) (op : PendingOperation) : PendingOperation :=
  with_status (if decide (exitCode r = Exit 0) then completed else failed)
              (with_result (Some r) op).

(** The types [executeOperation] has a case for. *)
Definition handled_types : list string :=
  ["org:add-user"; "org:rm-user"; "team:create"; "team:destroy"; "team:add-user";
   "team:rm-user"; "access:grant"; "access:revoke"; "owner:add"; "owner:rm"].

(** The answer of the [default] case of [executeOperation]. *)
Definition unknown_type (t : string) : OperationResult :=
  mkResult "" ("Unknown operation type: " +:+ t) (Exit 1) None None.

(** An approved [org:set-role] operation in the queue of the connector. *)
Definition role_change : PendingOperation :=
  mkOp "a1" "org:set-role" {["org" := "@acme"; "user" := "alice"; "role" := "admin"]}
       "" "npm org set @acme alice admin" approved 0 None None.

(** A connector with the token [s3cret] that holds [role_change]. *)
Definition queued : ConnectorState :=
  mkState (mkSession "s3cret" 0 None) [role_change] None.

(** A connector whose [npm whoami] prints a name followed by white space. *)
Definition logged_in : Env :=
  mkEnv (λ _, 7) (λ _, "a1") (λ _ _, Normal ("alice  ", "")).

End ServerSpec.

(** * Properties *)

(** ** JavaScript helpers *)

Module JsFacts.

Lemma truthy_Some s : Js.truthy (Some s) = true ↔ s ≠ "".
Proof. destruct s; simpl; split; congruence. Qed.

Lemma truthy_true o : Js.truthy o = true → ∃ s, o = Some s ∧ s ≠ "".
Proof. destruct o as [s|]; [|done]. intros H. exists s. by rewrite <-truthy_Some. Qed.

Lemma startsWith_app p s : Js.startsWith p (p +:+ s) = true.
Proof. induction p as [|a p IH]; simpl; [done|]. by rewrite decide_True. Qed.

Lemma startsWith_inv p s : Js.startsWith p s = true → ∃ r, s = p +:+ r.
Proof.
  revert s. induction p as [|a p IH]; intros s; simpl.
  - intros _. by exists s.
  - destruct s as [|b s]; [done|]. case_decide as Hab; [|done].
    intros [r ->]%IH. exists r. by subst.
Qed.

Lemma drop_app p s : Js.drop (String.length p) (p +:+ s) = s.
Proof. induction p; simpl; auto. Qed.

(** A string that does not contain the pattern is left alone. *)
Lemma replace_absent pat rep s :
  (∀ pre post, s ≠ pre +:+ pat +:+ post) → Js.replace pat rep s = s.
Proof.
  induction s as [|c s IH]; intros Hno.
  - simpl. destruct (Js.startsWith pat "") eqn:E; [|done].
    apply startsWith_inv in E as [r E]. by destruct (Hno "" r).
  - simpl. destruct (Js.startsWith pat (String c s)) eqn:E.
    + apply startsWith_inv in E as [r E]. by destruct (Hno "" r).
    + f_equal. apply IH. intros pre post ->. by apply (Hno (String c pre) post).
Qed.

(** A leading occurrence of the pattern is the one replaced. *)
Lemma replace_prefix pat rep s : Js.replace pat rep (pat +:+ s) = rep +:+ s.
Proof.
  destruct (pat +:+ s) eqn:E; simpl; rewrite <-E, startsWith_app, drop_app; done.
Qed.

End JsFacts.

(** ** The dependency sort *)

Section SortFacts.
Context {A : Type}.
Variable op_id : A → string.
Variable op_dependsOn : A → option string.

Local Abbreviation dependency := (dependency op_id op_dependsOn).
Local Abbreviation depends := (depends op_id op_dependsOn).
Local Abbreviation visit := (visit op_id op_dependsOn).
Local Abbreviation visit_all := (visit_all op_id op_dependsOn).
Local Abbreviation dep_chain := (dep_chain op_id op_dependsOn).
Local Abbreviation ordered := (ordered op_id op_dependsOn).
Local Abbreviation ids l := (list_to_set (op_id <$> l) : gset string).

Lemma dependency_Some operations op d :
  dependency operations op = Some d →
  d ∈ operations ∧ op_dependsOn op = Some (op_id d) ∧ op_id d ≠ "".
Proof.
  unfold dependency, find.
  destruct (Js.truthy (op_dependsOn op)) eqn:Ht; [|done].
  intros Hf. apply find_some in Hf as [Hin Hd].
  apply bool_decide_eq_true in Hd.
  split; [by apply list_elem_of_In|]. split; [done|].
  apply JsFacts.truthy_true in Ht as (s & Hs & Hne). congruence.
Qed.

Lemma visit_unfold fuel operations op visited result :
  visit (S fuel) operations op (visited, result) =
    if decide (op_id op ∈ visited) then Some (visited, result)
    else
      st' ← match dependency operations op with
            | Some dep => visit fuel operations dep ({[op_id op]} ∪ visited, result)
            | None => Some ({[op_id op]} ∪ visited, result)
            end;
      Some (st'.1, st'.2 ++ [op]).
Proof. reflexivity. Qed.

(** More fuel does not change a result. *)
Lemma visit_mono fuel fuel' operations op st st' :
  visit fuel operations op st = Some st' → (fuel ≤ fuel')%nat →
  visit fuel' operations op st = Some st'.
Proof.
  revert fuel' op st st'. induction fuel as [|fuel IH]; intros fuel' op [V R] st' Hv Hle; [done|].
  destruct fuel' as [|fuel']; [lia|].
  rewrite visit_unfold in *.
  case_decide; [done|].
  destruct (dependency operations op) as [dep|]; [|done].
  destruct (visit fuel operations dep _) as [st1|] eqn:E; [|done].
  erewrite IH; [done..|lia].
Qed.

(** What a call of [visit] does to [visited] and [result]. *)
Lemma visit_chain fuel operations op V R V' R' :
  visit fuel operations op (V, R) = Some (V', R') →
  (op_id op ∈ V ∧ V' = V ∧ R' = R) ∨
  (∃ l, dep_chain operations V op l ∧ R' = R ++ l ∧ V' = ids l ∪ V).
Proof.
  revert op V R V' R'. induction fuel as [|fuel IH]; intros op V R V' R' Hv; [done|].
  rewrite visit_unfold in Hv.
  case_decide as Hin; [left; naive_solver|]. right.
  destruct (dependency operations op) as [dep|] eqn:Hdep; simpl in Hv.
  - destruct (visit fuel operations dep _) as [[V1 R1]|] eqn:E; simplify_eq/=.
    apply IH in E as [(Hd & -> & ->)|(l & Hl & -> & ->)].
    + exists [op]. split_and!; [|done|set_solver].
      apply chain_last; [done|]. unfold depends. intros d Hd'. by simplify_eq.
    + exists (l ++ [op]). split_and!.
      * by eapply chain_cons.
      * by rewrite app_assoc.
      * rewrite fmap_app, list_to_set_app_L. set_solver.
  - simplify_eq/=. exists [op]. split_and!; [|done|set_solver].
    apply chain_last; [done|]. unfold depends. intros d Hd'. congruence.
Qed.


Lemma chain_last_elem operations V op l :
  dep_chain operations V op l → ∃ l', l = l' ++ [op].
Proof. destruct 1; [by exists []|by eexists]. Qed.

Lemma chain_fresh operations V op l x :
  dep_chain operations V op l → x ∈ l → op_id x ∉ V.
Proof.
  induction 1 as [V op Hop _|V op d l Hop Hd Hl IH]; intros Hx.
  - apply list_elem_of_singleton in Hx as ->. done.
  - apply elem_of_app in Hx as [Hx|Hx].
    + specialize (IH Hx). set_solver.
    + apply list_elem_of_singleton in Hx as ->. done.
Qed.

Lemma chain_NoDup operations V op l :
  dep_chain operations V op l → NoDup (op_id <$> l).
Proof.
  induction 1 as [V op Hop _|V op d l Hop Hd Hl IH]; simpl.
  - apply NoDup_singleton.
  - rewrite fmap_app. apply NoDup_app. split; [done|]. split; [|apply NoDup_singleton].
    intros i (x & -> & Hx)%list_elem_of_fmap Hi. simpl in Hi.
    apply list_elem_of_singleton in Hi.
    eapply chain_fresh in Hx; [|done]. set_solver.
Qed.

Lemma chain_elems operations V op l x :
  dep_chain operations V op l → x ∈ l → x = op ∨ x ∈ operations.
Proof.
  induction 1 as [V op Hop _|V op d l Hop Hd Hl IH]; intros Hx.
  - left. by apply list_elem_of_singleton in Hx.
  - apply elem_of_app in Hx as [Hx|Hx].
    + right. destruct (IH Hx) as [->|]; [|done]. by apply dependency_Some in Hd as (? & _).
    + left. by apply list_elem_of_singleton in Hx.
Qed.

(** Inside a chain every operation stands right after its dependency. *)
Lemma chain_adjacent operations V op l k y z :
  dep_chain operations V op l →
  l !! k = Some z → l !! S k = Some y → depends operations y z.
Proof.
  induction 1 as [V op Hop _|V op d l Hop Hd Hl IH]; intros Hz Hy.
  - by destruct k.
  - destruct (decide (S k < length l)%nat) as [Hlt|Hge].
    + rewrite lookup_app_l in Hz by lia. rewrite lookup_app_l in Hy by lia. auto.
    + assert (S k = length l) as Hk.
      { apply lookup_lt_Some in Hy. rewrite length_app in Hy. simpl in Hy. lia. }
      rewrite lookup_app_l in Hz by lia.
      rewrite Hk, list_lookup_middle in Hy by done. simplify_eq.
      destruct (chain_last_elem _ _ _ _ Hl) as [l' ->].
      rewrite length_app in Hk. simpl in Hk.
      assert (k = length l') as -> by lia.
      rewrite list_lookup_middle in Hz by done. by simplify_eq.
Qed.

(** The dependency of the first operation of a chain, if it has one, was
    visited before or is part of the chain. *)
Lemma chain_head operations V op l x d :
  dep_chain operations V op l →
  l !! 0%nat = Some x → depends operations x d → op_id d ∈ ids l ∪ V.
Proof.
  induction 1 as [V op Hop Hend|V op d' l Hop Hd Hl IH]; intros Hx Hdep.
  - simpl in Hx. simplify_eq. specialize (Hend _ Hdep). set_solver.
  - destruct (chain_last_elem _ _ _ _ Hl) as [l' ->].
    assert ((l' ++ [d']) !! 0%nat = Some x) as Hx'.
    { destruct l'; simpl in *; done. }
    specialize (IH Hx' Hdep). rewrite fmap_app, list_to_set_app_L. set_solver.
Qed.


Lemma size_ids_le (l : list A) : (size (ids l) ≤ length l)%nat.
Proof.
  induction l as [|x l IH].
  - rewrite fmap_nil, list_to_set_nil, size_empty. simpl. lia.
  - rewrite fmap_cons, list_to_set_cons, size_union_alt, size_singleton. simpl.
    assert (size (ids l ∖ {[op_id x]}) ≤ size (ids l))%nat; [|lia].
    apply subseteq_size. set_solver.
Qed.

(** [visit] returns as soon as its fuel exceeds the number of identifiers
    of the list that are not yet visited. *)
Lemma visit_total fuel operations op V R :
  op ∈ operations → (size (ids operations ∖ V) < fuel)%nat →
  is_Some (visit fuel operations op (V, R)).
Proof.
  revert op V. induction fuel as [|fuel IH]; intros op V Hop Hsz; [lia|].
  rewrite visit_unfold. case_decide as Hin; [done|].
  destruct (dependency operations op) as [dep|] eqn:Hdep; simpl; [|done].
  destruct (IH dep ({[op_id op]} ∪ V)) as [st' ->]; [| |done].
  - by apply dependency_Some in Hdep as (? & _).
  - assert (ids operations ∖ ({[op_id op]} ∪ V) ⊂ ids operations ∖ V) as Hsub%subset_size; [|lia].
    assert (op_id op ∈ ids operations).
    { apply elem_of_list_to_set, list_elem_of_fmap. eauto. }
    set_solver.
Qed.

Lemma visit_all_total fuel operations todo V R :
  (∀ x, x ∈ todo → x ∈ operations) → (length operations < fuel)%nat →
  is_Some (visit_all fuel operations todo (V, R)).
Proof.
  intros Hsub Hlen. revert V R. induction todo as [|op todo IH]; intros V R; simpl; [done|].
  destruct (visit_total fuel operations op V R) as [[V1 R1] ->]; simpl.
  - apply Hsub. left.
  - pose proof (size_ids_le operations).
    assert (size (ids operations ∖ V) ≤ size (ids operations))%nat; [|lia].
    apply subseteq_size. set_solver.
  - apply IH. intros x Hx. apply Hsub. by right.
Qed.

Lemma visit_all_mono fuel fuel' operations todo st st' :
  visit_all fuel operations todo st = Some st' → (fuel ≤ fuel')%nat →
  visit_all fuel' operations todo st = Some st'.
Proof.
  revert st. induction todo as [|op todo IH]; intros st Hv Hle; simpl in *; [done|].
  destruct (visit fuel operations op st) as [st1|] eqn:E; [|done]. simpl in Hv.
  erewrite visit_mono; [|done..]. simpl. auto.
Qed.


Lemma NoDup_ids_inj (l : list A) x y :
  NoDup (op_id <$> l) → x ∈ l → y ∈ l → op_id x = op_id y → x = y.
Proof.
  intros Hnd [i Hi]%list_elem_of_lookup [j Hj]%list_elem_of_lookup Heq.
  assert (i = j) as ->; [|congruence].
  eapply NoDup_lookup; [done| |]; rewrite list_lookup_fmap.
  - by rewrite Hi.
  - rewrite Hj. simpl. by rewrite Heq.
Qed.

Lemma elem_of_ids (l : list A) i : i ∈ ids l ↔ ∃ x, x ∈ l ∧ op_id x = i.
Proof. rewrite elem_of_list_to_set, list_elem_of_fmap. naive_solver. Qed.

(** Along a chain, a later operation reaches every earlier one. *)
Lemma chain_reach operations V op l i k x y :
  dep_chain operations V op l → (i < k)%nat →
  l !! i = Some x → l !! k = Some y → tc (depends operations) y x.
Proof.
  intros Hl. revert y. induction k as [|k IH]; intros y Hik Hx Hy; [lia|].
  destruct (l !! k) as [z|] eqn:Hz.
  2:{ apply lookup_ge_None in Hz. apply lookup_lt_Some in Hy. lia. }
  pose proof (chain_adjacent _ _ _ _ _ _ _ Hl Hz Hy) as Hyz.
  destruct (decide (i = k)) as [->|Hne].
  - simplify_eq. by apply tc_once.
  - eapply tc_l; [done|]. apply IH; [lia|done..].
Qed.

(** One iteration of the loop of [sortByDependencies], started with
    [visited] holding exactly the identifiers of [result]. *)
Lemma visit_step fuel operations op R V' R' :
  visit fuel operations op (ids R, R) = Some (V', R') →
  op ∈ operations → NoDup (op_id <$> R) → (∀ x, x ∈ R → x ∈ operations) →
  V' = ids R' ∧ NoDup (op_id <$> R') ∧ (∀ x, x ∈ R' → x ∈ operations) ∧ op_id op ∈ V' ∧
  ∃ l, R' = R ++ l ∧ (l = [] ∨ dep_chain operations (ids R) op l).
Proof.
  intros Hv Hop Hnd Hsub.
  apply visit_chain in Hv as [(Hin & -> & ->)|(l & Hl & -> & ->)].
  - split_and!; [done..|]. exists []. rewrite app_nil_r. auto.
  - split_and!.
    + rewrite fmap_app, list_to_set_app_L. set_solver.
    + rewrite fmap_app. apply NoDup_app. split_and!; [done| |by eapply chain_NoDup].
      intros i Hi (x & -> & Hx)%list_elem_of_fmap.
      eapply chain_fresh in Hx; [|done]. apply Hx, elem_of_list_to_set, Hi.
    + intros x [Hx|Hx]%elem_of_app; [auto|].
      eapply chain_elems in Hx as [->|]; done.
    + destruct (chain_last_elem _ _ _ _ Hl) as [l' ->].
      rewrite fmap_app, list_to_set_app_L. set_solver.
    + eauto.
Qed.


Lemma before_app_l (R l : list A) d x : before R d x → before (R ++ l) d x.
Proof.
  intros (j & i & Hji & Hj & Hi). exists j, i. split_and!; [done|..];
    by apply lookup_app_l_Some.
Qed.

Lemma visit_step_ordered fuel operations op R V' R' :
  visit fuel operations op (ids R, R) = Some (V', R') →
  op ∈ operations → NoDup (op_id <$> R) → (∀ x, x ∈ R → x ∈ operations) →
  NoDup (op_id <$> operations) → acyclic op_id op_dependsOn operations →
  ordered operations R → ordered operations R'.
Proof.
  intros Hv Hop Hnd Hsub Huniq Hacyc Hord.
  destruct (visit_step _ _ _ _ _ _ Hv Hop Hnd Hsub) as (_ & _ & Hsub' & _ & l & -> & Hl).
  destruct Hl as [->|Hl]; [by rewrite app_nil_r|].
  intros x d [Hx|Hx]%elem_of_app Hdep; [by apply before_app_l, Hord|].
  apply list_elem_of_lookup in Hx as [i Hi].
  assert (x ∈ operations) as Hxo.
  { apply Hsub', elem_of_app. right. by eapply list_elem_of_lookup_2. }
  assert (d ∈ operations) as Hdo by (by apply dependency_Some in Hdep as (? & _)).
  destruct i as [|k].
  - pose proof (chain_head _ _ _ _ _ _ Hl Hi Hdep) as [Hd|Hd]%elem_of_union.
    + apply elem_of_ids in Hd as (y & Hy & Hyd).
      exfalso. apply (Hacyc x Hxo).
      assert (y = d) as ->.
      { eapply NoDup_ids_inj; [done| |done..].
        apply Hsub', elem_of_app. by right. }
      apply list_elem_of_lookup in Hy as [k Hk].
      destruct k as [|k].
      * simplify_eq. by apply tc_once.
      * eapply tc_l; [done|]. eapply chain_reach; [done| |done..]. lia.
    + apply elem_of_ids in Hd as (y & Hy & Hyd).
      assert (y = d) as ->.
      { apply (NoDup_ids_inj operations); [done|by apply Hsub|done..]. }
      apply list_elem_of_lookup in Hy as [j Hj].
      exists j, (length R + 0)%nat. split_and!.
      * apply lookup_lt_Some in Hj. lia.
      * by apply lookup_app_l_Some.
      * by rewrite lookup_app_r, Nat.add_comm, Nat.add_sub by lia.
  - destruct (l !! k) as [z|] eqn:Hz.
    2:{ apply lookup_ge_None in Hz. apply lookup_lt_Some in Hi. lia. }
    pose proof (chain_adjacent _ _ _ _ _ _ _ Hl Hz Hi) as Hxz.
    unfold depends in *. assert (z = d) as -> by congruence.
    exists (length R + k)%nat, (length R + S k)%nat. split_and!; [lia|..].
    + by rewrite lookup_app_r, Nat.add_comm, Nat.add_sub by lia.
    + by rewrite lookup_app_r, Nat.add_comm, Nat.add_sub by lia.
Qed.


Lemma visit_all_inv fuel operations todo R V' R' :
  visit_all fuel operations todo (ids R, R) = Some (V', R') →
  (∀ x, x ∈ todo → x ∈ operations) →
  NoDup (op_id <$> R) → (∀ x, x ∈ R → x ∈ operations) →
  V' = ids R' ∧ NoDup (op_id <$> R') ∧ (∀ x, x ∈ R' → x ∈ operations) ∧
  (∀ x, x ∈ todo → op_id x ∈ V') ∧ ids R ⊆ V'.
Proof.
  revert R. induction todo as [|op todo IH]; intros R Hv Htodo Hnd Hsub; simpl in Hv.
  - simplify_eq. split_and!; [done..|set_solver|done].
  - destruct (visit fuel operations op (ids R, R)) as [[V1 R1]|] eqn:E; [|done]. simpl in Hv.
    destruct (visit_step _ _ _ _ _ _ E) as (-> & Hnd1 & Hsub1 & Hop & l & -> & _);
      [set_solver|done..|].
    destruct (IH _ Hv) as (-> & Hnd' & Hsub' & Hcov & Hmono); [set_solver|done..|].
    split_and!; [done..| |].
    + intros x [->|Hx]%elem_of_cons; [set_solver|auto].
    + rewrite fmap_app, list_to_set_app_L in Hmono. set_solver.
Qed.

Lemma visit_all_ordered fuel operations todo R V' R' :
  visit_all fuel operations todo (ids R, R) = Some (V', R') →
  (∀ x, x ∈ todo → x ∈ operations) →
  NoDup (op_id <$> R) → (∀ x, x ∈ R → x ∈ operations) →
  NoDup (op_id <$> operations) → acyclic op_id op_dependsOn operations →
  ordered operations R → ordered operations R'.
Proof.
  revert R. induction todo as [|op todo IH]; intros R Hv Htodo Hnd Hsub Huniq Hacyc Hord;
    simpl in Hv.
  - by simplify_eq.
  - destruct (visit fuel operations op (ids R, R)) as [[V1 R1]|] eqn:E; [|done]. simpl in Hv.
    assert (op ∈ operations) as Hop by set_solver.
    pose proof (visit_step_ordered _ _ _ _ _ _ E Hop Hnd Hsub Huniq Hacyc Hord) as Hord1.
    destruct (visit_step _ _ _ _ _ _ E Hop Hnd Hsub) as (-> & Hnd1 & Hsub1 & _).
    eapply IH; [done|set_solver|done..].
Qed.

(** The sort returns, on every list. *)
Lemma sortByDependencies_total operations fuel :
  (length operations < fuel)%nat →
  sortByDependencies_fuel op_id op_dependsOn fuel operations
  = Some (sortByDependencies op_id op_dependsOn operations).
Proof.
  intros Hlen. unfold sortByDependencies, sortByDependencies_fuel.
  destruct (visit_all_total (S (length operations)) operations operations ∅ [])
    as [st Hst]; [done|lia|].
  rewrite Hst. simpl. erewrite visit_all_mono; [done..|lia].
Qed.

Lemma sortByDependencies_run operations :
  ∃ V, visit_all (S (length operations)) operations operations (ids [], [])
       = Some (V, sortByDependencies op_id op_dependsOn operations).
Proof.
  unfold sortByDependencies, sortByDependencies_fuel.
  destruct (visit_all_total (S (length operations)) operations operations ∅ [])
    as [[V R] Hst]; [done|lia|].
  exists V. rewrite fmap_nil, list_to_set_nil. by rewrite Hst.
Qed.

(** Whatever the list, the result holds operations of the list, no
    identifier twice, and every identifier of the list. *)
Lemma sortByDependencies_ids operations :
  let sorted := sortByDependencies op_id op_dependsOn operations in
  NoDup (op_id <$> sorted) ∧ (∀ x, x ∈ sorted → x ∈ operations) ∧
  ids sorted = ids operations.
Proof.
  intros sorted. destruct (sortByDependencies_run operations) as [V Hrun].
  apply visit_all_inv in Hrun as (-> & Hnd & Hsub & Hcov & _);
    [|done|rewrite fmap_nil; apply NoDup_nil_2|by intros x ?%elem_of_nil].
  split_and!; [done..|].
  apply set_eq. intros i. rewrite !elem_of_ids. split.
  - intros (x & Hx & <-). eauto.
  - intros (x & Hx & <-). apply elem_of_ids. by apply Hcov.
Qed.

Lemma sortByDependencies_perm operations :
  NoDup (op_id <$> operations) →
  sortByDependencies op_id op_dependsOn operations ≡ₚ operations.
Proof.
  intros Huniq. destruct (sortByDependencies_ids operations) as (Hnd & Hsub & Hids).
  apply NoDup_Permutation.
  - by apply (NoDup_fmap_1 op_id).
  - by apply (NoDup_fmap_1 op_id).
  - intros x. split; [auto|]. intros Hx.
    assert (op_id x ∈ ids operations) as Hi by (apply elem_of_ids; eauto).
    rewrite <-Hids in Hi. apply elem_of_ids in Hi as (y & Hy & Hyx).
    assert (y = x) as <-; [|done].
    apply (NoDup_ids_inj operations); [done|by apply Hsub|done..].
Qed.

Lemma depends_of_id operations op d :
  NoDup (op_id <$> operations) → d ∈ operations → op_id d ≠ "" →
  op_dependsOn op = Some (op_id d) → depends operations op d.
Proof.
  intros Huniq Hd Hne Hdep. unfold depends, dependency.
  rewrite Hdep. apply JsFacts.truthy_Some in Hne as ->.
  match goal with
  | |- context [find ?p operations] => destruct (find p operations) as [d'|] eqn:Hf
  end.
  - unfold find in Hf. apply find_some in Hf as [Hin Heq].
    apply bool_decide_eq_true in Heq. f_equal.
    eapply NoDup_ids_inj; [done|by apply list_elem_of_In|done|congruence].
  - unfold find in Hf. eapply find_none in Hf; [|by apply list_elem_of_In].
    by rewrite bool_decide_eq_false in Hf.
Qed.

Lemma sortByDependencies_ordered operations :
  NoDup (op_id <$> operations) → acyclic op_id op_dependsOn operations →
  ordered operations (sortByDependencies op_id op_dependsOn operations).
Proof.
  intros Huniq Hacyc. destruct (sortByDependencies_run operations) as [V Hrun].
  eapply visit_all_ordered in Hrun; [done|done| | |done..|].
  - rewrite fmap_nil; apply NoDup_nil_2.
  - by intros x ?%elem_of_nil.
  - by intros x d ?%elem_of_nil.
Qed.

Lemma ranked_acyclic rank operations :
  ranked op_id op_dependsOn rank operations = true → acyclic op_id op_dependsOn operations.
Proof.
  intros Hr. assert (∀ x y, tc (depends operations) x y → x ∈ operations →
                            (rank y < rank x)%nat ∧ y ∈ operations) as Htc.
  { assert (∀ x y, depends operations x y → x ∈ operations →
                   (rank y < rank x)%nat ∧ y ∈ operations) as Hstep.
    { intros x y Hxy Hx. unfold ranked in Hr. rewrite forallb_forall in Hr.
      specialize (Hr x (proj1 (list_elem_of_In _ _) Hx)).
      pose proof Hxy as (Hy & _)%dependency_Some.
      unfold depends in Hxy. rewrite Hxy in Hr.
      by apply bool_decide_eq_true in Hr. }
    induction 1 as [x y Hxy|x y z Hxy _ IH]; intros Hx; [by apply Hstep|].
    destruct (Hstep _ _ Hxy Hx) as [? Hy]. destruct (IH Hy). split; [lia|done]. }
  intros x Hx Hxx. apply Htc in Hxx as [? _]; [lia|done].
Qed.

(** C8. The dependency sort returns on every list of operations, cyclic or
    dangling [dependsOn] included (any fuel above the length of the list
    gives the same result). Its result holds only operations of the list, no
    identifier twice and every identifier of the list; when the identifiers
    of the list are distinct it is a permutation of the list: each
    operation exactly once. When moreover the identifiers are not empty and
    the dependency graph is acyclic, every operation stands after the
    operation of the list that its [dependsOn] names. *)
Theorem sortByDependencies_terminates_and_orders (operations : list A) :
  let sorted := sortByDependencies op_id op_dependsOn operations in
  (∀ fuel, (length operations < fuel)%nat →
           sortByDependencies_fuel op_id op_dependsOn fuel operations = Some sorted) ∧
  (NoDup (op_id <$> sorted) ∧ (∀ op, op ∈ sorted → op ∈ operations) ∧
   ∀ op, op ∈ operations → op_id op ∈ op_id <$> sorted) ∧
  (NoDup (op_id <$> operations) → sorted ≡ₚ operations) ∧
  (wf_ids op_id operations → acyclic op_id op_dependsOn operations →
   ∀ op d, op ∈ operations → d ∈ operations →
           op_dependsOn op = Some (op_id d) → before sorted d op).
Proof.
  intros sorted. split; [|split; [|split]].
  - intros fuel Hfuel. by apply sortByDependencies_total.
  - destruct (sortByDependencies_ids operations) as (Hnd & Hsub & Hids).
    split_and!; [done..|]. intros op Hop.
    apply (elem_of_list_to_set (C := gset string)). fold sorted in Hids. rewrite Hids.
    apply elem_of_ids. eauto.
  - apply sortByDependencies_perm.
  - intros [Huniq Hne] Hacyc op d Hop Hd Hdep.
    apply (sortByDependencies_ordered operations Huniq Hacyc).
    + pose proof (sortByDependencies_perm operations Huniq) as Hp.
      by rewrite Hp.
    + apply depends_of_id; [done..| |done].
      rewrite Forall_forall in Hne. by apply Hne.
Qed.

End SortFacts.

(** C8 at a chain of three operations listed against their dependencies:
    the sort returns each once, dependencies first. *)
Lemma sortByDependencies_witness :
  sortByDependencies id dependsOn [Samples.opC; Samples.opB; Samples.opA] ≡ₚ [Samples.opC; Samples.opB; Samples.opA] ∧
  before (sortByDependencies id dependsOn [Samples.opC; Samples.opB; Samples.opA]) Samples.opA Samples.opB ∧
  before (sortByDependencies id dependsOn [Samples.opC; Samples.opB; Samples.opA]) Samples.opB Samples.opC.
Proof.
  destruct (sortByDependencies_terminates_and_orders id dependsOn [Samples.opC; Samples.opB; Samples.opA])
    as (_ & _ & Hperm & Hord).
  assert (NoDup (id <$> [Samples.opC; Samples.opB; Samples.opA])) as Hnd.
  { apply (bool_decide_unpack (NoDup (id <$> [Samples.opC; Samples.opB; Samples.opA]))). reflexivity. }
  assert (wf_ids id [Samples.opC; Samples.opB; Samples.opA]) as Hwf.
  { split; [done|]. repeat constructor; done. }
  assert (acyclic id dependsOn [Samples.opC; Samples.opB; Samples.opA]) as Hac.
  { apply (ranked_acyclic id dependsOn (λ op, Z.to_nat (createdAt op))). reflexivity. }
  split; [by apply Hperm|].
  split; apply Hord; try done; set_solver.
Defined.

(** Two operations that depend on each other: the sort returns both. *)
Example sortByDependencies_cycle :
  sortByDependencies id dependsOn [Samples.opX; Samples.opY] = [Samples.opY; Samples.opX].
Proof. reflexivity. Qed.

(** C8, counterexample: of two operations that carry one identifier the
    sort returns the first only, so its result does not hold each
    operation of its input once. *)
Lemma sortByDependencies_drops_twin :
  ¬ MockSpec.sort_as_specified [Samples.twin1; Samples.twin2].
Proof.
  unfold MockSpec.sort_as_specified. intros H%Permutation_length.
  vm_compute in H. discriminate.
Qed.

(** ** The store and the execution engine *)

Module MockFacts.
Import Mock MockSpec QueueSpec EffectSpec.

(** The mirrored registry data is all that [applyOperationEffect] writes. *)
Lemma applyOperationEffect_frame op st :
  let st' := applyOperationEffect op st in
  operations st' = operations st ∧ config st' = config st ∧
  connected st' = connected st ∧ connectedAt st' = connectedAt st ∧
  operationIdCounter st' = operationIdCounter st.
Proof.
  unfold applyOperationEffect.
  repeat first [case_decide | case_match]; done.
Qed.

Lemma executeLoop_cons options i rest st acc jrn :
  executeLoop options (i :: rest) st acc jrn =
    match iteration options i st with
    | None => executeLoop options rest st acc jrn
    | Some p =>
        if halts p
        then mkRun (settled p) (mkExecuteResult (acc ++ [outcome p]) (Some true))
                   (jrn ++ [started p; settled p])
        else executeLoop options rest (left p) (acc ++ [outcome p])
                         (jrn ++ [started p; settled p])
    end.
Proof.
  unfold iteration. simpl.
  destruct (operations st !! i) as [op|]; [|done].
  destruct (dependencyMet st op); [|done].
  destruct (configuredResult options (id op)) as [c|]; simpl; [|done].
  by destruct (bool_decide _ && _).
Qed.

(** What a pass does to the store. *)
Lemma iteration_Some options i st p :
  iteration options i st = Some p →
  ∃ op, operations st !! i = Some op ∧ dependencyMet st op = true ∧
    operations (started p) = <[i := with_status running op]> (operations st) ∧
    operations (settled p) =
      <[i := with_status (outcome_status (outcome p)) (with_result (Some (outcome p)) op)]>
        (operations st) ∧
    operations (left p) = operations (settled p) ∧
    (halts p = true ↔ requiresOtp (outcome p) = Some true ∧ otpSupplied options = false) ∧
    (outcome p = defaultSuccess op ∨
     ∃ c, configuredResult options (id op) = Some c ∧ outcome p = fromConfigured c ∧
          left p = settled p).
Proof.
  unfold iteration. intros Hit.
  destruct (operations st !! i) as [op|] eqn:Hop; [|done].
  destruct (dependencyMet st op) eqn:Hdep; [|done].
  exists op. split; [done|]. split; [done|].
  assert (∀ f g, alter f i (alter g i (operations st)) = <[i := f (g op)]> (operations st)) as Halt.
  { intros f g. apply list_eq. intros j. destruct (decide (i = j)) as [<-|Hne].
    - rewrite list_lookup_alter_eq, list_lookup_alter_eq, Hop.
      by rewrite list_lookup_insert_eq by (by eapply lookup_lt_Some).
    - by rewrite !list_lookup_alter_ne, list_lookup_insert_ne by done. }
  assert (alter (with_status running) i (operations st) = <[i := with_status running op]> (operations st)) as Halt1.
  { apply list_eq. intros j. destruct (decide (i = j)) as [<-|Hne].
    - rewrite list_lookup_alter_eq, Hop.
      by rewrite list_lookup_insert_eq by (by eapply lookup_lt_Some).
    - by rewrite !list_lookup_alter_ne, list_lookup_insert_ne by done. }
  destruct (configuredResult options (id op)) as [c|] eqn:Hc; simplify_eq/=.
  - split_and!; [done|by rewrite Halt|done| |right; eauto].
    rewrite andb_true_iff, bool_decide_eq_true, negb_true_iff. done.
  - split_and!; [done|by rewrite Halt| | |by left].
    + rewrite Halt. rewrite list_lookup_insert_eq by (by eapply lookup_lt_Some).
      etrans; [apply applyOperationEffect_frame|]. simpl. by rewrite Halt.
    + split; [done|]. by intros [? _].
Qed.


(** The loop, as the passes it makes. *)
Lemma executeLoop_passes options refs st acc jrn :
  ∃ ps st' h,
    passes options refs st ps st' h ∧
    executeLoop options refs st acc jrn =
      mkRun st' (mkExecuteResult (acc ++ (outcome ∘ snd <$> ps))
                                 (if h then Some true else None))
            (jrn ++ entries ps).
Proof.
  revert st acc jrn. induction refs as [|i rest IH]; intros st acc jrn.
  - exists [], st, false. split; [constructor|]. simpl. by rewrite !app_nil_r.
  - rewrite executeLoop_cons. destruct (iteration options i st) as [p|] eqn:Hit.
    + destruct (halts p) eqn:Hh.
      * exists [(i, p)], (settled p), true. split; [by constructor|done].
      * destruct (IH (left p) (acc ++ [outcome p]) (jrn ++ [started p; settled p]))
          as (ps & st' & h & Hps & ->).
        exists ((i, p) :: ps), st', h. split; [by constructor|].
        unfold entries. simpl. by rewrite <-!app_assoc.
    + destruct (IH st acc jrn) as (ps & st' & h & Hps & ->).
      exists ps, st', h. split; [by constructor|done].
Qed.

(** ** Finding operations by identifier *)

Lemma findIndex_Some {X} (p : X → bool) l k :
  findIndex p l = Some k → ∃ x, l !! k = Some x ∧ p x = true ∧ find p l = Some x.
Proof.
  revert k. induction l as [|x l IH]; intros k Hk; simpl in *; [done|].
  destruct (p x) eqn:Hp.
  - simplify_eq. eauto.
  - destruct (findIndex p l) as [k'|]; simplify_eq/=. by apply IH.
Qed.

Lemma findIndex_None {X} (p : X → bool) l :
  findIndex p l = None → find p l = None.
Proof.
  induction l as [|x l IH]; simpl; [done|].
  destruct (p x); [done|]. destruct (findIndex p l); [done|]. auto.
Qed.

Lemma find_findIndex {X} (p : X → bool) l :
  find p l = findIndex p l ≫= (l !!.).
Proof.
  destruct (findIndex p l) as [k|] eqn:Hk; simpl.
  - apply findIndex_Some in Hk as (x & -> & _ & ->). done.
  - by apply findIndex_None.
Qed.

Lemma findIndex_fmap {X Y} (f : X → Y) (q : Y → bool) l :
  findIndex (q ∘ f) l = findIndex q (f <$> l).
Proof. induction l as [|x l IH]; simpl; [done|]. by rewrite IH. Qed.

Lemma find_ext' {X} (p q : X → bool) l : (∀ x, p x = q x) → find p l = find q l.
Proof. intros Hpq. induction l as [|x l IH]; simpl; [done|]. by rewrite Hpq, IH. Qed.

Lemma getOperation_alt i st :
  getOperation i st
  = findIndex (λ x, bool_decide (x = i)) (id <$> operations st) ≫= (operations st !!.).
Proof.
  unfold getOperation. rewrite find_findIndex. f_equal.
  by rewrite <-findIndex_fmap.
Qed.

Lemma dependency_getOperation st op X :
  dependsOn op = Some X → X ≠ "" →
  dependency id dependsOn (operations st) op = getOperation X st.
Proof.
  intros HX Hne. unfold dependency, getOperation. rewrite HX.
  apply JsFacts.truthy_Some in Hne as ->. apply find_ext'.
  intros d. unfold has_id. apply bool_decide_ext. naive_solver.
Qed.


(** ** Passes of the loop *)

Lemma adjacent_one {X} (R : X → X → Prop) x : adjacent R [x].
Proof. intros k a b Ha Hb. by destruct k. Qed.

Lemma adjacent_cons {X} (R : X → X → Prop) x y l :
  R x y → adjacent R (y :: l) → adjacent R (x :: y :: l).
Proof.
  intros Hxy Hl k a b Ha Hb. destruct k as [|k]; simpl in *.
  - by simplify_eq.
  - by eapply Hl.
Qed.

Lemma adjacent_tail {X} (R : X → X → Prop) x l : adjacent R (x :: l) → adjacent R l.
Proof. intros Hl k a b Ha Hb. by apply (Hl (S k)). Qed.

Lemma ref_status_Some st j s :
  ref_status st j = Some s ↔ ∃ op, operations st !! j = Some op ∧ status op = s.
Proof.
  unfold ref_status. destruct (operations st !! j) as [op|]; simpl; naive_solver.
Qed.

Lemma approved_refs_tail i rest st : approved_refs (i :: rest) st → approved_refs rest st.
Proof.
  intros [Hnd Hap]. split; [by apply NoDup_cons in Hnd as [_ ?]|].
  intros j Hj. apply Hap. by right.
Qed.

Lemma pass_other options i st p j :
  iteration options i st = Some p → j ≠ i →
  operations (started p) !! j = operations st !! j ∧
  operations (settled p) !! j = operations st !! j ∧
  operations (left p) !! j = operations st !! j.
Proof.
  intros (op & Hop & _ & H1 & H2 & H3 & _)%iteration_Some Hne.
  rewrite H3, H1, H2. by rewrite !list_lookup_insert_ne by done.
Qed.

Lemma pass_ids options i st p :
  iteration options i st = Some p →
  id <$> operations (started p) = id <$> operations st ∧
  id <$> operations (settled p) = id <$> operations st ∧
  id <$> operations (left p) = id <$> operations st.
Proof.
  intros (op & Hop & _ & H1 & H2 & H3 & _)%iteration_Some.
  rewrite H3, H1, H2, !list_fmap_insert. simpl.
  rewrite !list_insert_id; [done|by rewrite list_lookup_fmap, Hop..].
Qed.

Lemma approved_refs_next options i rest st p :
  approved_refs (i :: rest) st → iteration options i st = Some p →
  approved_refs rest (left p).
Proof.
  intros [Hnd Hap] Hit. apply NoDup_cons in Hnd as [Hi Hnd]. split; [done|].
  intros j Hj. unfold ref_status.
  destruct (pass_other _ _ _ _ j Hit) as (_ & _ & ->); [set_solver|].
  apply Hap. by right.
Qed.

(** A run leaves alone what it holds no reference to, and every
    identifier. *)
Lemma passes_frame options refs st ps st' h :
  passes options refs st ps st' h →
  id <$> operations st' = id <$> operations st ∧
  (∀ j, j ∉ refs → operations st' !! j = operations st !! j) ∧
  (∀ ip, ip ∈ ps → ip.1 ∈ refs).
Proof.
  induction 1 as [st|i rest st ps st' h Hit _ (IH1 & IH2 & IH3)|i rest st p Hit Hh
                 |i rest st p ps st' h Hit Hh _ (IH1 & IH2 & IH3)].
  - split_and!; [done..|]. by intros ip ?%elem_of_nil.
  - split_and!; [done| |].
    + intros j Hj. apply IH2. set_solver.
    + intros ip Hip. right. auto.
  - split_and!.
    + by apply pass_ids in Hit as (_ & ? & _).
    + intros j Hj. eapply pass_other in Hit as (_ & ? & _); [done|set_solver].
    + intros ip ->%list_elem_of_singleton. left.
  - split_and!.
    + rewrite IH1. by apply pass_ids in Hit as (_ & _ & ?).
    + intros j Hj. rewrite IH2 by set_solver.
      eapply pass_other in Hit as (_ & _ & ?); [done|set_solver].
    + intros ip [->|Hip]%elem_of_cons; [left|right; auto].
Qed.

(** A run touches approved operations only. *)
Lemma passes_not_approved options refs st ps st' h j op :
  passes options refs st ps st' h → approved_refs refs st →
  operations st !! j = Some op → status op ≠ approved →
  operations st' !! j = Some op.
Proof.
  intros Hps [_ Hap] Hop Hst.
  apply passes_frame in Hps as (_ & -> & _); [done|].
  intros Hj. apply Hap, ref_status_Some in Hj as (op' & ? & ?). congruence.
Qed.

(** Whatever holds across the two assignments of every pass holds between
    any two successive entries of the journal of a run. *)
Lemma passes_adjacent (Q : list PendingOperation → list PendingOperation → Prop)
    options refs st ps st' h :
  (∀ i s p op, iteration options i s = Some p → operations s !! i = Some op →
               status op = approved →
               Q (operations s) (operations (started p)) ∧
               Q (operations (started p)) (operations (settled p))) →
  passes options refs st ps st' h → approved_refs refs st →
  adjacent Q (operations st :: (operations <$> entries ps)) ∧
  last (operations st :: (operations <$> entries ps)) = Some (operations st').
Proof.
  intros HQ. induction 1 as [st|i rest st ps st' h Hit _ IH|i rest st p Hit Hh
                            |i rest st p ps st' h Hit Hh _ IH]; intros Hap.
  - split; [apply adjacent_one|done].
  - by apply IH, (approved_refs_tail i).
  - destruct Hap as [_ Hap].
    assert (ref_status st i = Some approved) as (op & Hop & Hst)%ref_status_Some
      by (apply Hap; left).
    destruct (HQ _ _ _ _ Hit Hop Hst). split; [|done].
    unfold entries. simpl. by repeat apply adjacent_cons; [..|apply adjacent_one].
  - pose proof (approved_refs_next _ _ _ _ _ Hap Hit) as Hap'.
    destruct (IH Hap') as [IHa IHl]. destruct Hap as [_ Hap].
    assert (ref_status st i = Some approved) as (op & Hop & Hst)%ref_status_Some
      by (apply Hap; left).
    destruct (HQ _ _ _ _ Hit Hop Hst).
    assert (operations (left p) = operations (settled p)) as Hleft.
    { by apply iteration_Some in Hit as (? & _ & _ & _ & _ & ? & _). }
    rewrite Hleft in IHa, IHl.
    unfold entries in *. simpl. split; [by repeat apply adjacent_cons|].
    by rewrite <-IHl.
Qed.


(** ** The references the engine works on *)

Lemma sortedRefs_approved st : approved_refs (sortedRefs st) st.
Proof.
  destruct (sortByDependencies_ids (ref_id st) (ref_dependsOn st) (approvedRefs st))
    as (Hnd & Hsub & _).
  split; [by apply (NoDup_fmap_1 (ref_id st))|].
  intros i Hi%Hsub. unfold approvedRefs in Hi.
  by apply list_elem_of_filter in Hi as [? _].
Qed.

Lemma executeOperations_passes options st :
  let run := executeOperations options st in
  ∃ ps h,
    passes options (sortedRefs st) st ps (final run) h ∧
    results (output run) = outcome ∘ snd <$> ps ∧
    otpRequired (output run) = (if h then Some true else None) ∧
    journal run = entries ps.
Proof.
  intros run. unfold run, executeOperations.
  destruct (executeLoop_passes options (sortedRefs st) st [] []) as (ps & st' & h & Hps & Heq).
  unfold sortedRefs in Heq. rewrite Heq. simpl. eauto 10.
Qed.

(** ** The lifecycle *)

Lemma steps_refl T ops : steps T ops ops.
Proof. split; [done|]. intros j op op' ??. left. congruence. Qed.

Lemma steps_mono (T T' : OperationStatus → OperationStatus → Prop) ops ops' :
  (∀ a b, T a b → T' a b) → steps T ops ops' → steps T' ops ops'.
Proof. intros Hsub [Hlen Hst]. split; [done|]. intros j op op' ??. edestruct Hst; eauto. Qed.

Lemma forward_lawful ops ops' : steps forward ops ops' → lawful ops ops'.
Proof. apply steps_mono. by constructor. Qed.

Lemma steps_insert T ops i op op' :
  ops !! i = Some op → T (status op) (status op') →
  steps T ops (<[i := op']> ops).
Proof.
  intros Hop Ht. split; [by rewrite length_insert|].
  intros j a b Ha Hb. destruct (decide (i = j)) as [<-|Hne].
  - rewrite list_lookup_insert_eq in Hb by (by eapply lookup_lt_Some).
    simplify_eq. by right.
  - rewrite list_lookup_insert_ne in Hb by done. left. congruence.
Qed.

Lemma outcome_status_cases r :
  (exitCode r = Exit 0 ∧ outcome_status r = completed) ∨
  (exitCode r ≠ Exit 0 ∧ outcome_status r = failed).
Proof. unfold outcome_status. case_decide; auto. Qed.

Lemma pass_forward options i s p op :
  iteration options i s = Some p → operations s !! i = Some op → status op = approved →
  steps forward (operations s) (operations (started p)) ∧
  steps forward (operations (started p)) (operations (settled p)).
Proof.
  intros (op' & Hop' & _ & H1 & H2 & _)%iteration_Some Hop Hst.
  assert (op' = op) as -> by congruence.
  rewrite H1, H2. split.
  - apply (steps_insert _ _ _ op); [done|]. simpl. rewrite Hst. constructor.
  - match goal with
    | |- steps _ _ (<[i := ?x]> _) =>
        rewrite <-(list_insert_insert_eq (operations s) i x (with_status running op))
    end.
    apply (steps_insert _ _ _ (with_status running op)).
    + by rewrite list_lookup_insert_eq by (by eapply lookup_lt_Some).
    + simpl. destruct (outcome_status_cases (outcome p)) as [[_ ->]|[_ ->]]; constructor.
Qed.

Lemma approveOperation_cases i st :
  (approveOperation i st = (None, st) ∧
   ∀ op, getOperation i st = Some op → status op ≠ pending) ∨
  (∃ k op, operations st !! k = Some op ∧ getOperation i st = Some op ∧
           status op = pending ∧
           approveOperation i st
           = (Some (with_status approved op),
              set_operations (<[k := with_status approved op]> (operations st)) st)).
Proof.
  unfold approveOperation, getOperation.
  destruct (findIndex (has_id i) (operations st)) as [k|] eqn:Hk.
  - apply findIndex_Some in Hk as (op & Hop & _ & Hf). rewrite Hop, Hf.
    case_decide as Hst.
    + left. split; [done|]. by intros ? [= <-].
    + right. exists k, op. split_and!; [done..| |done].
      by destruct (decide (status op = pending)).
  - left. split; [done|]. by rewrite (findIndex_None _ _ Hk).
Qed.

Lemma retryOperation_cases i st :
  (retryOperation i st = (None, st) ∧
   ∀ op, getOperation i st = Some op → status op ≠ failed) ∨
  (∃ k op, operations st !! k = Some op ∧ getOperation i st = Some op ∧
           status op = failed ∧
           retryOperation i st
           = (Some (with_result None (with_status approved op)),
              set_operations (<[k := with_result None (with_status approved op)]>
                                (operations st)) st)).
Proof.
  unfold retryOperation, getOperation.
  destruct (findIndex (has_id i) (operations st)) as [k|] eqn:Hk.
  - apply findIndex_Some in Hk as (op & Hop & _ & Hf). rewrite Hop, Hf.
    case_decide as Hst.
    + left. split; [done|]. by intros ? [= <-].
    + right. exists k, op. split_and!; [done..| |done].
      by destruct (decide (status op = failed)).
  - left. split; [done|]. by rewrite (findIndex_None _ _ Hk).
Qed.

(** [approveAll], operation by operation. *)
Lemma approveAll_loop_spec ops count :
  approveAll_loop ops count
  = ((count + length (filter (λ op, status op = pending) ops))%nat,
     (λ op, if decide (status op = pending) then with_status approved op else op) <$> ops).
Proof.
  revert count. induction ops as [|op ops IH]; intros count; simpl.
  - by rewrite Nat.add_0_r.
  - case_decide as Hst.
    + rewrite IH, filter_cons_True by done. simpl. do 2 f_equal. lia.
    + rewrite IH, filter_cons_False by done. done.
Qed.

Lemma approveAll_forward st : steps forward (operations st) (operations (approveAll st).2).
Proof.
  unfold approveAll. rewrite approveAll_loop_spec. simpl.
  split; [by rewrite length_fmap|].
  intros j op op' Hop Hop'. rewrite list_lookup_fmap, Hop in Hop'. simplify_eq/=.
  case_decide as Hst; [|by left]. right. rewrite Hst. constructor.
Qed.


Lemma adjacent_app {X} (R : X → X → Prop) x y l1 l2 :
  adjacent R (x :: l1) → last (x :: l1) = Some y → adjacent R (y :: l2) →
  adjacent R (x :: l1 ++ l2).
Proof.
  revert x. induction l1 as [|z l1 IH]; intros x H1 Hlast H2; simpl in *.
  - by simplify_eq.
  - apply adjacent_cons.
    + by apply (H1 0%nat).
    + apply IH; [by eapply adjacent_tail|done..].
Qed.

Lemma approveOperation_forward i st :
  steps forward (operations st) (operations (approveOperation i st).2).
Proof.
  destruct (approveOperation_cases i st) as [[-> _]|(k & op & Hop & _ & Hst & ->)]; simpl.
  - apply steps_refl.
  - apply (steps_insert _ _ _ op); [done|]. simpl. rewrite Hst. constructor.
Qed.

Lemma retryOperation_lawful i st :
  lawful (operations st) (operations (retryOperation i st).2).
Proof.
  destruct (retryOperation_cases i st) as [[-> _]|(k & op & Hop & _ & Hst & ->)]; simpl.
  - apply steps_refl.
  - apply (steps_insert _ _ _ op); [done|]. simpl. rewrite Hst. apply t_retry.
Qed.

Lemma executeOperations_journal (Q : list PendingOperation → list PendingOperation → Prop)
    options st :
  (∀ i s p op, iteration options i s = Some p → operations s !! i = Some op →
               status op = approved →
               Q (operations s) (operations (started p)) ∧
               Q (operations (started p)) (operations (settled p))) →
  let run := executeOperations options st in
  adjacent Q (operations st :: (operations <$> journal run)) ∧
  last (operations st :: (operations <$> journal run)) = Some (operations (final run)).
Proof.
  intros HQ run. destruct (executeOperations_passes options st) as (ps & h & Hps & _ & _ & Hj).
  fold run in Hps, Hj. rewrite Hj.
  eapply passes_adjacent; [done..|apply sortedRefs_approved].
Qed.

Lemma adjacent_mono {X} (R R' : X → X → Prop) l :
  (∀ x y, R x y → R' x y) → adjacent R l → adjacent R' l.
Proof. intros Hsub Hl k x y ??. eauto. Qed.

Lemma call_forward c st :
  is_retry c = false → adjacent (steps forward) (operations st :: call_journal c st).
Proof.
  destruct c as [i| |i|options]; simpl; intros Hc; [| |done|].
  - apply adjacent_cons; [apply approveOperation_forward|apply adjacent_one].
  - apply adjacent_cons; [apply approveAll_forward|apply adjacent_one].
  - apply executeOperations_journal. intros. by eapply pass_forward.
Qed.

Lemma call_lawful c st :
  adjacent lawful (operations st :: call_journal c st) ∧
  last (operations st :: call_journal c st) = Some (operations (call_final c st)).
Proof.
  split.
  - destruct (is_retry c) eqn:Hc.
    + destruct c; try done. simpl.
      apply adjacent_cons; [apply retryOperation_lawful|apply adjacent_one].
    + eapply adjacent_mono; [apply forward_lawful|by apply call_forward].
  - destruct c as [i| |i|options]; simpl; [done..|].
    apply (executeOperations_journal (λ _ _, True)). done.
Qed.

Lemma history_lawful calls st : adjacent lawful (operations st :: history calls st).
Proof.
  revert st. induction calls as [|c calls IH]; intros st; simpl.
  - apply adjacent_one.
  - destruct (call_lawful c st) as [Ha Hl]. by eapply adjacent_app.
Qed.

Lemma approveAll_other st j op :
  operations st !! j = Some op → status op ≠ pending →
  operations (approveAll st).2 !! j = Some op.
Proof.
  intros Hop Hst. unfold approveAll. rewrite approveAll_loop_spec. simpl.
  rewrite list_lookup_fmap, Hop. simpl. by rewrite decide_False.
Qed.

Lemma executeOperations_other options st j op :
  operations st !! j = Some op → status op ≠ approved →
  operations (final (executeOperations options st)) !! j = Some op.
Proof.
  intros Hop Hst.
  destruct (executeOperations_passes options st) as (ps & h & Hps & _).
  eapply passes_not_approved; [done|apply sortedRefs_approved|done..].
Qed.

(** C2. Over any sequence of approve, approveAll, retry and execute calls,
    from any state of the store, each assignment leaves every operation as
    it was or moves it along one edge of pending → approved → running →
    completed | failed, failed → approved, and only retry takes the edge
    failed → approved. A call that finds an operation
    in another status than the one it starts from does nothing to it:
    [approveOperation] and [retryOperation] return null and leave the state
    as it was; [approveAll] and [executeOperations] leave the operation
    as it was. *)
Theorem status_follows_lifecycle (st : MockConnectorStateData) (calls : list Call) :
  adjacent lawful (operations st :: history calls st) ∧
  (∀ c, is_retry c = false → adjacent (steps forward) (operations st :: call_journal c st)) ∧
  (∀ i, (∀ op, getOperation i st = Some op → status op ≠ pending) →
        approveOperation i st = (None, st)) ∧
  (∀ i, (∀ op, getOperation i st = Some op → status op ≠ failed) →
        retryOperation i st = (None, st)) ∧
  (∀ j op, operations st !! j = Some op → status op ≠ pending →
           operations (approveAll st).2 !! j = Some op) ∧
  (∀ options j op, operations st !! j = Some op → status op ≠ approved →
                   operations (final (executeOperations options st)) !! j = Some op).
Proof.
  split; [apply history_lawful|]. split_and!.
  - intros c Hc. by apply call_forward.
  - intros i Hno.
    destruct (approveOperation_cases i st) as [[-> _]|(k & op & _ & Hget & Hst & _)]; [done|].
    by destruct (Hno op Hget).
  - intros i Hno.
    destruct (retryOperation_cases i st) as [[-> _]|(k & op & _ & Hget & Hst & _)]; [done|].
    by destruct (Hno op Hget).
  - apply approveAll_other.
  - intros. by apply executeOperations_other.
Qed.




(** A run that returns early stopped at its last pass; a run that does
    not made no halting pass. *)
Lemma passes_halt_shape options refs st ps st' h :
  passes options refs st ps st' h →
  if h then
    ∃ pre i post ps0 p s,
      refs = pre ++ i :: post ∧ ps = ps0 ++ [(i, p)] ∧
      iteration options i s = Some p ∧ halts p = true ∧ st' = settled p ∧
      (∀ ip, ip ∈ ps0 → halts ip.2 = false) ∧
      (∀ j, j ∉ pre → operations s !! j = operations st !! j) ∧
      (∀ j, j ∉ pre → j ≠ i → operations st' !! j = operations st !! j)
  else ∀ ip, ip ∈ ps → halts ip.2 = false.
Proof.
  induction 1 as [st|i rest st ps st' h Hit Hps IH|i rest st p Hit Hh
                 |i rest st p ps st' h Hit Hh Hps IH].
  - by intros ip ?%elem_of_nil.
  - destruct h; [|done].
    destruct IH as (pre & i' & post & ps0 & p & s & -> & -> & Hit' & Hh & -> & Hps0 & Hs & Hst).
    exists (i :: pre), i', post, ps0, p, s. split_and!; [done..| |].
    + intros j Hj. apply Hs. set_solver.
    + intros j Hj. apply Hst. set_solver.
  - exists [], i, rest, [], p, st. split_and!; [done..| | |].
    + by intros ip ?%elem_of_nil.
    + done.
    + intros j _ Hj. by eapply pass_other in Hit as (_ & ? & _).
  - destruct h.
    + destruct IH as (pre & i' & post & ps0 & p' & s & -> & -> & Hit' & Hh' & -> & Hps0 & Hs & Hst).
      exists (i :: pre), i', post, ((i, p) :: ps0), p', s. split_and!; [done..| | |].
      * intros ip [->|Hip]%elem_of_cons; [done|auto].
      * intros j Hj. rewrite Hs by set_solver.
        eapply pass_other in Hit as (_ & _ & ?); [done|set_solver].
      * intros j Hj Hji. rewrite Hst by set_solver.
        eapply pass_other in Hit as (_ & _ & ?); [done|set_solver].
    + intros ip [->|Hip]%elem_of_cons; [done|auto].
Qed.


Lemma pass_halts_iff options i st p :
  iteration options i st = Some p → otpSupplied options = false →
  halts p = true ↔ requiresOtp (outcome p) = Some true.
Proof.
  intros (op & _ & _ & _ & _ & _ & Hh & _)%iteration_Some Hotp. rewrite Hh. naive_solver.
Qed.


(** ** Dependencies *)

Lemma find_index X ops dep :
  find (has_id X) ops = Some dep ↔
  ∃ k, findIndex (λ x, bool_decide (x = X)) (id <$> ops) = Some k ∧ ops !! k = Some dep.
Proof.
  rewrite find_findIndex. unfold has_id.
  change (λ op, bool_decide (id op = X)) with ((λ x, bool_decide (x = X)) ∘ id).
  rewrite findIndex_fmap.
  destruct (findIndex _ (id <$> ops)) as [k|]; simpl; naive_solver.
Qed.

(** An operation found by its identifier is found again in a store with
    the same identifiers that still holds it at its place. *)
Lemma find_stable X ops ops' dep :
  find (has_id X) ops = Some dep → id <$> ops' = id <$> ops →
  (∀ k, ops !! k = Some dep → ops' !! k = Some dep) →
  find (has_id X) ops' = Some dep.
Proof.
  intros (k & Hk & Hdep)%find_index Hids Hsame. apply find_index.
  exists k. rewrite Hids. auto.
Qed.

Lemma dependencyMet_true st op X :
  dependencyMet st op = true → dependsOn op = Some X → X ≠ "" →
  ∃ dep, getOperation X st = Some dep ∧ status dep = completed.
Proof.
  unfold dependencyMet. intros Hmet HX Hne.
  rewrite (dependency_getOperation st op X HX Hne) in Hmet.
  rewrite HX in Hmet. apply JsFacts.truthy_Some in Hne. rewrite Hne in Hmet.
  destruct (getOperation X st) as [dep|]; [|done].
  apply bool_decide_eq_true in Hmet. eauto.
Qed.

Lemma pass_gated options i s p op :
  iteration options i s = Some p → operations s !! i = Some op → status op = approved →
  gated (operations s) (operations (started p)) ∧
  gated (operations (started p)) (operations (settled p)).
Proof.
  intros Hit Hop Hst.
  pose proof Hit as (op' & Hop' & Hmet & H1 & H2 & _)%iteration_Some.
  assert (op' = op) as -> by congruence.
  split; intros j o X Ho Hrun Hnot HX Hne.
  - destruct (decide (j = i)) as [->|Hji].
    + rewrite H1, list_lookup_insert_eq in Ho by (by eapply lookup_lt_Some).
      simplify_eq. simpl in HX.
      destruct (dependencyMet_true _ _ _ Hmet HX Hne) as (dep & Hdep & Hc).
      exists dep. split_and!; [done| |done].
      eapply find_stable; [done|by apply pass_ids in Hit as (? & _)|].
      intros k Hk. rewrite H1, list_lookup_insert_ne; [done|].
      intros ->. congruence.
    + rewrite H1, list_lookup_insert_ne in Ho by done. rewrite Ho in Hnot.
      simpl in Hnot. congruence.
  - destruct (decide (j = i)) as [->|Hji].
    + rewrite H2, list_lookup_insert_eq in Ho by (by eapply lookup_lt_Some).
      simplify_eq. simpl in Hrun.
      by destruct (outcome_status_cases (outcome p)) as [[_ Hs]|[_ Hs]]; rewrite Hs in Hrun.
    + rewrite H2, list_lookup_insert_ne in Ho by done.
      rewrite H1, list_lookup_insert_ne, Ho in Hnot by done. simpl in Hnot. congruence.
Qed.

(** An operation whose dependency is not completed when the run is over
    was skipped by the run. *)
Lemma passes_skipped options refs st ps st' h :
  passes options refs st ps st' h → approved_refs refs st →
  ∀ j op X, operations st !! j = Some op → dependsOn op = Some X → X ≠ "" →
            (∀ dep, getOperation X st' = Some dep → status dep ≠ completed) →
            operations st' !! j = Some op.
Proof.
  induction 1 as [st|i rest st ps st' h Hit Hps IH|i rest st p Hit Hh
                 |i rest st p ps st' h Hit Hh Hps IH]; intros Hap j op X Hop HX Hne Hno.
  - done.
  - eapply IH; [by eapply approved_refs_tail|done..].
  - destruct (decide (j = i)) as [->|Hji].
    2:{ by eapply pass_other in Hit as (_ & -> & _). }
    exfalso.
    assert (ref_status st i = Some approved) as (opi & Hopi & Hsti)%ref_status_Some
      by (apply Hap; left).
    pose proof Hit as (op' & Hop' & Hmet & _ & H2 & _)%iteration_Some.
    assert (op' = op) as -> by congruence. assert (opi = op) as -> by congruence.
    destruct (dependencyMet_true _ _ _ Hmet HX Hne) as (dep & Hdep & Hc).
    apply (Hno dep); [|done]. unfold getOperation in *.
    eapply find_stable; [done|by apply pass_ids in Hit as (_ & ? & _)|].
    intros k Hk. rewrite H2, list_lookup_insert_ne; [done|]. intros ->. congruence.
  - pose proof (approved_refs_next _ _ _ _ _ Hap Hit) as Hap'.
    destruct (decide (j = i)) as [->|Hji].
    2:{ eapply IH; [done| |done..]. by eapply pass_other in Hit as (_ & _ & ->). }
    exfalso.
    assert (ref_status st i = Some approved) as (opi & Hopi & Hsti)%ref_status_Some
      by (apply Hap; left).
    pose proof Hit as (op' & Hop' & Hmet & _ & H2 & H3 & _)%iteration_Some.
    assert (op' = op) as -> by congruence. assert (opi = op) as -> by congruence.
    destruct (dependencyMet_true _ _ _ Hmet HX Hne) as (dep & Hdep & Hc).
    apply (Hno dep); [|done]. unfold getOperation in *.
    pose proof (passes_frame _ _ _ _ _ _ Hps) as (Hids & _).
    eapply find_stable; [done| |].
    + rewrite Hids. by apply pass_ids in Hit as (_ & _ & ?).
    + intros k Hk. eapply passes_not_approved; [done..| |congruence].
      rewrite H3, H2, list_lookup_insert_ne; [done|]. intros ->. congruence.
Qed.


Lemma gated_no_run ops ops' :
  (∀ j op', ops' !! j = Some op' → status op' = running →
            status <$> ops !! j = Some running) →
  gated ops ops'.
Proof. intros Hno j op X Hop Hrun Hnot. by destruct Hnot; eapply Hno. Qed.

Lemma steps_gated T ops ops' :
  (∀ a, ¬ T a running) → steps T ops ops' → gated ops ops'.
Proof.
  intros HT [Hlen Hst]. apply gated_no_run. intros j op' Hop' Hrun.
  destruct (ops !! j) as [op|] eqn:Hop.
  - destruct (Hst _ _ _ Hop Hop') as [->|Ht]; [by simpl; f_equal|].
    rewrite Hrun in Ht. by destruct (HT _ Ht).
  - apply lookup_ge_None in Hop. apply lookup_lt_Some in Hop'. lia.
Qed.

Lemma approveOperation_steps i st :
  steps (λ a b, a = pending ∧ b = approved) (operations st)
        (operations (approveOperation i st).2).
Proof.
  destruct (approveOperation_cases i st) as [[-> _]|(k & op & Hop & _ & Hst & ->)]; simpl.
  - apply steps_refl.
  - by apply (steps_insert _ _ _ op).
Qed.

Lemma retryOperation_steps i st :
  steps (λ a b, a = failed ∧ b = approved) (operations st)
        (operations (retryOperation i st).2).
Proof.
  destruct (retryOperation_cases i st) as [[-> _]|(k & op & Hop & _ & Hst & ->)]; simpl.
  - apply steps_refl.
  - by apply (steps_insert _ _ _ op).
Qed.

Lemma approveAll_steps st :
  steps (λ a b, a = pending ∧ b = approved) (operations st) (operations (approveAll st).2).
Proof.
  unfold approveAll. rewrite approveAll_loop_spec. simpl.
  split; [by rewrite length_fmap|].
  intros j op op' Hop Hop'. rewrite list_lookup_fmap, Hop in Hop'. simplify_eq/=.
  case_decide as Hst; [|by left]. by right.
Qed.

Lemma call_gated c st : adjacent gated (operations st :: call_journal c st).
Proof.
  destruct c as [i| |i|options]; simpl.
  - apply adjacent_cons; [|apply adjacent_one].
    eapply steps_gated; [|apply approveOperation_steps]. by intros a [_ ?].
  - apply adjacent_cons; [|apply adjacent_one].
    eapply steps_gated; [|apply approveAll_steps]. by intros a [_ ?].
  - apply adjacent_cons; [|apply adjacent_one].
    eapply steps_gated; [|apply retryOperation_steps]. by intros a [_ ?].
  - apply executeOperations_journal. intros. by eapply pass_gated.
Qed.

Lemma history_adjacent (Q : list PendingOperation → list PendingOperation → Prop) :
  (∀ c st, adjacent Q (operations st :: call_journal c st)) →
  ∀ calls st, adjacent Q (operations st :: history calls st).
Proof.
  intros HQ calls. induction calls as [|c calls IH]; intros st; simpl.
  - apply adjacent_one.
  - destruct (call_lawful c st) as [_ Hl]. by eapply adjacent_app.
Qed.

Lemma executeOperations_skipped options st j op X :
  operations st !! j = Some op → dependsOn op = Some X → X ≠ "" →
  let run := executeOperations options st in
  (∀ dep, getOperation X (final run) = Some dep → status dep ≠ completed) →
  operations (final run) !! j = Some op.
Proof.
  intros Hop HX Hne run Hno.
  destruct (executeOperations_passes options st) as (ps & h & Hps & _).
  eapply passes_skipped; [done|apply sortedRefs_approved|done..].
Qed.

(** C3, as the code has it. Over any sequence of calls, an operation whose
    [dependsOn] is a non-empty identifier [X] becomes running only at a
    moment when the operation found under [X] exists and is completed. In
    an [executeOperations] call at whose end [X] is missing or not
    completed, the operation was skipped: it is as it was before the call
    (approved, if it was). That is so, in particular, when at the time of
    the call [X] is missing, or is neither completed nor approved. *)
Theorem dependency_gates_running (st : MockConnectorStateData) (calls : list Call) :
  adjacent gated (operations st :: history calls st) ∧
  (∀ options j op X,
     operations st !! j = Some op → dependsOn op = Some X → X ≠ "" →
     let run := executeOperations options st in
     (∀ dep, getOperation X (final run) = Some dep → status dep ≠ completed) →
     operations (final run) !! j = Some op) ∧
  (∀ options j op X,
     operations st !! j = Some op → dependsOn op = Some X → X ≠ "" →
     (∀ dep, getOperation X st = Some dep →
             status dep ≠ completed ∧ status dep ≠ approved) →
     operations (final (executeOperations options st)) !! j = Some op).
Proof.
  split; [apply history_adjacent, call_gated|]. split.
  - intros options j op X. apply executeOperations_skipped.
  - intros options j op X Hop HX Hne Hno.
    apply (executeOperations_skipped options st j op X Hop HX Hne).
    intros dep' (k & Hk & Hdep')%find_index.
    destruct (executeOperations_passes options st) as (ps & h & Hps & _).
    pose proof (passes_frame _ _ _ _ _ _ Hps) as (Hids & _).
    rewrite Hids in Hk.
    destruct (operations st !! k) as [dep|] eqn:Hdep.
    2:{ apply lookup_ge_None in Hdep. apply lookup_lt_Some in Hdep'.
        apply (f_equal length) in Hids. rewrite !length_fmap in Hids. lia. }
    destruct (Hno dep) as [Hc Ha]; [apply find_index; eauto|].
    rewrite (executeOperations_other options st k dep Hdep Ha) in Hdep'. congruence.
Qed.

(** The engine leaves the configuration, the connection and the counter
    of identifiers alone. *)
Lemma pass_frame options i st p :
  iteration options i st = Some p →
  (config (settled p) = config st ∧ connected (settled p) = connected st ∧
   connectedAt (settled p) = connectedAt st ∧
   operationIdCounter (settled p) = operationIdCounter st) ∧
  (config (left p) = config st ∧ connected (left p) = connected st ∧
   connectedAt (left p) = connectedAt st ∧
   operationIdCounter (left p) = operationIdCounter st).
Proof.
  unfold iteration. intros Hit.
  destruct (operations st !! i) as [op|]; [|done].
  destruct (dependencyMet st op); [|done].
  destruct (configuredResult options (id op)); simplify_eq/=; [done|].
  split; [done|].
  match goal with |- context [match ?o with Some _ => _ | None => _ end] =>
    destruct o as [op'|]; [|done]
  end.
  match goal with |- context [applyOperationEffect op' ?s] =>
    destruct (applyOperationEffect_frame op' s) as (_ & -> & -> & -> & ->)
  end.
  done.
Qed.

Lemma executeOperations_frame options st :
  let st' := final (executeOperations options st) in
  config st' = config st ∧ connected st' = connected st ∧
  connectedAt st' = connectedAt st ∧ operationIdCounter st' = operationIdCounter st.
Proof.
  intros st'. destruct (executeOperations_passes options st) as (ps & h & Hps & _).
  fold st' in Hps. revert Hps. generalize (sortedRefs st). intros refs Hps.
  induction Hps as [st|i rest st ps st' h Hit _ IH|i rest st p Hit Hh
                   |i rest st p ps st' h Hit Hh _ (IH1 & IH2 & IH3 & IH4)]; [done..| |].
  - by apply pass_frame in Hit as [? _].
  - rewrite IH1, IH2, IH3, IH4. by apply pass_frame in Hit as [_ ?].
Qed.

(** ** Stopping for a one-time password *)

Lemma iteration_outcome options i st p op :
  iteration options i st = Some p → operations st !! i = Some op →
  outcome p = expected options op.
Proof.
  unfold iteration, expected. intros Hit Hop. rewrite Hop in Hit.
  destruct (dependencyMet st op); [|done].
  destruct (configuredResult options (id op)); by simplify_eq.
Qed.

Lemma iteration_runs options i st op :
  operations st !! i = Some op → dependencyMet st op = true →
  ∃ p, iteration options i st = Some p.
Proof.
  intros Hop Hdep. unfold iteration. rewrite Hop, Hdep.
  destruct (configuredResult options (id op)); eauto.
Qed.







(** ** The identifiers of a reachable store *)

Lemma issued_sublist n ids ids' : issued n ids → ids' `sublist_of` ids → issued n ids'.
Proof.
  intros [Hnd Hk] Hsub. split; [by eapply sublist_NoDup|].
  intros i Hi. apply Hk. by eapply elem_of_sublist.
Qed.

Lemma issued_next n ids : issued n ids → issued (S n) (ids ++ ["op-" +:+ pretty (S n)]).
Proof.
  intros [Hnd Hk]. split.
  - apply NoDup_app. split_and!; [done| |apply NoDup_singleton].
    intros i Hi ->%list_elem_of_singleton.
    destruct (Hk _ Hi) as (k & Hle & Heq).
    apply (inj (String.app "op-")) in Heq. apply (inj pretty) in Heq. lia.
  - intros i [Hi| ->%list_elem_of_singleton]%elem_of_app.
    + destruct (Hk _ Hi) as (k & Hle & Heq). exists k. split; [lia|done].
    + exists (S n). split; [lia|done].
Qed.

Lemma addOperation_issued now input st :
  issued (operationIdCounter st) (id <$> operations st) →
  let st' := (addOperation now input st).2 in
  issued (operationIdCounter st') (id <$> operations st').
Proof. intros H. simpl. rewrite fmap_app. simpl. by apply issued_next. Qed.

Lemma addOperations_issued now inputs st :
  issued (operationIdCounter st) (id <$> operations st) →
  let st' := (addOperations now inputs st).2 in
  issued (operationIdCounter st') (id <$> operations st').
Proof.
  revert st. induction inputs as [|i inputs IH]; intros st H; [done|].
  simpl. destruct (addOperations now inputs _) as [ops st2] eqn:E. simpl.
  pose proof (IH _ (addOperation_issued now i st H)) as IH'.
  simpl in IH'. by rewrite E in IH'.
Qed.

Lemma call_final_ids c st :
  id <$> operations (call_final c st) = id <$> operations st ∧
  operationIdCounter (call_final c st) = operationIdCounter st.
Proof.
  destruct c as [i| |i|options]; simpl.
  - destruct (approveOperation_cases i st) as [[-> _]|(k & op & Hop & _ & _ & ->)]; [done|].
    simpl. split; [|done]. rewrite list_fmap_insert. simpl.
    by rewrite list_insert_id by (by rewrite list_lookup_fmap, Hop).
  - unfold approveAll. rewrite approveAll_loop_spec. simpl. split; [|done].
    rewrite <-list_fmap_compose. apply list_fmap_ext. intros j op _. simpl.
    by case_decide.
  - destruct (retryOperation_cases i st) as [[-> _]|(k & op & Hop & _ & _ & ->)]; [done|].
    simpl. split; [|done]. rewrite list_fmap_insert. simpl.
    by rewrite list_insert_id by (by rewrite list_lookup_fmap, Hop).
  - destruct (executeOperations_passes options st) as (ps & h & Hps & _).
    apply passes_frame in Hps as (Hids & _). split; [done|].
    by destruct (executeOperations_frame options st) as (_ & _ & _ & ?).
Qed.

(** Every call of the manager keeps the identifiers of the store among
    the ones issued. *)
Lemma perform_numbered c st : numbered st → numbered (perform c st).
Proof.
  unfold numbered. intros IH.
  destruct c as [now tok| |now input|now inputs|i| |c|]; simpl.
  - unfold connect. by case_decide.
  - split; [apply NoDup_nil_2|]. by intros i ?%elem_of_nil.
  - by apply addOperation_issued.
  - by apply addOperations_issued.
  - unfold removeOperation. destruct (findIndex _ _) as [k|]; [|done].
    assert (issued (operationIdCounter st) (id <$> delete k (operations st))) as Hdel.
    { eapply issued_sublist; [done|]. rewrite list_fmap_delete. apply sublist_delete. }
    destruct (operations st !! k) as [op|]; [|done]. by case_decide.
  - eapply issued_sublist; [done|]. simpl. apply fmap_sublist, sublist_filter.
  - by destruct (call_final_ids c st) as [-> ->].
  - split; [apply NoDup_nil_2|]. by intros i ?%elem_of_nil.
Qed.

(** The identifiers of a reachable store are the ones [addOperation]
    issued: distinct, and none of them empty. *)
Lemma reachable_issued st :
  reachable st → issued (operationIdCounter st) (id <$> operations st).
Proof.
  induction 1 as [cfg|c st _ IH].
  - split; [apply NoDup_nil_2|]. by intros i ?%elem_of_nil.
  - by apply perform_numbered.
Qed.

Lemma plainly_numbered setters st : plainly_reachable setters st → numbered st.
Proof.
  induction 1 as [cfg|s st _ IH _ _].
  - split; [apply NoDup_nil_2|]. by intros i ?%elem_of_nil.
  - destruct s as [c| | | |]; [by apply perform_numbered|done..].
Qed.

Lemma numbered_wf_ids st : numbered st → wf_ids id (operations st).
Proof.
  intros [Hnd Hk]. split; [done|].
  apply Forall_forall. intros op Hop.
  destruct (Hk (id op)) as (k & _ & ->); [by apply list_elem_of_fmap_2|]. done.
Qed.

(** So the list that [executeOperations] hands to the sort has distinct,
    non-empty identifiers, and the sort returns each of its references
    once. *)
Lemma numbered_approvedRefs st : numbered st → wf_ids (ref_id st) (approvedRefs st).
Proof.
  intros [Hnd Hne]%numbered_wf_ids. unfold approvedRefs.
  assert (∀ i, i ∈ filter (λ i, ref_status st i = Some approved)
                         (seq 0 (length (operations st))) →
               ∃ op, operations st !! i = Some op ∧ ref_id st i = id op) as Hin.
  { intros i [Hst _]%list_elem_of_filter. unfold ref_status, ref_id in *.
    destruct (operations st !! i) as [op|]; [eauto|done]. }
  split.
  - apply NoDup_fmap_2_strong; [|apply NoDup_filter, NoDup_seq].
    intros i j Hi Hj Heq.
    destruct (Hin i Hi) as (opi & Hopi & Hidi), (Hin j Hj) as (opj & Hopj & Hidj).
    eapply NoDup_lookup; [exact Hnd| |]; rewrite list_lookup_fmap.
    + by rewrite Hopi.
    + rewrite Hopj. simpl. congruence.
  - apply Forall_forall. intros i Hi. destruct (Hin i Hi) as (op & Hop & ->).
    rewrite Forall_forall in Hne. apply Hne. by eapply list_elem_of_lookup_2.
Qed.

Lemma numbered_sorted_permutation st : numbered st → sortedRefs st ≡ₚ approvedRefs st.
Proof.
  intros [Hnd _]%numbered_approvedRefs.
  by apply sortByDependencies_perm.
Qed.

Lemma reachable_wf_ids st : reachable st → wf_ids id (operations st).
Proof. intros H. by apply numbered_wf_ids, reachable_issued. Qed.

Lemma reachable_approvedRefs st : reachable st → wf_ids (ref_id st) (approvedRefs st).
Proof. intros H. by apply numbered_approvedRefs, reachable_issued. Qed.

Lemma reachable_sorted_permutation st : reachable st → sortedRefs st ≡ₚ approvedRefs st.
Proof. intros H. by apply numbered_sorted_permutation, reachable_issued. Qed.

(** ** The theorems at sample states *)

Import Samples.

Lemma plainly_called setters c st :
  plainly_reachable setters st → plain_step (Calling c) st →
  plainly_reachable setters (perform c st).
Proof. intros H Hp. by apply (plainly_stepped setters (Calling c)). Qed.

Lemma plain_sample st : bool_decide (plain_queue st) = true → plain_queue st.
Proof. apply bool_decide_eq_true. Qed.

Lemma plainly_fresh setters : plainly_reachable setters fresh.
Proof. apply plainly_created. Qed.

Lemma plainly_one_approved setters : plainly_reachable setters one_approved.
Proof.
  apply (plainly_called _ (Assigning ApproveAll)); [|done].
  apply (plainly_called _ (Add 1 (addUser "bob" None))); [|done]. apply plainly_fresh.
Qed.


(** C2 at a state where [op-1] is pending and [op-2] approved: approving
    [op-2] again and retrying [op-1] both return null and change nothing. *)
Lemma status_follows_lifecycle_witness :
  approveOperation "op-2" second_approved = (None, second_approved) ∧
  retryOperation "op-1" second_approved = (None, second_approved).
Proof.
  destruct (status_follows_lifecycle second_approved []) as (_ & _ & Ha & Hr & _).
  split; [apply Ha|apply Hr]; intros op Hop; vm_compute in Hop; by simplify_eq.
Defined.



(** C3, counterexample: the only operation of the store is approved and
    its [dependsOn] is the empty string, an identifier no operation has.
    The call runs it. *)
Lemma empty_dependency_runs : ¬ dependency_gate_as_specified empty_dependency None.
Proof.
  intros H.
  edestruct (H 0%nat) as [Hfin _]; [reflexivity|reflexivity|reflexivity|reflexivity|].
  vm_compute in Hfin. done.
Qed.

(** C3 at a state where [op-2] depends on [op-1], which is still pending:
    the call leaves [op-2] as it was. *)
Lemma dependency_gates_running_witness :
  operations (final (executeOperations None second_approved)) !! 1%nat
  = operations second_approved !! 1%nat.
Proof.
  destruct (dependency_gates_running second_approved []) as (_ & Hskip & _).
  etrans; [|symmetry; reflexivity].
  apply (Hskip None 1%nat _ "op-1"); [reflexivity|reflexivity|done|].
  intros dep Hdep. vm_compute in Hdep. by simplify_eq.
Defined.

End MockFacts.

(** ** The connector service *)

Module ServerFacts.
Import Server.

Lemma foldl_alter_lookup (f : PendingOperation → PendingOperation)
    (refs : list nat) (ops : list PendingOperation) (j : nat) :
  NoDup refs →
  foldl (λ acc i, alter f i acc) ops refs !! j
  = if decide (j ∈ refs) then f <$> ops !! j else ops !! j.
Proof.
  revert ops. induction refs as [|i refs IH]; intros ops Hnd; simpl; [done|].
  apply NoDup_cons in Hnd as [Hi Hnd]. rewrite IH by done.
  destruct (decide (j = i)) as [->|Hne].
  - rewrite decide_False by done. rewrite decide_True by left.
    by rewrite list_lookup_alter_eq.
  - rewrite list_lookup_alter_ne by done.
    destruct (decide (j ∈ refs)).
    + by rewrite decide_True by (by right).
    + by rewrite decide_False by set_solver.
Qed.

Lemma refsWithStatus_spec s ops j :
  j ∈ refsWithStatus s ops ↔ ∃ op, ops !! j = Some op ∧ status op = s.
Proof.
  unfold refsWithStatus. rewrite list_elem_of_filter, elem_of_seq. split.
  - intros [Hst _]. destruct (ops !! j) as [op|]; simplify_eq/=. eauto.
  - intros (op & Hop & <-). rewrite Hop. split; [done|].
    apply lookup_lt_Some in Hop. lia.
Qed.

Lemma refsWithStatus_NoDup s ops : NoDup (refsWithStatus s ops).
Proof. apply NoDup_filter, NoDup_seq. Qed.

Lemma filter_ext_in {X} (P Q : X → Prop) `{!∀ x, Decision (P x), !∀ x, Decision (Q x)}
    (l : list X) :
  (∀ x, x ∈ l → P x ↔ Q x) → filter P l = filter Q l.
Proof.
  induction l as [|x l IH]; intros Hext; [done|].
  rewrite !filter_cons. rewrite IH by (intros y Hy; apply Hext; by right).
  destruct (decide (P x)) as [HP|HP].
  - by rewrite decide_True by (by apply Hext; [left|]).
  - rewrite decide_False; [done|]. intros HQ. apply HP, Hext; [left|done].
Qed.

Lemma refsWithStatus_length s ops :
  length (refsWithStatus s ops) = length (filter (λ op, status op = s) ops).
Proof.
  unfold refsWithStatus.
  induction ops as [|op ops IH] using rev_ind; [done|].
  rewrite length_app. simpl length. rewrite Nat.add_1_r, seq_S, !filter_app, !length_app.
  rewrite <-IH. f_equal.
  - f_equal. apply filter_ext_in. intros i Hi%elem_of_seq.
    by rewrite lookup_app_l by lia.
  - simpl. rewrite !filter_cons, !filter_nil. rewrite list_lookup_middle by done. simpl.
    destruct (decide (status op = s)) as [Hs|Hs].
    + rewrite decide_True by (by f_equal). done.
    + rewrite decide_False by congruence. done.
Qed.

Lemma length_foldl_alter (f : PendingOperation → PendingOperation)
    (refs : list nat) (ops : list PendingOperation) :
  length (foldl (λ acc i, alter f i acc) ops refs) = length ops.
Proof.
  revert ops. induction refs as [|i refs IH]; intros ops; simpl; [done|].
  by rewrite IH, length_alter.
Qed.

Lemma approveRefs_spec ops :
  approves_pending ops (approveRefs (refsWithStatus pending ops) ops)
                   (length (refsWithStatus pending ops)).
Proof.
  split_and!.
  - apply refsWithStatus_length.
  - apply length_foldl_alter.
  - intros j op Hop. unfold approveRefs.
    rewrite foldl_alter_lookup by apply refsWithStatus_NoDup. rewrite Hop.
    destruct (decide (status op = pending)) as [Hs|Hs].
    + rewrite decide_True; [done|]. apply refsWithStatus_spec. eauto.
    + rewrite decide_False; [done|]. intros (op' & ? & ?)%refsWithStatus_spec. congruence.
Qed.

Lemma approveAll_spec st :
  approves_pending (Mock.operations st) (Mock.operations (Mock.approveAll st).2)
                   (Mock.approveAll st).1.
Proof.
  unfold Mock.approveAll. rewrite MockFacts.approveAll_loop_spec. simpl. split_and!.
  - done.
  - by rewrite length_fmap.
  - intros j op Hop. by rewrite list_lookup_fmap, Hop.
Qed.

(** C6. [approveAll] returns the number of operations that are pending
    when it is called, approves exactly those and leaves every other
    operation, and everything else in the state, as it was; so does the
    [/approve-all] handler of the connector for a request that passes the
    auth gate. *)
Theorem approveAll_exact (st : Mock.MockConnectorStateData) (expectedToken : string)
    (env : Env) (auth : option string) (cst : ConnectorState) :
  (approves_pending (Mock.operations st) (Mock.operations (Mock.approveAll st).2)
                    (Mock.approveAll st).1 ∧
   (Mock.approveAll st).2 = Mock.set_operations (Mock.operations (Mock.approveAll st).2) st) ∧
  (validateToken expectedToken auth = true →
   ∃ n ops', handle expectedToken env (PostApproveAll auth) cst
             = (Success (ApprovedData n), set_operations ops' cst) ∧
             approves_pending (operations cst) ops' n).
Proof.
  split.
  - split; [apply approveAll_spec|].
    unfold Mock.approveAll. by destruct (Mock.approveAll_loop _ _).
  - intros Hauth. simpl. rewrite Hauth. simpl.
    eexists _, _. split; [done|]. apply approveRefs_spec.
Qed.


(** C5. A [connect] with a token that is not the configured secret fails
    and changes nothing: the state manager returns false and the mock
    server and the connector answer 401, each with the state exactly as it
    was; a session that was not connected stays so, with no user. *)
Theorem connect_wrong_token_changes_nothing (now : Z) (tok : string)
    (st : Mock.MockConnectorStateData) (expectedToken : string) (env : Env)
    (body : option ConnectBody) (cst : ConnectorState) :
  tok ≠ Mock.token (Mock.config st) →
  body ≫= b_token ≠ Some expectedToken →
  (Mock.connect now tok st = (false, st) ∧
   MockServer.connect now (Some tok) st = (401%Z, st) ∧
   (Mock.isConnected st = false → Mock.isConnected (Mock.connect now tok st).2 = false)) ∧
  (handle expectedToken env (PostConnect body) cst = (Failure 401 "Invalid token", cst) ∧
   (npmUser (session cst) = None →
    npmUser (session (handle expectedToken env (PostConnect body) cst).2) = None)).
Proof.
  intros Htok Hbody. split.
  - assert (Mock.connect now tok st = (false, st)) as Hc.
    { unfold Mock.connect. by rewrite decide_True. }
    split_and!; [done| |by rewrite Hc].
    unfold MockServer.connect.
    assert (bool_decide (Some tok ≠ Some (Mock.token (Mock.config st))) = true) as ->.
    { apply bool_decide_eq_true. congruence. }
    by rewrite orb_true_r.
  - assert (handle expectedToken env (PostConnect body) cst
            = (Failure 401 "Invalid token", cst)) as Hh.
    { simpl. by rewrite decide_True. }
    split; [done|by rewrite Hh].
Qed.

Lemma executeRefs_frame env k refs cst acc :
  let cst' := (executeRefs env k refs cst acc).2 in
  otp cst' = otp cst ∧ session cst' = session cst.
Proof.
  revert k cst acc. induction refs as [|i refs IH]; intros k cst acc; simpl; [done|].
  destruct (operations cst !! i) as [op|]; [|apply IH].
  destruct (executeOperation _ _ _) as [r|e]; [|done].
  match goal with |- context [executeRefs env ?k' refs ?c ?a] =>
    destruct (IH k' c a) as [-> ->] end.
  done.
Qed.

Lemma handle_otp expectedToken env req cst :
  otp (handle expectedToken env req cst).2 ≠ otp cst →
  ∃ auth body, req = PostOtp auth body ∧ validateToken expectedToken auth = true.
Proof.
  destruct req; simpl; try (destruct (validateToken expectedToken auth) eqn:Hauth; simpl).
  all: try done.
  - case_decide; [done|]. by destruct (NpmClient.getNpmUser _).
  - eauto.
  - intros Hne. by repeat case_match.
  - intros Hne. destruct Hne. apply executeRefs_frame.
  - intros Hne. by repeat case_match.
Qed.


(** C9. The [/execute] handler leaves the OTP holder and the session as
    they were; of all requests only an authorised [POST /otp] changes the
    OTP holder. The engine of the state manager, which takes the OTP as an
    argument, leaves the configured token and the connection as they
    were. *)
Theorem execute_only_reads_otp (expectedToken : string) (env : Env) (cst : ConnectorState) :
  (∀ auth, let cst' := (handle expectedToken env (PostExecute auth) cst).2 in
           otp cst' = otp cst ∧ session cst' = session cst) ∧
  (∀ req, otp (handle expectedToken env req cst).2 ≠ otp cst →
          ∃ auth body, req = PostOtp auth body ∧ validateToken expectedToken auth = true) ∧
  (∀ options st, let st' := Mock.final (Mock.executeOperations options st) in
                 Mock.config st' = Mock.config st ∧
                 Mock.connected st' = Mock.connected st ∧
                 Mock.connectedAt st' = Mock.connectedAt st).
Proof.
  split_and!.
  - intros auth. simpl. destruct (validateToken expectedToken auth); simpl; [|done].
    apply executeRefs_frame.
  - intros req. apply handle_otp.
  - intros options st.
    by destruct (MockFacts.executeOperations_frame options st) as (? & ? & ? & _).
Qed.

(** C10. An authorised [POST /otp] whose body is absent or carries no
    [otp] sets the OTP holder to null, whatever it held. *)
Theorem otp_without_value_clears (expectedToken : string) (env : Env)
    (auth : option string) (body : option OtpBody) (cst : ConnectorState) :
  validateToken expectedToken auth = true →
  (body = None ∨ ∃ b, body = Some b ∧ b_otp b = None) →
  handle expectedToken env (PostOtp auth body) cst
  = (Success NoData, mkState (session cst) (operations cst) None).
Proof.
  intros Hauth Hbody. simpl. rewrite Hauth. simpl.
  by destruct Hbody as [->|(b & -> & Hb)]; simpl; rewrite ?Hb.
Qed.

(** ** The auth gate *)

Lemma validateToken_absent expectedToken : validateToken expectedToken None = false.
Proof. done. Qed.

(** A header of the form [Bearer <token>] passes exactly when the token is
    the secret. *)
Lemma validateToken_bearer expectedToken tok :
  validateToken expectedToken (Some ("Bearer " +:+ tok)) = true ↔ tok = expectedToken.
Proof.
  unfold validateToken. simpl default.
  change (Js.truthy (Some ("Bearer " +:+ tok))) with true. simpl negb.
  rewrite JsFacts.replace_prefix. by rewrite bool_decide_eq_true.
Qed.

(** A header passes exactly when it is not empty and is the secret once
    its first ["Bearer "], wherever it stands, is taken out. *)
Lemma validateToken_spec expectedToken h :
  validateToken expectedToken (Some h) = true ↔
  h ≠ "" ∧ Js.replace "Bearer " "" h = expectedToken.
Proof.
  unfold validateToken. simpl default.
  destruct (Js.truthy (Some h)) eqn:Ht; simpl.
  - rewrite bool_decide_eq_true. apply JsFacts.truthy_Some in Ht. naive_solver.
  - split; [done|]. intros [Hne _]. apply JsFacts.truthy_Some in Hne. congruence.
Qed.

(** C4, at the failing input: the header is the secret itself, without
    [Bearer]; or the secret with [Bearer] in its middle. [validateToken]
    lets both pass. [requireAuth] of the mock server, given the same
    headers by a connected client, answers 401. *)
Lemma validateToken_accepts_bare_token :
  let secret := "test-token-e2e-12345" in
  let connected :=
    (Mock.connect 1 secret (Mock.createMockConnectorState Samples.DEFAULT_MOCK_CONFIG)).2 in
  validateToken secret (Some secret) = true ∧
  validateToken secret (Some "test-tokenBearer -e2e-12345") = true ∧
  MockServer.requireAuth (Some secret) connected = Some "Authorization required" ∧
  MockServer.requireAuth (Some "test-tokenBearer -e2e-12345") connected
    = Some "Authorization required" ∧
  MockServer.requireAuth (Some ("Bearer " +:+ secret)) connected = None.
Proof. by vm_compute. Qed.

(** ** The theorems at sample states *)

(** C5 at a fresh state manager and a fresh connector, with the token
    ["wrong"]. *)
Lemma connect_wrong_token_witness :
  let secret := "test-token-e2e-12345" in
  Mock.connect 1 "wrong" Samples.fresh = (false, Samples.fresh) ∧
  handle secret Samples.quiet (PostConnect (Some (mkConnectBody (Some "wrong"))))
         (initialState secret)
  = (Failure 401 "Invalid token", initialState secret).
Proof.
  intros secret.
  destruct (connect_wrong_token_changes_nothing 1 "wrong" Samples.fresh secret Samples.quiet
              (Some (mkConnectBody (Some "wrong"))) (initialState secret))
    as [(H1 & _) (H2 & _)]; [done|done|].
  by split.
Defined.

(** C6 for the connector, with one pending and one approved operation in
    its queue. *)
Lemma approveAll_exact_witness :
  let secret := "test-token-e2e-12345" in
  let cst := mkState (mkSession secret 0 None) (Mock.operations Samples.second_approved) None in
  ∃ n ops', handle secret Samples.quiet (PostApproveAll (Some ("Bearer " +:+ secret))) cst
            = (Success (ApprovedData n), set_operations ops' cst) ∧
            approves_pending (operations cst) ops' n.
Proof.
  intros secret cst.
  destruct (approveAll_exact Samples.second_approved secret Samples.quiet
              (Some ("Bearer " +:+ secret)) cst) as [_ H].
  apply H. reflexivity.
Defined.

(** C9 for a [POST /otp] that passes the auth gate and sets an OTP. *)
Lemma execute_only_reads_otp_witness :
  let secret := "test-token-e2e-12345" in
  ∃ auth body,
    PostOtp (Some ("Bearer " +:+ secret)) (Some (mkOtpBody (Some "123456")))
    = PostOtp auth body ∧
    validateToken secret auth = true.
Proof.
  intros secret.
  destruct (execute_only_reads_otp secret Samples.quiet (initialState secret)) as (_ & H & _).
  apply H. simpl. discriminate.
Defined.

(** C10 for a connector that holds an OTP and a [POST /otp] without a
    body. *)
Lemma otp_without_value_clears_witness :
  let secret := "test-token-e2e-12345" in
  let cst := mkState (mkSession secret 0 None) [] (Some "123456") in
  handle secret Samples.quiet (PostOtp (Some ("Bearer " +:+ secret)) None) cst
  = (Success NoData, mkState (mkSession secret 0 None) [] None).
Proof.
  intros secret cst.
  apply (otp_without_value_clears secret Samples.quiet (Some ("Bearer " +:+ secret)) None cst).
  - reflexivity.
  - by left.
Defined.

End ServerFacts.

(** ** The command executor *)

Module NpmClientFacts.
Import NpmClient.

Lemma strip_prefix_Some p s r : Js.strip_prefix p s = Some r ↔ s = p ++ r.
Proof.
  revert s. induction p as [|a p IH]; intros s; simpl.
  - split; [by intros [= ->]|by intros ->].
  - destruct s as [|b s]; [done|]. case_decide as Hab.
    + subst b. rewrite IH. split; [by intros ->|by intros [= ->]].
    + split; [done|]. intros [= ? ?]. done.
Qed.

Lemma strip_one_Some ws s r :
  Js.strip_one ws s = Some r → ∃ w, w ∈ ws ∧ s = w ++ r.
Proof.
  induction ws as [|w ws IH]; simpl; [done|].
  destruct (Js.strip_prefix w s) as [r'|] eqn:Hw.
  - intros [= ->]. exists w. split; [left|]. by apply strip_prefix_Some.
  - intros (w' & ? & ?)%IH. exists w'. split; [by right|done].
Qed.

Lemma strip_one_None ws s :
  Js.strip_one ws s = None ↔ ∀ w, w ∈ ws → ¬ w `prefix_of` s.
Proof.
  induction ws as [|w ws IH]; simpl.
  - split; [|done]. by intros _ w ?%elem_of_nil.
  - destruct (Js.strip_prefix w s) as [r|] eqn:Hw.
    + split; [done|]. intros H. destruct (H w); [left|].
      exists r. by apply strip_prefix_Some.
    + rewrite IH. split.
      * intros H w' [->|Hin]%elem_of_cons; [|by apply H].
        intros [r Hr]. apply strip_prefix_Some in Hr. congruence.
      * intros H w' Hin. apply H. by right.
Qed.

Lemma strip_all_spec fuel ws s :
  (∀ w, w ∈ ws → w ≠ []) → (length s ≤ fuel)%nat →
  Js.strip_one ws (Js.strip_all fuel ws s) = None ∧
  Js.strip_all fuel ws s `suffix_of` s.
Proof.
  intros Hne. revert s. induction fuel as [|fuel IH]; intros s Hlen; simpl.
  - destruct s; [|simpl in Hlen; lia]. split; [|done].
    apply strip_one_None. intros w Hw [r Hr]. symmetry in Hr.
    apply app_eq_nil in Hr as [-> _]. by apply (Hne []).
  - destruct (Js.strip_one ws s) as [r|] eqn:Hs; [|done].
    apply strip_one_Some in Hs as (w & Hw & ->).
    destruct (IH r) as [Hnone Hsuf].
    { specialize (Hne w Hw). rewrite length_app in Hlen. destruct w; [done|]. simpl in Hlen. lia. }
    split; [done|]. etrans; [exact Hsuf|]. by apply suffix_app_r.
Qed.

Lemma white_space_nonempty w : w ∈ Js.white_space → w ≠ [].
Proof.
  intros Hw ->. revert Hw. unfold Js.white_space.
  rewrite list_elem_of_fmap. intros (b & Hb & Hin).
  destruct b; [|done]. clear Hb. set_solver.
Qed.

Lemma rev_white_space_nonempty w : w ∈ @rev ascii <$> Js.white_space → w ≠ [].
Proof.
  intros (w' & -> & Hw')%list_elem_of_fmap Hrev.
  apply (white_space_nonempty w' Hw').
  by rewrite <-(rev_involutive w'), Hrev.
Qed.

Lemma trim_trimmed s : trimmed (Js.trim s).
Proof.
  unfold trimmed, Js.trim, Js.trimEnd, Js.trimStart.
  rewrite !list_ascii_of_string_of_list_ascii.
  set (l := list_ascii_of_string s).
  destruct (strip_all_spec (length l) Js.white_space l white_space_nonempty) as [Hs _];
    [done|].
  set (t := Js.strip_all (length l) Js.white_space l) in *.
  destruct (strip_all_spec (length (rev t)) (@rev ascii <$> Js.white_space) (rev t)
              rev_white_space_nonempty) as [He [k Hk]]; [done|].
  set (u := Js.strip_all _ _ (rev t)) in *.
  rewrite rev_involutive. split; [|done].
  apply strip_one_None. intros w Hw [r Hr].
  apply (proj1 (strip_one_None _ _) Hs w Hw).
  exists (r ++ rev k). rewrite app_assoc, <-Hr, <-rev_app_distr, <-Hk. by rewrite rev_involutive.
Qed.

Lemma trimmed_empty : trimmed "".
Proof. done. Qed.



End NpmClientFacts.

(** ** The queue of the state manager *)

Module QueueFacts.
Import Mock MockSpec QueueSpec EffectSpec.

(** An operation is found under an id exactly when it is the element of
    the store with that id, provided ids are distinct. *)
Lemma find_has_id ops i op :
  NoDup (id <$> ops) → find (has_id i) ops = Some op ↔ op ∈ ops ∧ id op = i.
Proof.
  intros Hnd. unfold find. induction ops as [|x l IH]; simpl.
  - split; [done|]. by intros [?%elem_of_nil _].
  - apply NoDup_cons in Hnd as [Hx Hnd]. unfold has_id at 1.
    case_bool_decide as Hid.
    + split.
      * intros [= ->]. split; [left|done].
      * intros [[->|Hin]%elem_of_cons Hop]; [done|].
        exfalso. apply Hx. rewrite Hid, <-Hop. by apply list_elem_of_fmap_2.
    + rewrite (IH Hnd). split.
      * intros [? ?]. split; [by right|done].
      * intros [[->|Hin]%elem_of_cons Hop]; [done|by split].
Qed.

Lemma find_has_id_None ops i : find (has_id i) ops = None ↔ i ∉ id <$> ops.
Proof.
  unfold find. induction ops as [|x l IH]; simpl.
  - split; [intros _; apply not_elem_of_nil|done].
  - unfold has_id at 1. case_bool_decide as Hid.
    + split; [done|]. intros []. rewrite <-Hid. left.
    + rewrite IH, not_elem_of_cons. naive_solver.
Qed.

Lemma passes_at_rest options refs st ps st' h :
  passes options refs st ps st' h →
  (∀ j op, operations st !! j = Some op → at_rest (status op)) →
  ∀ j op, operations st' !! j = Some op → at_rest (status op).
Proof.
  assert (∀ i s p, iteration options i s = Some p →
            (∀ j op, operations s !! j = Some op → at_rest (status op)) →
            ∀ j op, operations (settled p) !! j = Some op → at_rest (status op)) as Hpass.
  { intros i s p (op0 & Hop0 & _ & _ & Hset & _)%MockFacts.iteration_Some Hall j op.
    rewrite Hset. intros [(-> & <- & _)|(_ & Hj)]%list_lookup_insert_Some; [|by eapply Hall].
    simpl. unfold at_rest, outcome_status. case_decide; tauto. }
  induction 1 as [st|i rest st ps st' h Hit _ IH|i rest st p Hit Hh
                 |i rest st p ps st' h Hit Hh _ IH]; intros Hall.
  - done.
  - by apply IH.
  - by eapply Hpass.
  - apply IH. intros j op.
    destruct (MockFacts.iteration_Some _ _ _ _ Hit) as (_ & _ & _ & _ & _ & -> & _).
    by eapply Hpass.
Qed.

Lemma addOperations_app now inputs st :
  let '(ops, st') := addOperations now inputs st in
  operations st' = operations st ++ ops ∧
  operationIdCounter st' = (operationIdCounter st + length inputs)%nat ∧
  Forall2 (made_from now) inputs ops ∧
  config st' = config st ∧ connected st' = connected st ∧
  connectedAt st' = connectedAt st ∧ orgs st' = orgs st ∧ packages st' = packages st ∧
  userPackages st' = userPackages st ∧ userOrgs st' = userOrgs st.
Proof.
  revert st. induction inputs as [|i rest IH]; intros st; simpl.
  - rewrite app_nil_r, Nat.add_0_r. by repeat split.
  - specialize (IH (addOperation now i st).2). simpl in IH.
    destruct (addOperations now rest _) as [ops st2].
    destruct IH as (Ho & Hc & Hf & -> & -> & -> & -> & -> & -> & ->). simpl.
    rewrite Ho, Hc, <-app_assoc. split_and!; try done.
    all: try (simpl; lia). all: try (constructor; [by repeat split|done]).
Qed.

Lemma reachable_at_rest st :
  reachable st → ∀ j op, operations st !! j = Some op → at_rest (status op).
Proof.
  induction 1 as [cfg|c st _ IH]; [done|].
  destruct c as [now tok| |now input|now inputs|i| |c|]; simpl; try done.
  - unfold connect. by case_decide.
  - intros j op [?|[_ Hop]]%lookup_app_Some; [by eapply IH|].
    apply list_lookup_singleton_Some in Hop as [_ <-]. by left.
  - pose proof (addOperations_app now inputs st) as Happ.
    destruct (addOperations now inputs st) as [ops st']. simpl.
    destruct Happ as (-> & _ & Hp & _).
    intros j op [?|[_ Hop]]%lookup_app_Some; [by eapply IH|].
    destruct (Forall2_lookup_r _ _ _ _ _ Hp Hop) as (input & _ & Hm).
    destruct Hm as (_ & _ & _ & _ & _ & _ & -> & _). by left.
  - unfold removeOperation. destruct (findIndex _ _) as [k|]; [|done].
    assert (∀ j op, delete k (operations st) !! j = Some op → at_rest (status op)) as Hdel.
    { intros j op Hop. apply list_elem_of_lookup_2 in Hop.
      eapply elem_of_submseteq in Hop; [|apply sublist_submseteq, sublist_delete].
      apply list_elem_of_lookup_1 in Hop as [j' Hop]. by eapply IH. }
    destruct (operations st !! k) as [op|]; [|done]. by case_decide.
  - intros j op Hop%list_elem_of_lookup_2. apply list_elem_of_filter in Hop as [_ Hop].
    apply list_elem_of_lookup_1 in Hop as [j' Hop]. by eapply IH.
  - destruct c as [i| |i|options]; simpl.
    + destruct (MockFacts.approveOperation_cases i st) as [[-> _]|(k & op & _ & _ & _ & ->)];
        [done|]. simpl.
      intros j op' [(-> & <- & _)|(_ & Hj)]%list_lookup_insert_Some; [|by eapply IH].
      right; by left.
    + unfold approveAll. rewrite MockFacts.approveAll_loop_spec. simpl.
      intros j op' Hop. rewrite list_lookup_fmap in Hop.
      destruct (operations st !! j) as [op|] eqn:Hj; [|done]. simplify_eq/=.
      case_decide; [right; by left|by eapply IH].
    + destruct (MockFacts.retryOperation_cases i st) as [[-> _]|(k & op & _ & _ & _ & ->)];
        [done|]. simpl.
      intros j op' [(-> & <- & _)|(_ & Hj)]%list_lookup_insert_Some; [|by eapply IH].
      right; by left.
    + destruct (MockFacts.executeOperations_passes options st) as (ps & h & Hp & _).
      by eapply passes_at_rest.
Qed.


Lemma option_ext {X} (a b : option X) : (∀ x, a = Some x ↔ b = Some x) → a = b.
Proof.
  intros H. destruct a as [x|], b as [y|]; try done.
  - by apply H.
  - by destruct (proj1 (H x) eq_refl).
  - by destruct (proj2 (H y) eq_refl).
Qed.

Lemma elem_of_delete_NoDup ops k (op x : PendingOperation) :
  NoDup (id <$> ops) → ops !! k = Some op →
  x ∈ delete k ops ↔ x ∈ ops ∧ id x ≠ id op.
Proof.
  intros Hnd Hk. rewrite delete_take_drop.
  pose proof (take_drop_middle _ _ _ Hk) as Heq. clear Hk. revert Hnd Heq.
  generalize (take k ops) (drop (S k) ops). intros a b Hnd <-.
  rewrite fmap_app, fmap_cons in Hnd.
  apply NoDup_app in Hnd as (_ & H1 & [H2 _]%NoDup_cons).
  rewrite !elem_of_app, elem_of_cons. split.
  - intros [Hx|Hx]; (split; [tauto|]); intros Heq.
    + eapply H1; [by apply list_elem_of_fmap_2|]. rewrite Heq. left.
    + apply H2. rewrite <-Heq. by apply list_elem_of_fmap_2.
  - intros [[?|[->|?]] ?]; tauto.
Qed.

Lemma removeOperation_cases i st :
  (removeOperation i st = (false, st) ∧
   ∀ op, getOperation i st = Some op → status op = running) ∨
  (∃ k op, operations st !! k = Some op ∧ getOperation i st = Some op ∧ id op = i ∧
           status op ≠ running ∧
           removeOperation i st = (true, set_operations (delete k (operations st)) st)).
Proof.
  unfold removeOperation, getOperation.
  destruct (findIndex _ _) as [k|] eqn:Hk.
  - apply MockFacts.findIndex_Some in Hk as (op & Hop & Hid & ->). rewrite Hop.
    case_decide.
    + left. split; [done|]. by intros ? [= <-].
    + right. exists k, op. split_and!; try done. unfold has_id in Hid.
      by apply bool_decide_eq_true in Hid.
  - apply MockFacts.findIndex_None in Hk as ->. by left.
Qed.

Lemma counter_mono c st :
  c ≠ Reset → (operationIdCounter st ≤ operationIdCounter (perform c st))%nat.
Proof.
  intros Hc. destruct c as [now tok| |now input|now inputs|i| |c|]; simpl; try done.
  - unfold connect. by case_decide.
  - lia.
  - pose proof (addOperations_app now inputs st) as Happ.
    destruct (addOperations now inputs st) as [ops st']. simpl.
    destruct Happ as (_ & -> & _). lia.
  - by destruct (removeOperation_cases i st) as [[-> _]|(k & op & _ & _ & _ & _ & ->)].
  - by destruct (MockFacts.call_final_ids c st) as [_ ->].
Qed.

Lemma halt_configured options refs st ps st' :
  passes options refs st ps st' true →
  otpSupplied options = false ∧
  ∃ i c, i ∈ id <$> operations st ∧ configuredResult options i = Some c ∧
         p_requiresOtp c = Some true.
Proof.
  intros Hp. pose proof (MockFacts.passes_frame _ _ _ _ _ _ Hp) as (Hids & _).
  apply MockFacts.passes_halt_shape in Hp
    as (pre & i & post & ps0 & p & s & _ & _ & Hit & Hh & -> & _).
  pose proof (MockFacts.pass_ids _ _ _ _ Hit) as (_ & Hids' & _).
  apply MockFacts.iteration_Some in Hit as (op & Hop & _ & _ & _ & _ & Hiff & Hout).
  apply Hiff in Hh as [Hr Hs]. split; [done|].
  destruct Hout as [Hd|(c & Hc & Hout & _)].
  - by rewrite Hd in Hr.
  - exists (id op), c. split_and!; [|done|by rewrite Hout in Hr].
    rewrite <-Hids, Hids'. apply list_elem_of_fmap_2. by eapply list_elem_of_lookup_2.
Qed.


Lemma passes_attempted options refs st ps st' h :
  passes options refs st ps st' h → h = false → approved_refs refs st →
  ∀ i op, i ∈ refs → operations st !! i = Some op → Js.truthy (dependsOn op) = false →
  ∃ p, (i, p) ∈ ps ∧
       operations st' !! i = Some (settled_with (outcome p) op) ∧
       outcome p = expected options op.
Proof.
  induction 1 as [st|i0 rest st ps st' h Hit _ IH|i0 rest st p Hit Hhalt
                 |i0 rest st p ps st' h Hit Hhalt Hrest IH]; intros Hh Href i op Hi Hop Hdep.
  - by apply elem_of_nil in Hi.
  - apply elem_of_cons in Hi as [->|Hi].
    + exfalso. unfold iteration in Hit. rewrite Hop in Hit.
      unfold dependencyMet in Hit. rewrite Hdep in Hit.
      by destruct (configuredResult options (id op)).
    + by apply (IH Hh (MockFacts.approved_refs_tail _ _ _ Href) i op Hi).
  - done.
  - pose proof (MockFacts.approved_refs_next _ _ _ _ _ Href Hit) as Href'.
    destruct Href as [[Hni _]%NoDup_cons _].
    apply elem_of_cons in Hi as [->|Hi].
    + pose proof (MockFacts.passes_frame _ _ _ _ _ _ Hrest) as (_ & Hfr & _).
      pose proof (MockFacts.iteration_outcome _ _ _ _ _ Hit Hop) as Hexp.
      apply MockFacts.iteration_Some in Hit
        as (op0 & Hop0 & _ & _ & Hset & Hleft & _ & Hout).
      assert (op0 = op) as -> by congruence.
      exists p. split_and!; [left| |].
      * rewrite (Hfr _ Hni), Hleft, Hset.
        apply list_lookup_insert_eq. by eapply lookup_lt_Some.
      * done.
    + assert (i ≠ i0) as Hne by (by intros ->).
      destruct (MockFacts.pass_other _ _ _ _ _ Hit Hne) as (_ & _ & Hl).
      destruct (IH Hh Href' i op Hi) as (p' & Hin & Hres); [by rewrite Hl|done|].
      exists p'. split; [by right|done].
Qed.

Lemma approved_sorted st j op :
  numbered st → operations st !! j = Some op → status op = approved → j ∈ sortedRefs st.
Proof.
  intros Hr Hop Hs. pose proof (MockFacts.numbered_sorted_permutation _ Hr) as Hperm.
  rewrite Hperm. unfold approvedRefs. apply list_elem_of_filter. split.
  - unfold ref_status. by rewrite Hop, <-Hs.
  - apply elem_of_seq. apply lookup_lt_Some in Hop. lia.
Qed.

Lemma execute_independent options st j op :
  numbered st → otpRequired (output (executeOperations options st)) = None →
  operations st !! j = Some op → status op = approved → Js.truthy (dependsOn op) = false →
  operations (final (executeOperations options st)) !! j
  = Some (settled_with (expected options op) op) ∧
  expected options op ∈ results (output (executeOperations options st)).
Proof.
  intros Hr Hotp Hop Hs Hdep.
  destruct (MockFacts.executeOperations_passes options st) as (ps & h & Hp & Hres & Hh & _).
  rewrite Hh in Hotp. destruct h; [done|].
  destruct (passes_attempted _ _ _ _ _ _ Hp eq_refl (MockFacts.sortedRefs_approved st) j op)
    as (p & Hin & Hfin & Hout); [by eapply approved_sorted|done..|].
  rewrite <-Hout. split; [done|].
  rewrite Hres. by apply (list_elem_of_fmap_2 (outcome ∘ snd) _ (j, p)).
Qed.

Lemma no_results_no_halt st otp_ :
  otpRequired (output (executeOperations (Some (mkOptions otp_ None)) st)) = None.
Proof.
  destruct (MockFacts.executeOperations_passes (Some (mkOptions otp_ None)) st)
    as (ps & h & Hp & _ & -> & _).
  destruct h; [|done]. by apply halt_configured in Hp as (_ & i & c & _ & ? & _).
Qed.

Lemma execute_None_no_halt st : otpRequired (output (executeOperations None st)) = None.
Proof.
  destruct (MockFacts.executeOperations_passes None st) as (ps & h & Hp & _ & -> & _).
  destruct h; [|done]. by apply halt_configured in Hp as (_ & i & c & _ & ? & _).
Qed.


Lemma filter_all {X} (P : X → Prop) `{!∀ x, Decision (P x)} (l : list X) :
  Forall P l → filter P l = l.
Proof.
  induction 1 as [|x l Hx _ IH]; [done|]. by rewrite filter_cons_True, IH.
Qed.

Lemma filter_none {X} (P : X → Prop) `{!∀ x, Decision (P x)} (l : list X) :
  Forall (λ x, ¬ P x) l → filter P l = [].
Proof.
  induction 1 as [|x l Hx _ IH]; [done|]. by rewrite filter_cons_False.
Qed.

Lemma reachable_NoDup st : reachable st → NoDup (id <$> operations st).
Proof. by intros [? _]%MockFacts.reachable_issued. Qed.

Lemma getOperation_lookup st j op :
  reachable st → operations st !! j = Some op → getOperation (id op) st = Some op.
Proof.
  intros Hr Hop. apply find_has_id; [by apply reachable_NoDup|].
  split; [by eapply list_elem_of_lookup_2|done].
Qed.

(** X1. Between two calls of the state manager no operation is running or
    cancelled: in every state that the calls lead to from
    [createMockConnectorState], each operation of the queue is pending,
    approved, completed or failed. *)
Theorem reachable_at_rest_between_calls (st : MockConnectorStateData) :
  reachable st → ∀ op, op ∈ operations st → at_rest (status op).
Proof.
  intros Hr op [j Hop]%list_elem_of_lookup_1. by eapply reachable_at_rest.
Qed.

(** X2. In every state the calls of the manager lead to, [getOperation]
    finds an operation under an id exactly when it is the operation of the
    queue with that id: lookups by id are never ambiguous. *)
Theorem getOperation_unique (st : MockConnectorStateData) (i : string)
    (op : PendingOperation) :
  reachable st → getOperation i st = Some op ↔ op ∈ operations st ∧ id op = i.
Proof. intros Hr. by apply find_has_id, reachable_NoDup. Qed.

(** X3. In every state the calls of the manager lead to,
    [removeOperation] succeeds exactly when the id is in the queue (it is
    never refused for a running operation), leaves the state as it was when
    it fails, and otherwise the id is no longer found while every other id
    is found as before. *)
Theorem removeOperation_removes (st : MockConnectorStateData) (i : string) :
  reachable st →
  let '(ok, st') := removeOperation i st in
  (ok = true ↔ is_Some (getOperation i st)) ∧
  (ok = false → st' = st) ∧
  getOperation i st' = None ∧
  ∀ j, j ≠ i → getOperation j st' = getOperation j st.
Proof.
  intros Hr. pose proof (reachable_NoDup _ Hr) as Hnd.
  destruct (removeOperation_cases i st)
    as [[-> Hrun]|(k & op & Hk & Hget & Hid & Hst & ->)].
  - assert (getOperation i st = None) as Hnone.
    { destruct (getOperation i st) as [op|] eqn:Hget; [|done].
      pose proof (Hrun _ eq_refl) as Hs.
      apply find_has_id in Hget as [[j Hj]%list_elem_of_lookup_1 _]; [|done].
      destruct (reachable_at_rest _ Hr _ _ Hj) as [?|[?|[?|?]]]; congruence. }
    rewrite Hnone. split_and!; try done.
  - assert (NoDup (id <$> delete k (operations st))) as Hnd'.
    { eapply sublist_NoDup; [exact Hnd|]. rewrite list_fmap_delete. apply sublist_delete. }
    split_and!; [by rewrite Hget|done| |].
    + apply find_has_id_None. simpl.
      intros (x & Hx & Hin)%list_elem_of_fmap.
      apply (elem_of_delete_NoDup _ _ op) in Hin as [_ Hne]; [|done..]. congruence.
    + intros j Hj. apply option_ext. intros x. unfold getOperation. simpl.
      rewrite !find_has_id by done.
      rewrite (elem_of_delete_NoDup _ _ op) by done. split; [tauto|].
      intros [? ?]. split_and!; [done| |done]. congruence.
Qed.

(** X4. In every state the calls of the manager lead to,
    [clearOperations] empties the queue and returns the number of operations
    it held. *)
Theorem clearOperations_empties (st : MockConnectorStateData) :
  reachable st → clearOperations st = (length (operations st), set_operations [] st).
Proof.
  intros Hr. unfold clearOperations.
  assert (Forall (λ op, status op ≠ running) (operations st)) as Hall.
  { apply Forall_forall. intros op [j Hop]%list_elem_of_lookup_1.
    destruct (reachable_at_rest _ Hr _ _ Hop) as [?|[?|[?|?]]]; congruence. }
  f_equal.
  - f_equal. by apply filter_all.
  - f_equal. apply filter_none. eapply Forall_impl; [exact Hall|]. by intros op ?.
Qed.

(** X5. [addOperations] appends to the queue, in the order of the inputs,
    one pending operation without result for each input, carrying the fields
    of that input; in a state the calls of the manager lead to, the new ids
    are distinct, were not in the queue before, and each new operation is
    found under its id afterwards. *)
Theorem addOperations_appends (st : MockConnectorStateData) (now : Z)
    (inputs : list NewOperationInput) :
  reachable st →
  let '(ops, st') := addOperations now inputs st in
  operations st' = operations st ++ ops ∧
  Forall2 (made_from now) inputs ops ∧
  NoDup (id <$> ops) ∧
  ∀ op, op ∈ ops →
        getOperation (id op) st = None ∧ getOperation (id op) st' = Some op.
Proof.
  intros Hr. pose proof (reachable_perform (AddMany now inputs) _ Hr) as Hr'. simpl in Hr'.
  pose proof (addOperations_app now inputs st) as Happ.
  destruct (addOperations now inputs st) as [ops st']. simpl in Hr'.
  destruct Happ as (Hops & _ & Hmade & _).
  pose proof (reachable_NoDup _ Hr') as Hnd. rewrite Hops, fmap_app in Hnd.
  apply NoDup_app in Hnd as (_ & Hdisj & Hnd).
  split_and!; try done. intros op Hin. split.
  - apply find_has_id_None. intros Hid. eapply Hdisj; [exact Hid|].
    by apply list_elem_of_fmap_2.
  - apply find_has_id; [by apply reachable_NoDup|]. split; [|done].
    rewrite Hops. apply elem_of_app. by right.
Qed.

Lemma perform_all_counter calls st :
  Forall (λ c, c ≠ Reset) calls →
  (operationIdCounter st ≤ operationIdCounter (perform_all calls st))%nat.
Proof.
  unfold perform_all. intros Hcalls. revert st.
  induction Hcalls as [|c calls Hc _ IH]; intros st; [done|].
  simpl. etrans; [by apply counter_mono|]. apply IH.
Qed.

(** X6. An id is never issued twice unless the manager is reset: after any
    sequence of calls without [reset], removals and disconnects included,
    the id of the next added operation differs from that of every operation
    that was in the queue before the sequence. *)
Theorem ids_never_reused (st : MockConnectorStateData) (calls : list ManagerCall)
    (now : Z) (input : NewOperationInput) :
  reachable st → Forall (λ c, c ≠ Reset) calls →
  ∀ op, op ∈ operations st →
        id (addOperation now input (perform_all calls st)).1 ≠ id op.
Proof.
  intros Hr Hcalls op Hop.
  pose proof (perform_all_counter calls st Hcalls) as Hle.
  destruct (MockFacts.reachable_issued _ Hr) as [_ Hk].
  destruct (Hk (id op)) as (k & Hle' & ->); [by apply list_elem_of_fmap_2|].
  simpl. intros Heq. apply (inj (String.app "op-")) in Heq. apply (inj pretty) in Heq. lia.
Qed.


Lemma final_NoDup options st :
  numbered st → NoDup (id <$> operations (final (executeOperations options st))).
Proof.
  intros Hr. by destruct (MockFacts.perform_numbered (Assigning (Execute options)) _ Hr).
Qed.

Lemma numbered_NoDup st : numbered st → NoDup (id <$> operations st).
Proof. by intros [? _]. Qed.

Lemma settles_independent st options i op :
  numbered st →
  otpRequired (output (executeOperations options st)) = None →
  getOperation i st = Some op → status op = approved → Js.truthy (dependsOn op) = false →
  getOperation i (final (executeOperations options st))
  = Some (settled_with (expected options op) op) ∧
  expected options op ∈ results (output (executeOperations options st)).
Proof.
  intros Hr Hotp Hget Hs Hdep.
  apply find_has_id in Hget as [[j Hj]%list_elem_of_lookup_1 Hid]; [|by apply numbered_NoDup].
  destruct (execute_independent options st j op Hr Hotp Hj Hs Hdep) as (Hfin & Hres).
  split; [|done].
  apply find_has_id; [by apply final_NoDup|].
  split; [by eapply list_elem_of_lookup_2|done].
Qed.

(** X7. A failing command does not stop the batch. Take a state that
    plain steps lead to and whose approved operations are plain. When [executeOperations] does not stop for an
    OTP, every approved operation that declares no dependency is run: it is
    left with the result configured for its id, or the default success
    when there is none, its status is completed or failed by the exit code
    of that result, and the result is among the results returned. *)
Theorem execute_settles_independent (st : MockConnectorStateData)
    (options : option ExecuteOptions) (i : string) (op : PendingOperation) :
  plainly_reachable true st → plain_queue st →
  let run := executeOperations options st in
  otpRequired (output run) = None →
  getOperation i st = Some op → status op = approved → Js.truthy (dependsOn op) = false →
  let r := match configuredResult options i with
           | Some c => fromConfigured c
           | None => defaultSuccess op
           end in
  getOperation i (final run) = Some (settled_with r op) ∧ r ∈ results (output run).
Proof.
  intros Hr%MockFacts.plainly_numbered _ run Hotp Hget Hs Hdep.
  pose proof (settles_independent st options i op Hr Hotp Hget Hs Hdep) as H.
  apply find_has_id in Hget as [_ Hid]; [|by apply numbered_NoDup].
  unfold expected in H. by rewrite Hid in H.
Qed.

(** X8. Round trip of the queue. Take a state that plain steps lead to
    and whose approved operations are plain. A plain operation without dependency that is added, approved by its id
    and executed with no options ends completed with the default
    successful result, and the run asks for no OTP. *)
Theorem add_approve_execute (st : MockConnectorStateData) (now : Z)
    (input : NewOperationInput) :
  plainly_reachable true st → plain_queue st →
  Forall plain (effect_keys (in_params input)) →
  Js.truthy (in_dependsOn input) = false →
  let '(op, st1) := addOperation now input st in
  let '(answer, st2) := approveOperation (id op) st1 in
  let run := executeOperations None st2 in
  answer = Some (with_status approved op) ∧
  getOperation (id op) (final run) = Some (succeeded op) ∧
  otpRequired (output run) = None.
Proof.
  intros Hr%MockFacts.plainly_numbered _ _ Hdep.
  pose proof (MockFacts.perform_numbered (Add now input) _ Hr) as Hr1.
  change (numbered (addOperation now input st).2) in Hr1.
  destruct (addOperation now input st) as [op st1] eqn:Hadd. simpl in Hr1.
  assert (getOperation (id op) st1 = Some op ∧ status op = pending ∧
          dependsOn op = in_dependsOn input) as (Hget & Hs & Hd).
  { unfold addOperation in Hadd. simplify_eq. split; [|done].
    apply find_has_id; [by apply (numbered_NoDup _ Hr1)|]. split; [|done].
    simpl. apply elem_of_app. right. left. }
  pose proof (MockFacts.perform_numbered (Assigning (Approve (id op))) _ Hr1) as Hr2.
  change (numbered (approveOperation (id op) st1).2) in Hr2.
  destruct (MockFacts.approveOperation_cases (id op) st1)
    as [[_ Hno]|(k & op' & Hk & Hget' & _ & Happ)]; [by destruct (Hno _ Hget)|].
  assert (op' = op) as -> by congruence.
  rewrite Happ in Hr2 |- *. simpl in Hr2.
  set (st2 := set_operations _ st1) in *.
  split_and!; [done| |apply execute_None_no_halt].
  assert (getOperation (id op) st2 = Some (with_status approved op)) as Hget2.
  { apply find_has_id; [by apply numbered_NoDup|]. split; [|done].
    apply (list_elem_of_lookup_2 _ k). apply list_lookup_insert_eq. by eapply lookup_lt_Some. }
  destruct (settles_independent st2 None (id op) (with_status approved op) Hr2)
    as [Hfin _]; [apply execute_None_no_halt|done|done|by rewrite <-Hd in Hdep|].
  by rewrite Hfin.
Qed.

(** X9. Retry. Take a state that plain steps lead to and whose approved
    operations are plain. A plain failed
    operation without dependency that is retried and executed with no
    options ends completed, its earlier result replaced by the default
    success. *)
Theorem retry_then_execute (st : MockConnectorStateData) (i : string)
    (op : PendingOperation) :
  plainly_reachable true st → plain_queue st → plain_operation op →
  getOperation i st = Some op → status op = failed →
  Js.truthy (dependsOn op) = false →
  let '(answer, st1) := retryOperation i st in
  let run := executeOperations None st1 in
  answer = Some (with_result None (with_status approved op)) ∧
  getOperation i (final run) = Some (succeeded op).
Proof.
  intros Hr%MockFacts.plainly_numbered _ _ Hget Hs Hdep.
  pose proof (MockFacts.perform_numbered (Assigning (Retry i)) _ Hr) as Hr1.
  change (numbered (retryOperation i st).2) in Hr1.
  destruct (MockFacts.retryOperation_cases i st)
    as [[_ Hno]|(k & op' & Hk & Hget' & _ & Happ)]; [by destruct (Hno _ Hget)|].
  assert (op' = op) as -> by congruence.
  rewrite Happ in Hr1 |- *. simpl in Hr1.
  set (st1 := set_operations _ st) in *.
  split; [done|].
  assert (id op = i) as Hid.
  { by apply find_has_id in Hget as [_ ?]; [|apply numbered_NoDup]. }
  assert (getOperation i st1 = Some (with_result None (with_status approved op))) as Hget1.
  { apply find_has_id; [by apply numbered_NoDup|]. split; [|done].
    apply (list_elem_of_lookup_2 _ k). apply list_lookup_insert_eq. by eapply lookup_lt_Some. }
  destruct (settles_independent st1 None i _ Hr1 (execute_None_no_halt _) Hget1)
    as [Hfin _]; [done|done|].
  by rewrite Hfin.
Qed.

(** X10. [executeOperations] reports [otpRequired] only when no OTP was
    supplied and some operation of the queue has a configured result that
    asks for one; with an OTP, or without configured results, it never
    does. *)
Theorem otp_required_only_without_otp (st : MockConnectorStateData)
    (options : option ExecuteOptions) :
  otpRequired (output (executeOperations options st)) ≠ None →
  otpSupplied options = false ∧
  ∃ op c, op ∈ operations st ∧ configuredResult options (id op) = Some c ∧
          p_requiresOtp c = Some true.
Proof.
  intros Hotp.
  destruct (MockFacts.executeOperations_passes options st) as (ps & h & Hp & _ & Hh & _).
  rewrite Hh in Hotp. destruct h; [|done].
  apply halt_configured in Hp as (Hs & i & c & (op & -> & Hin)%list_elem_of_fmap & Hc & Hreq).
  split; [done|]. by exists op, c.
Qed.



Lemma dependencyMet_completed st op X dep :
  NoDup (id <$> operations st) →
  dependsOn op = Some X → X ≠ "" → dep ∈ operations st → id dep = X →
  status dep = completed → dependencyMet st op = true.
Proof.
  intros Hnd HX Hne Hin Hid Hs. unfold dependencyMet.
  destruct (Js.truthy (dependsOn op)); [|done].
  rewrite (MockFacts.dependency_getOperation st op X HX Hne).
  assert (getOperation X st = Some dep) as -> by (by apply find_has_id).
  by apply bool_decide_eq_true.
Qed.

Lemma before_head {X} (x : X) l d : NoDup (x :: l) → ¬ before (x :: l) d x.
Proof.
  intros Hnd (j & i & Hlt & _ & Hi).
  assert (i = 0)%nat as -> by (by eapply NoDup_lookup). lia.
Qed.

Lemma before_tail {X} (x : X) l d y : d ≠ x → before (x :: l) d y → before l d y.
Proof.
  intros Hne (j & i & Hlt & Hj & Hi).
  destruct j as [|j]; [by simplify_eq/=|]. destruct i as [|i]; [lia|].
  exists j, i. split_and!; [lia|done..].
Qed.

Lemma head_runs options i0 rest st :
  NoDup (id <$> operations st) → approved_refs (i0 :: rest) st →
  (∀ i op X, i ∈ i0 :: rest → operations st !! i = Some op →
     dependsOn op = Some X → X ≠ "" →
     ∃ k dep, operations st !! k = Some dep ∧ id dep = X ∧
              (status dep = completed ∨ before (i0 :: rest) k i)) →
  ∃ op0 p, operations st !! i0 = Some op0 ∧ iteration options i0 st = Some p.
Proof.
  intros Hnd [Hndr Happ] Hdeps.
  destruct (proj1 (MockFacts.ref_status_Some st i0 approved)) as (op0 & Hop0 & _);
    [apply Happ; left|].
  exists op0.
  destruct (MockFacts.iteration_runs options i0 st op0 Hop0) as [p Hit]; [|by exists p].
  destruct (Js.truthy (dependsOn op0)) eqn:Htr;
    [|by unfold dependencyMet; rewrite Htr].
  apply JsFacts.truthy_true in Htr as (X & HX & Hne).
  destruct (Hdeps i0 op0 X) as (k & dep & Hk & Hid & [Hs|Hb]); [left|done..| |].
  - eapply dependencyMet_completed; eauto. by eapply list_elem_of_lookup_2.
  - by destruct (before_head _ _ _ Hndr Hb).
Qed.

Lemma passes_chain options refs st ps st' h :
  passes options refs st ps st' h →
  unconfigured options →
  NoDup (id <$> operations st) →
  approved_refs refs st →
  (∀ i op X, i ∈ refs → operations st !! i = Some op → dependsOn op = Some X → X ≠ "" →
     ∃ k dep, operations st !! k = Some dep ∧ id dep = X ∧
              (status dep = completed ∨ before refs k i)) →
  ∀ i op, i ∈ refs → operations st !! i = Some op → operations st' !! i = Some (succeeded op).
Proof.
  intros Hp Hun.
  induction Hp as [st|i0 rest st ps st' h Hit _ IH|i0 rest st p Hit Hhalt
                  |i0 rest st p ps st' h Hit Hhalt Hrest IH];
    intros Hnd Href Hdeps i op Hi Hop.
  - by apply elem_of_nil in Hi.
  - destruct (head_runs options i0 rest st Hnd Href Hdeps) as (? & ? & _ & ?). congruence.
  - exfalso. 
    pose proof Hit as (op0 & Hop0 & _ & _ & _ & _ & Hiff & _)%MockFacts.iteration_Some.
    apply Hiff in Hhalt as [Hreq _].
    rewrite (MockFacts.iteration_outcome _ _ _ _ _ Hit Hop0) in Hreq.
    unfold expected in Hreq. by rewrite Hun in Hreq.
  - pose proof (MockFacts.approved_refs_next _ _ _ _ _ Href Hit) as Href'.
    pose proof (MockFacts.pass_ids _ _ _ _ Hit) as (_ & _ & Hids).
    pose proof Hit as (op0 & Hop0 & _ & _ & Hset & Hleft & _ & _)%MockFacts.iteration_Some.
    pose proof (MockFacts.iteration_outcome _ _ _ _ _ Hit Hop0) as Hout.
    unfold expected in Hout. rewrite Hun in Hout.
    assert (operations (left p) !! i0 = Some (succeeded op0)) as Hdone.
    { rewrite Hleft, Hset, Hout. apply list_lookup_insert_eq. by eapply lookup_lt_Some. }
    destruct Href as [[Hni Hndr]%NoDup_cons Happ].
    apply elem_of_cons in Hi as [->|Hi].
    + pose proof (MockFacts.passes_frame _ _ _ _ _ _ Hrest) as (_ & Hfr & _).
      rewrite (Hfr _ Hni). congruence.
    + assert (i ≠ i0) as Hne by (by intros ->).
      destruct (MockFacts.pass_other _ _ _ _ _ Hit Hne) as (_ & _ & Hl).
      apply IH; [by rewrite Hids|done| |done|by rewrite Hl].
      intros i' op' X Hi' Hop' HX HneX.
      assert (i' ≠ i0) as Hne' by (by intros ->).
      destruct (MockFacts.pass_other _ _ _ _ _ Hit Hne') as (_ & _ & Hl').
      rewrite Hl' in Hop'.
      destruct (Hdeps i' op' X) as (k & dep & Hk & Hid & Hor); [by right|done..|].
      destruct (decide (k = i0)) as [->|Hk0].
      * assert (op0 = dep) as -> by congruence.
        exists i0, (succeeded dep). split_and!; [done|done|by left].
      * destruct (MockFacts.pass_other _ _ _ _ _ Hit Hk0) as (_ & _ & Hlk).
        exists k, dep. split_and!; [by rewrite Hlk|done|].
        destruct Hor as [?|Hb]; [by left|right]. by eapply before_tail.
Qed.

(** X11. A chain of dependencies approved together completes in one call.
    Take a state that plain steps lead to and whose approved operations
    are plain. When no result is configured,
    the dependencies among the approved operations have no cycle and every
    dependency of an approved operation is in the queue, approved or
    completed, then [executeOperations] leaves every approved operation
    completed with the default result. *)
Theorem dependency_chain_completes (st : MockConnectorStateData)
    (options : option ExecuteOptions) :
  plainly_reachable true st → plain_queue st → unconfigured options →
  acyclic (ref_id st) (ref_dependsOn st) (approvedRefs st) →
  (∀ op X, op ∈ operations st → status op = approved → dependsOn op = Some X → X ≠ "" →
           ∃ dep, getOperation X st = Some dep ∧
                  (status dep = approved ∨ status dep = completed)) →
  ∀ op, op ∈ operations st → status op = approved →
        getOperation (id op) (final (executeOperations options st)) = Some (succeeded op).
Proof.
  intros Hr%MockFacts.plainly_numbered _ Hun Hac Hdeps op [j Hj]%list_elem_of_lookup_1 Hs.
  pose proof (numbered_NoDup _ Hr) as Hnd.
  destruct (MockFacts.numbered_approvedRefs _ Hr) as [Hndr Hner].
  pose proof (sortByDependencies_ordered _ _ _ Hndr Hac) as Hord.
  pose proof (MockFacts.numbered_sorted_permutation _ Hr) as Hperm.
  fold (sortedRefs st) in Hord.
  destruct (MockFacts.executeOperations_passes options st) as (ps & h & Hp & _).
  assert (∀ i, i ∈ approvedRefs st ↔ ∃ o, operations st !! i = Some o ∧ status o = approved)
    as Hin.
  { intros i. unfold approvedRefs. rewrite list_elem_of_filter, MockFacts.ref_status_Some.
    split; [tauto|]. intros (o & Ho & ?). split; [eauto|].
    apply elem_of_seq. apply lookup_lt_Some in Ho. lia. }
  apply find_has_id; [by apply final_NoDup|]. split; [|done].
  apply (list_elem_of_lookup_2 _ j).
  eapply (passes_chain _ _ _ _ _ _ Hp Hun Hnd (MockFacts.sortedRefs_approved st));
    [|rewrite Hperm; apply Hin; eauto|done].
  intros i o X Hi Ho HX Hne.
  assert (status o = approved) as Hso.
  { rewrite Hperm in Hi. apply Hin in Hi as (o' & Ho' & ?). congruence. }
  destruct (Hdeps o X) as (dep & Hget & Hor); [by eapply list_elem_of_lookup_2|done..|].
  apply find_has_id in Hget as [[k Hk]%list_elem_of_lookup_1 Hid]; [|done].
  exists k, dep. split_and!; [done..|].
  destruct Hor as [Ha|?]; [right|by left].
  apply Hord; [done|].
  apply depends_of_id; [done|apply Hin; eauto| |].
  - unfold ref_id. rewrite Hk. simpl. congruence.
  - unfold ref_dependsOn, ref_id. rewrite Ho, Hk. simpl. congruence.
Qed.


Import Samples QueueSamples.

Lemma reachable_fresh : reachable fresh.
Proof. apply reachable_created. Qed.

Lemma reachable_one_approved : reachable one_approved.
Proof.
  apply (reachable_perform (Assigning ApproveAll)).
  apply (reachable_perform (Add 1 (addUser "bob" None))). apply reachable_fresh.
Qed.

Lemma reachable_second_approved : reachable second_approved.
Proof.
  apply (reachable_perform (Assigning (Approve "op-2"))).
  apply (reachable_perform (AddMany 1 [addUser "bob" None; addUser "eve" (Some "op-1")])).
  apply reachable_fresh.
Qed.

Lemma reachable_chain_approved : reachable chain_approved.
Proof.
  apply (reachable_perform (Assigning ApproveAll)).
  apply (reachable_perform (AddMany 1 [addUser "bob" None; addUser "eve" (Some "op-1")])).
  apply reachable_fresh.
Qed.

Lemma reachable_one_failed : reachable one_failed.
Proof.
  apply (reachable_perform (Assigning (Execute refused))). apply reachable_one_approved.
Qed.

Lemma plainly_chain_approved setters : plainly_reachable setters chain_approved.
Proof.
  apply (MockFacts.plainly_called _ (Assigning ApproveAll)); [|done].
  apply (MockFacts.plainly_called _ (AddMany 1 [addUser "bob" None;
                                                addUser "eve" (Some "op-1")])); [|done].
  apply MockFacts.plainly_fresh.
Qed.

Lemma plainly_one_failed setters : plainly_reachable setters one_failed.
Proof.
  apply (MockFacts.plainly_called _ (Assigning (Execute refused)));
    [apply MockFacts.plainly_one_approved|].
  by apply MockFacts.plain_sample.
Qed.

Lemma reachable_at_rest_witness :
  Forall (λ op, at_rest (status op)) (operations one_failed).
Proof.
  apply Forall_forall.
  exact (reachable_at_rest_between_calls one_failed reachable_one_failed).
Defined.

Lemma getOperation_unique_witness :
  ∃ op, getOperation "op-2" second_approved = Some op ∧ status op = approved.
Proof.
  eexists. split.
  - apply (getOperation_unique second_approved "op-2" _ reachable_second_approved).
    split; [right; left|reflexivity].
  - reflexivity.
Defined.

Lemma removeOperation_removes_witness :
  (removeOperation "op-1" second_approved).1 = true ∧
  getOperation "op-1" (removeOperation "op-1" second_approved).2 = None.
Proof.
  pose proof (removeOperation_removes second_approved "op-1" reachable_second_approved) as H.
  destruct (removeOperation "op-1" second_approved) as [ok st'].
  destruct H as (Hok & _ & Hnone & _). split; [|exact Hnone].
  apply Hok. vm_compute. eauto.
Defined.

Lemma clearOperations_empties_witness :
  clearOperations one_failed = (1%nat, set_operations [] one_failed).
Proof. exact (clearOperations_empties one_failed reachable_one_failed). Defined.

Lemma addOperations_appends_witness :
  let '(ops, st') := addOperations 2 [addUser "eve" None; addUser "dan" None] one_approved in
  operations st' = operations one_approved ++ ops ∧ NoDup (id <$> ops).
Proof.
  pose proof (addOperations_appends one_approved 2 [addUser "eve" None; addUser "dan" None]
                reachable_one_approved) as H.
  destruct (addOperations 2 [addUser "eve" None; addUser "dan" None] one_approved)
    as [ops st'].
  by destruct H as (? & _ & ? & _).
Defined.

Lemma ids_never_reused_witness :
  Forall (λ op, id (addOperation 2 (addUser "eve" None)
                      (perform_all [Remove "op-1"; Disconnect; Connect 2 "x"] one_approved)).1
                ≠ id op)
         (operations one_approved).
Proof.
  apply Forall_forall.
  apply (ids_never_reused one_approved [Remove "op-1"; Disconnect; Connect 2 "x"] 2
           (addUser "eve" None) reachable_one_approved).
  repeat constructor; discriminate.
Defined.

Lemma execute_settles_independent_witness :
  ∃ op, getOperation "op-1" one_failed = Some op ∧ status op = failed.
Proof.
  destruct (execute_settles_independent one_approved refused "op-1"
              (with_status approved (addOperation 1 (addUser "bob" None) fresh).1)
              (MockFacts.plainly_one_approved true)
              (MockFacts.plain_sample one_approved eq_refl)) as [Hfin _]; [reflexivity..|].
  eexists. split; [exact Hfin|reflexivity].
Defined.

Lemma add_approve_execute_witness :
  let '(op, st1) := addOperation 1 (addUser "bob" None) fresh in
  let '(_, st2) := approveOperation (id op) st1 in
  getOperation (id op) (final (executeOperations None st2)) = Some (succeeded op).
Proof.
  assert (Forall plain (effect_keys (in_params (addUser "bob" None)))) as Hplain.
  { apply (bool_decide_unpack (Forall plain (effect_keys (in_params (addUser "bob" None))))).
    reflexivity. }
  pose proof (add_approve_execute fresh 1 (addUser "bob" None)
                (MockFacts.plainly_fresh true)
                (MockFacts.plain_sample fresh eq_refl) Hplain eq_refl) as H.
  destruct (addOperation 1 (addUser "bob" None) fresh) as [op st1].
  destruct (approveOperation (id op) st1) as [answer st2].
  by destruct H as (_ & ? & _).
Defined.

Lemma retry_then_execute_witness :
  ∃ op, getOperation "op-1" (final (executeOperations None (retryOperation "op-1" one_failed).2))
        = Some (succeeded op).
Proof.
  eexists.
  assert (plain_operation (with_status failed
            (with_result (Some (mkResult "" "E403" (Exit 1) None None))
               (addOperation 1 (addUser "bob" None) fresh).1))) as Hplain.
  { apply (bool_decide_unpack (plain_operation _)). reflexivity. }
  pose proof (retry_then_execute one_failed "op-1" _
                (plainly_one_failed true)
                (MockFacts.plain_sample one_failed eq_refl) Hplain eq_refl eq_refl eq_refl)
    as H.
  destruct (retryOperation "op-1" one_failed) as [answer st1]. 
  destruct H as [_ H]. exact H.
Defined.

Lemma otp_required_only_without_otp_witness :
  otpSupplied otp_wanted = false ∧
  ∃ op c, op ∈ operations one_approved ∧ configuredResult otp_wanted (id op) = Some c ∧
          p_requiresOtp c = Some true.
Proof. by apply (otp_required_only_without_otp one_approved otp_wanted). Defined.

Lemma dependency_chain_completes_witness :
  Forall (λ op, getOperation (id op) (final (executeOperations None chain_approved))
                = Some (succeeded op))
         (operations chain_approved).
Proof.
  apply Forall_forall. intros op Hop.
  apply (dependency_chain_completes chain_approved None
           (plainly_chain_approved true)
           (MockFacts.plain_sample chain_approved eq_refl)).
  - done.
  - apply (ranked_acyclic _ _ chain_rank). reflexivity.
  - intros op' X Hop' _ HX _.
    apply elem_of_cons in Hop' as [->|Hop']; [done|].
    apply list_elem_of_singleton in Hop' as ->. simplify_eq/=.
    eexists. split; [reflexivity|by left].
  - done.
  - apply elem_of_cons in Hop as [->|Hop]; [done|].
    by apply list_elem_of_singleton in Hop as ->.
Defined.

End QueueFacts.

(** ** The mirrored registry data *)

Module EffectFacts.
Import Mock MockSpec QueueSpec MockData EffectSpec.

Lemma property_plain {V} (o : gmap string V) k :
  plain k → Js.property o k = match o !! k with Some v => Js.Own v | None => Js.Undefined end.
Proof.
  intros Hk. unfold Js.property. destruct (o !! k); [done|].
  by rewrite bool_decide_eq_false_2.
Qed.


Lemma getPackageCollaborators_plain pkg st :
  plain pkg → getPackageCollaborators pkg st = collaborators <$> packages st !! pkg.
Proof.
  intros Hp. unfold getPackageCollaborators. rewrite (property_plain _ _ Hp).
  by destruct (packages st !! pkg).
Qed.

Lemma plain_by_test k : bool_decide (plain k) = true → plain k.
Proof. apply bool_decide_eq_true. Qed.

Lemma normalizeOrg_at org : Js.startsWith "@" (normalizeOrg org) = true.
Proof.
  unfold normalizeOrg. destruct (Js.startsWith "@" org) eqn:H; [done|].
  apply JsFacts.startsWith_app.
Qed.

Lemma normalizeOrg_idemp org : normalizeOrg (normalizeOrg org) = normalizeOrg org.
Proof. unfold normalizeOrg at 1. by rewrite normalizeOrg_at. Qed.

Lemma normalizeOrg_bare org :
  Js.startsWith "@" org = false → normalizeOrg org ≠ org.
Proof.
  intros H Heq. by rewrite <-Heq, normalizeOrg_at in H.
Qed.

(** X12. The effect of a completed [org:add-user] for a plain user, as
    the readers of the manager see it: [getOrgUsers], asked with the org
    written with or without [@], returns the users the org had (none if it
    was unknown) with the user set to the role of the operation,
    [developer] when it gives none; the teams of the org, the members of
    its plain teams, the other orgs and the package data are as before. *)
Theorem org_add_user_effect (st : MockConnectorStateData) (op : PendingOperation)
    (org user : string) :
  type op = "org:add-user" → params op !! "org" = Some org → params op !! "user" = Some user →
  org ≠ "" → user ≠ "" → plain user →
  let st' := applyOperationEffect op st in
  getOrgUsers org st'
  = Some (<[user := default "developer" (params op !! "role")]> (default ∅ (getOrgUsers org st))) ∧
  getOrgUsers (normalizeOrg org) st' = getOrgUsers org st' ∧
  getOrgTeams org st' = Some (default [] (getOrgTeams org st)) ∧
  (∀ team, plain team → getTeamUsers org team st' = getTeamUsers org team st) ∧
  (∀ o, normalizeOrg o ≠ normalizeOrg org → getOrgUsers o st' = getOrgUsers o st) ∧
  packages st' = packages st ∧ userPackages st' = userPackages st.
Proof.
  intros Ht Ho Hu Hne%JsFacts.truthy_Some Hnu%JsFacts.truthy_Some _ st'.
  unfold st', applyOperationEffect. cbv zeta.
  rewrite Ht, Ho, Hu, Hne, Hnu. simpl.
  unfold getOrgUsers, getOrgTeams, getTeamUsers. simpl. rewrite normalizeOrg_idemp.
  rewrite !lookup_insert_eq. simpl.
  split_and!; try done.
  - by destruct (orgs st !! normalizeOrg org).
  - by destruct (orgs st !! normalizeOrg org).
  - intros team Hteam. destruct (orgs st !! normalizeOrg org); [done|]. simpl.
    by rewrite (property_plain _ _ Hteam).
  - intros o Hneq. by rewrite lookup_insert_ne.
Qed.


(** X13. Adding a user to an org and then removing it, with the org
    written with or without [@] in either operation, leaves the users the
    org had before without that user, and the org's teams as they were;
    the org exists afterwards even if it was unknown before. *)
Theorem org_add_then_remove (st : MockConnectorStateData) (add rm : PendingOperation)
    (org org' user : string) :
  type add = "org:add-user" → params add !! "org" = Some org →
  params add !! "user" = Some user →
  type rm = "org:rm-user" → params rm !! "org" = Some org' →
  params rm !! "user" = Some user →
  org ≠ "" → org' ≠ "" → user ≠ "" → normalizeOrg org' = normalizeOrg org →
  let st' := applyOperationEffect rm (applyOperationEffect add st) in
  getOrgUsers org st' = Some (delete user (default ∅ (getOrgUsers org st))) ∧
  getOrgTeams org st' = Some (default [] (getOrgTeams org st)).
Proof.
  intros Ht Ho Hu Ht' Ho' Hu' Hne%JsFacts.truthy_Some Hne'%JsFacts.truthy_Some
    Hnu%JsFacts.truthy_Some Hnorm st'.
  unfold st', applyOperationEffect. cbv zeta.
  rewrite Ht, Ho, Hu, Ht', Ho', Hu', Hne, Hne', Hnu, Hnorm. simpl.
  rewrite lookup_insert_eq. simpl.
  unfold getOrgUsers, getOrgTeams. simpl. rewrite !lookup_insert_eq. simpl.
  rewrite delete_insert_eq.
  by destruct (orgs st !! normalizeOrg org).
Qed.



(** X16. Operations that remove or change something in data the mock
    does not hold have no effect: with no org data, [org:rm-user],
    [org:set-role], [team:destroy], [team:add-user] and [team:rm-user]
    leave the state as it is, and with no package data, in a state that
    plain steps lead to, so do [access:revoke] and [owner:rm] for a plain
    package. *)
Theorem effect_needs_known_target (st : MockConnectorStateData) (op : PendingOperation) :
  (orgs st = ∅ →
   type op ∈ ["org:rm-user"; "org:set-role"; "team:destroy"; "team:add-user"; "team:rm-user"] →
   applyOperationEffect op st = st) ∧
  (packages st = ∅ → type op ∈ ["access:revoke"; "owner:rm"] →
   (∀ pkg, params op !! "package" = Some pkg → plain pkg) →
   plainly_reachable true st →
   applyOperationEffect op st = st).
Proof.
  split.
  - intros Horgs Ht. unfold applyOperationEffect. cbv zeta. rewrite Horgs.
    repeat (apply elem_of_cons in Ht as [->|Ht]); [..|by apply elem_of_nil in Ht]; simpl;
      repeat (case_match; try done); by rewrite lookup_empty in *.
  - intros Hpk Ht _ _. unfold applyOperationEffect. cbv zeta. rewrite Hpk.
    repeat (apply elem_of_cons in Ht as [->|Ht]); [..|by apply elem_of_nil in Ht]; simpl;
      repeat (case_match; try done); by rewrite lookup_empty in *.
Qed.


(** X17. [setOrgData] stores under the key as given, while the readers
    look up the key with [@] prepended when it is missing. For an org
    written with [@], the readers return the merged data: the users and team
    members of the call over those already stored, the teams of the call or
    else those stored; [getTeamUsers] returns the members of a team of the
    merged data, and what [Object.prototype] has under the name when the
    merged data has no such team. For an org written without [@], what
    was set is not seen by [getOrgUsers], [getOrgTeams] and [getTeamUsers]
    asked for the same name. *)
Theorem setOrgData_read_back (st : MockConnectorStateData) (org : string)
    (data : PartialOrgData) :
  let st' := setOrgData org data st in
  let existing := default emptyOrg (orgs st !! org) in
  (Js.startsWith "@" org = true →
   getOrgUsers org st' = Some (spread (users existing) (d_users data)) ∧
   getOrgTeams org st' = Some (default (teams existing) (d_teams data)) ∧
   ∀ team, getTeamUsers org team st'
           = Js.property (spread (teamMembers existing) (d_teamMembers data)) team) ∧
  (Js.startsWith "@" org = false →
   getOrgUsers org st' = getOrgUsers org st ∧ getOrgTeams org st' = getOrgTeams org st ∧
   ∀ team, getTeamUsers org team st' = getTeamUsers org team st) ∧
  (∀ user, spread (users existing) (d_users data) !! user
           = match d_users data ≫= (.!! user) with
             | Some role => Some role
             | None => users existing !! user
             end).
Proof.
  intros st' existing. unfold st', setOrgData, getOrgUsers, getOrgTeams, getTeamUsers.
  split_and!.
  - intros Hat. unfold normalizeOrg. rewrite Hat. cbn [orgs set_orgs].
    rewrite !lookup_insert_eq. done.
  - intros Hat. pose proof (normalizeOrg_bare _ Hat) as Hne. cbn [orgs set_orgs].
    rewrite !lookup_insert_ne by done. done.
  - intros user. unfold spread. destruct (d_users data) as [u|]; simpl.
    + destruct (u !! user) as [role|] eqn:Hu.
      * by apply lookup_union_Some_l.
      * by rewrite lookup_union_r.
    + by rewrite (left_id_L ∅ (∪)).
Qed.

(** X18. For the collaborators of a plain package and a plain user, in
    a state that plain steps lead to: a completed [access:grant] or [owner:add] sets the user's level
    ([read-write] for [owner:add] and when [access:grant] gives no
    [level]), and a following [access:revoke] or [owner:rm] for the same
    package and user leaves the collaborators as before without that user;
    org data is untouched. *)
Theorem grant_then_revoke (st : MockConnectorStateData) (grant revoke : PendingOperation)
    (pkg user : string) :
  type grant ∈ ["access:grant"; "owner:add"] → type revoke ∈ ["access:revoke"; "owner:rm"] →
  params grant !! "package" = Some pkg → params grant !! "user" = Some user →
  params revoke !! "package" = Some pkg → params revoke !! "user" = Some user →
  pkg ≠ "" → user ≠ "" → plain pkg → plain user → plainly_reachable true st →
  let before_ := default ∅ (getPackageCollaborators pkg st) in
  let level := if decide (type grant = "owner:add") then "read-write"
               else default "read-write" (params grant !! "level") in
  getPackageCollaborators pkg (applyOperationEffect grant st)
  = Some (<[user := level]> before_) ∧
  getPackageCollaborators pkg (applyOperationEffect revoke (applyOperationEffect grant st))
  = Some (delete user before_) ∧
  orgs (applyOperationEffect revoke (applyOperationEffect grant st)) = orgs st.
Proof.
  intros Hg Hr Hp Hu Hp' Hu' Hnp%JsFacts.truthy_Some Hnu%JsFacts.truthy_Some Hplain _ _.
  rewrite !(getPackageCollaborators_plain _ _ Hplain).
  unfold applyOperationEffect. cbv zeta.
  rewrite Hp, Hu, Hp', Hu', Hnp, Hnu.
  repeat (apply elem_of_cons in Hg as [->|Hg]); [..|by apply elem_of_nil in Hg];
    (repeat (apply elem_of_cons in Hr as [->|Hr]); [..|by apply elem_of_nil in Hr]);
    simpl; rewrite !lookup_insert_eq; simpl; rewrite ?lookup_insert_eq; simpl;
    rewrite delete_insert_eq; by destruct (packages st !! pkg).
Qed.



Lemma alter_twice (f g : PendingOperation → PendingOperation) (k : nat)
    (ops : list PendingOperation) op :
  ops !! k = Some op → alter f k (alter g k ops) = <[k := f (g op)]> ops.
Proof.
  intros Hk. apply list_eq. intros j. destruct (decide (j = k)) as [->|Hne].
  - rewrite list_lookup_alter_eq, list_lookup_alter_eq, Hk.
    by rewrite list_lookup_insert_eq by (by eapply lookup_lt_Some).
  - by rewrite !list_lookup_alter_ne, list_lookup_insert_ne.
Qed.

Lemma execute_alone options st k op :
  numbered st → approvedRefs st = [k] → operations st !! k = Some op →
  Js.truthy (dependsOn op) = false → configuredResult options (id op) = None →
  final (executeOperations options st)
  = applyOperationEffect (succeeded op)
      (set_operations (<[k := succeeded op]> (operations st)) st).
Proof.
  intros Hr Hrefs Hop Hdep Hcfg.
  destruct (MockFacts.executeOperations_passes options st) as (ps & h & Hp & _).
  pose proof (MockFacts.numbered_sorted_permutation _ Hr) as Hperm.
  rewrite Hrefs in Hperm. apply Permutation_singleton_r in Hperm. rewrite Hperm in Hp.
  assert (iteration options k st
          = Some (mkPass (assign (with_status running) k st)
                    (set_operations (<[k := succeeded op]> (operations st)) st)
                    (applyOperationEffect (succeeded op)
                       (set_operations (<[k := succeeded op]> (operations st)) st))
                    (defaultSuccess op) false)) as Hit.
  { unfold iteration. rewrite Hop. unfold dependencyMet. rewrite Hdep, Hcfg.
    assert (assign (λ o, with_status completed (with_result (Some (defaultSuccess op)) o)) k
              (assign (with_status running) k st)
            = set_operations (<[k := succeeded op]> (operations st)) st) as ->.
    { unfold assign. simpl. unfold set_operations. simpl. f_equal.
      by rewrite (alter_twice _ _ _ _ _ Hop). }
    simpl. rewrite list_lookup_insert_eq by (by eapply lookup_lt_Some). done. }
  inversion Hp as [|? ? ? ? ? ? Hnone|? ? ? p Hsome Hh|? ? ? p ? ? ? Hsome Hh Hrest];
    simplify_eq/=.
  by inversion Hrest.
Qed.

(** X20. From adding to the effect, in one statement. Take a state that
    plain steps without setters lead to. When no operation of the queue
    is approved, a plain operation without dependency that is
    added, approved by its id and executed with no options leaves exactly
    the state in which the queue is extended by the completed operation,
    the counter is advanced by one and [applyOperationEffect] has been
    applied for it. *)
Theorem executed_alone_applies_effect (st : MockConnectorStateData) (now : Z)
    (input : NewOperationInput) :
  plainly_reachable false st → (∀ o, o ∈ operations st → status o ≠ approved) →
  Forall plain (effect_keys (in_params input)) →
  Js.truthy (in_dependsOn input) = false →
  let '(op, st1) := addOperation now input st in
  let st2 := (approveOperation (id op) st1).2 in
  final (executeOperations None st2)
  = applyOperationEffect (succeeded op)
      (set_operations (operations st ++ [succeeded op])
         (set_counter (S (operationIdCounter st)) st)).
Proof.
  intros Hr%MockFacts.plainly_numbered Hnone _ Hdep.
  pose proof (MockFacts.perform_numbered (Add now input) _ Hr) as Hr1.
  change (numbered (addOperation now input st).2) in Hr1.
  destruct (addOperation now input st) as [op st1] eqn:Hadd.
  unfold addOperation in Hadd. simplify_eq. simpl in Hr1.
  set (op := mkOp _ _ _ _ _ _ _ _ _) in *.
  set (st1 := set_operations _ _) in *.
  pose proof (MockFacts.perform_numbered (Assigning (Approve (id op))) _ Hr1) as Hr2.
  change (numbered (approveOperation (id op) st1).2) in Hr2.
  assert (operations st1 !! length (operations st) = Some op) as Hk.
  { simpl. by rewrite lookup_app_r, Nat.sub_diag. }
  assert (getOperation (id op) st1 = Some op) as Hget.
  { apply QueueFacts.find_has_id; [by apply QueueFacts.numbered_NoDup|].
    split; [by eapply list_elem_of_lookup_2|done]. }
  destruct (MockFacts.approveOperation_cases (id op) st1)
    as [[_ Hno]|(k & op' & Hk' & Hget' & _ & Happ)]; [by destruct (Hno _ Hget)|].
  assert (op' = op) as -> by congruence.
  assert (k = length (operations st)) as ->.
  { eapply NoDup_lookup; [by apply (QueueFacts.numbered_NoDup _ Hr1)| |];
      rewrite list_lookup_fmap; [by rewrite Hk'|by rewrite Hk]. }
  rewrite Happ in Hr2 |- *. cbn [snd] in *.
  assert (<[length (operations st) := with_status approved op]> (operations st1)
          = operations st ++ [with_status approved op]) as Hins.
  { simpl. rewrite insert_app_r_alt, Nat.sub_diag by done. done. }
  rewrite Hins in Hr2 |- *.
  rewrite (execute_alone None _ (length (operations st)) (with_status approved op) Hr2).
  - f_equal. simpl. unfold set_operations. simpl. f_equal.
    rewrite insert_app_r_alt, Nat.sub_diag by done. done.
  - unfold approvedRefs. simpl. rewrite length_app. simpl.
    rewrite Nat.add_1_r, seq_S, filter_app. simpl.
    rewrite filter_cons_True; [|unfold ref_status; simpl;
                                 by rewrite lookup_app_r, Nat.sub_diag].
    rewrite QueueFacts.filter_none; [done|].
    apply Forall_forall. intros i Hi%elem_of_seq. unfold ref_status. simpl.
    rewrite lookup_app_l by lia.
    destruct (operations st !! i) as [o|] eqn:Ho; [|done]. simpl.
    intros [= Hs]. eapply Hnone; [|done]. by eapply list_elem_of_lookup_2.
  - simpl. by rewrite lookup_app_r, Nat.sub_diag.
  - done.
  - done.
Qed.


(** X21. The connector and the mock read different parameter names.
    [executeOperation] of the connector depends only on the type and on the
    parameters [org], [user], [role], [scopeTeam], [permission] and [pkg];
    [applyOperationEffect] of the mock only on the type and on [org],
    [user], [role], [team], [scopeTeam], [package] and [level]. So a team
    or access operation that carries the names the connector reads
    ([scopeTeam], [pkg]) and neither [org] nor [package] has no effect on
    the mock's data. *)
Theorem parameter_names_differ (st : MockConnectorStateData) (op op' : PendingOperation)
    (exec : NpmClient.ExecAsync) (otp : option string) :
  type op' = type op →
  ((∀ k, k ∈ ["org"; "user"; "role"; "scopeTeam"; "permission"; "pkg"] →
         params op' !! k = params op !! k) →
   Server.executeOperation exec op' otp = Server.executeOperation exec op otp) ∧
  ((∀ k, k ∈ ["org"; "user"; "role"; "team"; "scopeTeam"; "package"; "level"] →
         params op' !! k = params op !! k) →
   applyOperationEffect op' st = applyOperationEffect op st) ∧
  (type op ∈ ["team:create"; "team:destroy"; "access:grant"; "access:revoke";
              "owner:add"; "owner:rm"] →
   params op !! "org" = None → params op !! "package" = None →
   applyOperationEffect op st = st).
Proof.
  intros Ht. split_and!.
  - intros Hk. unfold Server.executeOperation, Server.param. cbv zeta. rewrite Ht.
    rewrite !Hk by set_solver. done.
  - intros Hk. unfold applyOperationEffect. cbv zeta. rewrite Ht.
    rewrite !Hk by set_solver. done.
  - intros Hty Ho Hp. unfold applyOperationEffect. cbv zeta. rewrite Ho, Hp.
    repeat (apply elem_of_cons in Hty as [->|Hty]); [..|by apply elem_of_nil in Hty]; done.
Qed.

Import Samples QueueSamples EffectSamples.


Lemma org_add_user_effect_witness :
  getOrgUsers "acme" (applyOperationEffect
                        (operation "org:add-user" {["org" := "acme"; "user" := "bob"]}) acme)
  = Some {["alice" := "owner"; "bob" := "developer"]}.
Proof.
  destruct (org_add_user_effect acme
              (operation "org:add-user" {["org" := "acme"; "user" := "bob"]}) "acme" "bob")
    as [-> _]; try done.
  by apply plain_by_test.
Defined.


Lemma org_add_then_remove_witness :
  getOrgUsers "acme"
    (applyOperationEffect (operation "org:rm-user" {["org" := "@acme"; "user" := "bob"]})
       (applyOperationEffect (operation "org:add-user" {["org" := "acme"; "user" := "bob"]})
          acme))
  = Some {["alice" := "owner"]}.
Proof.
  destruct (org_add_then_remove acme
              (operation "org:add-user" {["org" := "acme"; "user" := "bob"]})
              (operation "org:rm-user" {["org" := "@acme"; "user" := "bob"]})
              "acme" "@acme" "bob") as [-> _]; try done.
Defined.



Lemma effect_needs_known_target_witness :
  applyOperationEffect (operation "org:rm-user" {["org" := "acme"; "user" := "bob"]}) fresh
  = fresh ∧
  applyOperationEffect (operation "owner:rm" {["package" := "kit"; "user" := "bob"]}) fresh
  = fresh.
Proof.
  split.
  - destruct (effect_needs_known_target fresh
                (operation "org:rm-user" {["org" := "acme"; "user" := "bob"]})) as [H _].
    apply H; [done|left].
  - destruct (effect_needs_known_target fresh
                (operation "owner:rm" {["package" := "kit"; "user" := "bob"]})) as [_ H].
    apply H; [done|right; left| |apply MockFacts.plainly_fresh].
    intros pkg [= <-]. by apply plain_by_test.
Defined.

Lemma setOrgData_read_back_witness :
  getOrgUsers "acme"
    (setOrgData "acme" (mkPartialOrg (Some {["bob" := "developer"]}) None None) fresh)
  = None ∧
  getOrgUsers "@acme"
    (setOrgData "@acme" (mkPartialOrg (Some {["bob" := "developer"]}) None None) fresh)
  = Some {["bob" := "developer"]}.
Proof.
  split.
  - destruct (setOrgData_read_back fresh "acme"
                (mkPartialOrg (Some {["bob" := "developer"]}) None None)) as (_ & H & _).
    by destruct (H eq_refl) as [-> _].
  - destruct (setOrgData_read_back fresh "@acme"
                (mkPartialOrg (Some {["bob" := "developer"]}) None None)) as (H & _).
    by destruct (H eq_refl) as [-> _].
Defined.

Lemma grant_then_revoke_witness :
  getPackageCollaborators "kit"
    (applyOperationEffect (operation "owner:rm" {["package" := "kit"; "user" := "bob"]})
       (applyOperationEffect (operation "access:grant" {["package" := "kit"; "user" := "bob"]})
          fresh))
  = Some ∅.
Proof.
  destruct (grant_then_revoke fresh
              (operation "access:grant" {["package" := "kit"; "user" := "bob"]})
              (operation "owner:rm" {["package" := "kit"; "user" := "bob"]}) "kit" "bob")
    as (_ & -> & _); [left|right; left|done|done|done|done|done|done|..];
    [by apply plain_by_test|by apply plain_by_test|apply MockFacts.plainly_fresh|done].
Defined.


Lemma executed_alone_applies_effect_witness :
  getOrgUsers "acme"
    (final (executeOperations None
              (approveOperation "op-1" (addOperation 1 (addUser "bob" None) fresh).2).2))
  = Some {["bob" := "developer"]}.
Proof.
  assert (∀ o, o ∈ operations fresh → status o ≠ approved) as Hnone.
  { by intros o ?%elem_of_nil. }
  assert (Forall plain (effect_keys (in_params (addUser "bob" None)))) as Hplain.
  { apply (bool_decide_unpack (Forall plain (effect_keys (in_params (addUser "bob" None))))).
    reflexivity. }
  etrans; [apply (f_equal (getOrgUsers "acme"));
           exact (executed_alone_applies_effect fresh 1 (addUser "bob" None)
                    (MockFacts.plainly_fresh false) Hnone Hplain eq_refl)|].
  reflexivity.
Defined.

Lemma parameter_names_differ_witness :
  applyOperationEffect grant_for_connector fresh = fresh.
Proof.
  destruct (parameter_names_differ fresh grant_for_connector grant_for_connector
              timed_out None eq_refl) as (_ & _ & H).
  apply H; [do 2 right; left|done|done].
Defined.

End EffectFacts.

(** ** The mock composable *)

Module ComposableFacts.
Import Mock MockSpec QueueSpec Composable ComposableSpec.

Lemma passes_calm options refs st ps st' h :
  passes options refs st ps st' h → unconfigured options →
  Forall (λ op, calm (status op)) (operations st) →
  Forall (λ op, calm (status op)) (operations st').
Proof.
  intros Hp Hun.
  assert (∀ i s p, iteration options i s = Some p →
            Forall (λ op, calm (status op)) (operations s) →
            Forall (λ op, calm (status op)) (operations (settled p))) as Hpass.
  { intros i s p Hit Hall.
    pose proof Hit as (op0 & Hop0 & _ & _ & Hset & _)%MockFacts.iteration_Some.
    pose proof (MockFacts.iteration_outcome _ _ _ _ _ Hit Hop0) as Hout.
    unfold expected in Hout. rewrite Hun in Hout.
    rewrite Hset, Hout. apply Forall_insert; [done|]. simpl. right; by right. }
  induction Hp as [st|i rest st ps st' h Hit _ IH|i rest st p Hit Hh
                  |i rest st p ps st' h Hit Hh _ IH]; intros Hall.
  - done.
  - by apply IH.
  - by eapply Hpass.
  - apply IH.
    destruct (MockFacts.iteration_Some _ _ _ _ Hit) as (_ & _ & _ & _ & _ & -> & _).
    by eapply Hpass.
Qed.

Lemma execute_calm otp_ st :
  Forall (λ op, calm (status op)) (operations st) →
  Forall (λ op, calm (status op))
         (operations (final (Mock.executeOperations (Some (mkOptions otp_ None)) st))).
Proof.
  intros Hall.
  destruct (MockFacts.executeOperations_passes (Some (mkOptions otp_ None)) st)
    as (ps & h & Hp & _).
  by eapply passes_calm.
Qed.

Lemma retry_calm i st :
  Forall (λ op, calm (status op)) (operations st) →
  Mock.retryOperation i st = (None, st).
Proof.
  intros Hall.
  destruct (MockFacts.retryOperation_cases i st) as [[-> _]|(k & op & Hk & _ & Hs & _)];
    [done|].
  rewrite Forall_lookup in Hall. destruct (Hall _ _ Hk) as [?|[?|?]]; congruence.
Qed.

Lemma approve_calm i st :
  Forall (λ op, calm (status op)) (operations st) →
  Forall (λ op, calm (status op)) (operations (Mock.approveOperation i st).2).
Proof.
  intros Hall.
  destruct (MockFacts.approveOperation_cases i st) as [[-> _]|(k & op & _ & _ & _ & ->)];
    [done|].
  simpl. apply Forall_insert; [done|]. right; by left.
Qed.

Lemma approveAll_calm st :
  Forall (λ op, calm (status op)) (operations st) →
  Forall (λ op, calm (status op)) (operations (Mock.approveAll st).2).
Proof.
  intros Hall. unfold Mock.approveAll. rewrite MockFacts.approveAll_loop_spec. simpl.
  apply Forall_fmap. eapply Forall_impl; [exact Hall|].
  intros op Hc. simpl. case_decide; [right; by left|done].
Qed.

Lemma remove_calm i st :
  Forall (λ op, calm (status op)) (operations st) →
  Forall (λ op, calm (status op)) (operations (Mock.removeOperation i st).2).
Proof.
  intros Hall.
  destruct (QueueFacts.removeOperation_cases i st)
    as [[-> _]|(k & op & _ & _ & _ & _ & ->)]; [done|].
  simpl. by apply Forall_delete.
Qed.

Lemma addOperations_calm now inputs st :
  Forall (λ op, calm (status op)) (operations st) →
  Forall (λ op, calm (status op)) (operations (Mock.addOperations now inputs st).2).
Proof.
  intros Hall. pose proof (QueueFacts.addOperations_app now inputs st) as Happ.
  destruct (Mock.addOperations now inputs st) as [ops st']. simpl.
  destruct Happ as (-> & _ & Hmade & _). apply Forall_app. split; [done|].
  apply Forall_forall. intros op [k Hk]%list_elem_of_lookup_1.
  destruct (Forall2_lookup_r _ _ _ _ _ Hmade Hk) as (input & _ & Hm).
  destruct Hm as (_ & _ & _ & _ & _ & _ & -> & _). by left.
Qed.

Lemma addOperations_frame now inputs st :
  isConnected (Mock.addOperations now inputs st).2 = isConnected st ∧
  config (Mock.addOperations now inputs st).2 = config st.
Proof.
  pose proof (QueueFacts.addOperations_app now inputs st) as Happ.
  destruct (Mock.addOperations now inputs st) as [ops st']. simpl.
  destruct Happ as (_ & _ & _ & -> & Hc & _). unfold isConnected. by rewrite Hc.
Qed.

Lemma synced m v : v_connecting v = false → mirrors (mkInstance m (syncState m v)).
Proof. intros Hc. by repeat split. Qed.

Local Ltac still_connected :=
  cbn; unfold isConnected in *; cbn in *; congruence.

Lemma act_steady a i : steady i → steady (act a i).
Proof.
  intros Hst. pose proof Hst as (Hm & Hcalm & Hempty).
  pose proof Hm as (Hconn & Hops & Huser & Hav & Hcing).
  destruct i as [m v]. cbn [manager view] in *.
  destruct a as [now tok| | |now input|now inputs|i| |i|i| |now otp| |now| |msg| |org data
                |o|p|pkg c]; cbn [act].
  - unfold connect, Mock.connect. cbn [manager view]. case_decide; cbn [snd].
    + split_and!; [|done..]. by repeat split.
    + split_and!; [by repeat split|done|done].
  - unfold disconnect. split_and!; [by repeat split|by constructor|done].
  - unfold refreshState. split_and!; [by apply synced|done..].
  - unfold addOperation. cbn [manager view].
    destruct (isConnected m) eqn:Hc; cbn [negb snd]; [|exact Hst].
    split_and!; [by apply synced| |still_connected].
    apply Forall_app. split; [done|]. repeat constructor.
  - unfold addOperations. cbn [manager view].
    destruct (isConnected m) eqn:Hc; cbn [negb snd]; [|exact Hst].
    pose proof (addOperations_calm now inputs m Hcalm) as Hcalm'.
    pose proof (addOperations_frame now inputs m) as [Hc' _].
    destruct (Mock.addOperations now inputs m) as [ops m']. cbn [snd] in *.
    split_and!; [by apply synced|done|]. cbn [manager]. congruence.
  - unfold removeOperation. cbn [manager view].
    destruct (isConnected m) eqn:Hc; cbn [negb snd]; [|exact Hst].
    pose proof (remove_calm i m Hcalm) as Hcalm'.
    assert (isConnected (Mock.removeOperation i m).2 = true) as Hc'.
    { by destruct (QueueFacts.removeOperation_cases i m)
        as [[-> _]|(k & op & _ & _ & _ & _ & ->)]. }
    destruct (Mock.removeOperation i m) as [ok m']. cbn [snd] in *.
    split_and!; [by apply synced|done|]. cbn [manager]. congruence.
  - unfold clearOperations. cbn [manager view].
    destruct (isConnected m) eqn:Hc; cbn [negb snd]; [|exact Hst].
    split_and!; [by apply synced| |still_connected].
    cbn. apply Forall_forall. intros x [_ Hx]%list_elem_of_filter.
    rewrite Forall_forall in Hcalm. by apply Hcalm.
  - unfold approveOperation. cbn [manager view].
    destruct (isConnected m) eqn:Hc; cbn [negb snd]; [|exact Hst].
    pose proof (approve_calm i m Hcalm) as Hcalm'.
    assert (isConnected (Mock.approveOperation i m).2 = true) as Hc'.
    { by destruct (MockFacts.approveOperation_cases i m)
        as [[-> _]|(k & op & _ & _ & _ & ->)]. }
    destruct (Mock.approveOperation i m) as [ok m']. cbn [snd] in *.
    split_and!; [by apply synced|done|]. cbn [manager]. congruence.
  - unfold retryOperation. cbn [manager view].
    destruct (isConnected m) eqn:Hc; cbn [negb snd]; [|exact Hst].
    rewrite (retry_calm i m Hcalm). cbn [snd].
    split_and!; [by apply synced|done|]. cbn [manager]. congruence.
  - unfold approveAll. cbn [manager view].
    destruct (isConnected m) eqn:Hc; cbn [negb snd]; [|exact Hst].
    pose proof (approveAll_calm m Hcalm) as Hcalm'.
    unfold Mock.approveAll in *. destruct (approveAll_loop _ _) as [c ops]. cbn [snd] in *.
    split_and!; [by apply synced|done|still_connected].
  - unfold executeOperations. cbn [manager view].
    destruct (isConnected m) eqn:Hc; cbn [negb snd]; [|exact Hst].
    pose proof (execute_calm otp m Hcalm) as Hcalm'.
    destruct (MockFacts.executeOperations_frame (Some (mkOptions otp None)) m)
      as (_ & Hc' & _).
    split_and!; [by repeat split|done|].
    cbn [manager]. unfold isConnected in *. congruence.
  - unfold controlReset. split_and!; [by repeat split|by constructor|done].
  - unfold simulateConnect, Mock.connect. cbn [manager view].
    rewrite decide_False by (by intros []). cbn [snd].
    split_and!; [by apply synced|done|still_connected].
  - unfold simulateDisconnect. split_and!; [by apply synced|by constructor|done].
  - exact Hst.
  - exact Hst.
  - exact Hst.
  - exact Hst.
  - exact Hst.
  - exact Hst.
Qed.


Lemma act_config a i : config (manager (act a i)) = config (manager i).
Proof.
  destruct i as [m v].
  destruct a as [now tok| | |now input|now inputs|i| |i|i| |now otp| |now| |msg| |org data
                |o|p|pkg c]; cbn [act]; try done.
  - unfold connect, Mock.connect. cbn [manager view]. by case_decide.
  - unfold addOperation. cbn [manager view]. by destruct (isConnected m).
  - unfold addOperations. cbn [manager view]. destruct (isConnected m); [|done].
    pose proof (addOperations_frame now inputs m) as [_ Hc].
    by destruct (Mock.addOperations now inputs m).
  - unfold removeOperation. cbn [manager view]. destruct (isConnected m); [|done].
    cbn [negb].
    by destruct (QueueFacts.removeOperation_cases i m)
      as [[-> _]|(k & op & _ & _ & _ & _ & ->)].
  - unfold clearOperations. cbn [manager view]. by destruct (isConnected m).
  - unfold approveOperation. cbn [manager view]. destruct (isConnected m); [|done].
    cbn [negb].
    by destruct (MockFacts.approveOperation_cases i m) as [[-> _]|(k & op & _ & _ & _ & ->)].
  - unfold retryOperation. cbn [manager view]. destruct (isConnected m); [|done].
    cbn [negb].
    by destruct (MockFacts.retryOperation_cases i m) as [[-> _]|(k & op & _ & _ & _ & ->)].
  - unfold approveAll, Mock.approveAll. cbn [manager view]. destruct (isConnected m); [|done].
    cbn [negb]. by destruct (approveAll_loop _ _).
  - unfold executeOperations. cbn [manager view]. destruct (isConnected m); [|done].
    by destruct (MockFacts.executeOperations_frame (Some (mkOptions otp None)) m) as (? & _).
  - unfold simulateConnect, Mock.connect. cbn [manager view]. by case_decide.
Qed.

Lemma create_steady cfg : steady (create cfg).
Proof. split_and!; [by repeat split|by constructor|done]. Qed.

Lemma act_all_steady actions i : steady i → steady (act_all actions i).
Proof.
  unfold act_all. revert i. induction actions as [|a actions IH]; intros i Hi; [done|].
  simpl. by apply IH, act_steady.
Qed.

Lemma act_all_config actions i : config (manager (act_all actions i)) = config (manager i).
Proof.
  unfold act_all. revert i. induction actions as [|a actions IH]; intros i; [done|].
  simpl. by rewrite IH, act_config.
Qed.

(** X22. After any sequence of actions on a mock composable, made through
    the composable and its test controls, the reactive view mirrors the
    state manager: [connected] and [operations] are the manager's, [npmUser]
    and [avatar] are those of the configuration when connected and [null]
    otherwise, [connecting] is false, the queue is empty while disconnected,
    and [connect] succeeds exactly for the configured token. *)
Theorem view_mirrors_manager (cfg : MockConnectorConfig) (actions : list Action) :
  let i := act_all actions (create cfg) in
  mirrors i ∧
  (v_connected (view i) = false → v_operations (view i) = []) ∧
  v_npmUser (view i) = (if v_connected (view i) then Some (npmUser cfg) else None) ∧
  v_avatar (view i) = (if v_connected (view i) then avatar cfg else None) ∧
  ∀ now tok, (connect now tok i).1 = bool_decide (tok = token cfg).
Proof.
  intros i.
  destruct (act_all_steady actions (create cfg) (create_steady cfg))
    as (Hm & _ & Hempty).
  pose proof (act_all_config actions (create cfg)) as Hcfg.
  fold i in Hm, Hempty, Hcfg. destruct Hm as (Hconn & Hops & Huser & Hav & Hcing).
  split_and!.
  - by repeat split.
  - rewrite Hconn, Hops. exact Hempty.
  - by rewrite Huser, Hconn, Hcfg.
  - by rewrite Hav, Hconn, Hcfg.
  - intros now tok. unfold connect, Mock.connect. rewrite Hcfg. simpl.
    case_decide; case_bool_decide; done.
Qed.

Lemma completed_calm (l : list PendingOperation) :
  Forall (λ op, calm (status op)) l →
  List.filter isCompleted l = filter (λ op, status op = completed) l.
Proof.
  induction 1 as [|op l Hop _ IH]; [done|].
  simpl. rewrite filter_cons, IH. unfold isCompleted.
  destruct Hop as [Hs|[Hs|Hs]]; rewrite Hs; simpl;
    rewrite ?decide_False, ?decide_True; done.
Qed.

(** X23. Through the composable alone nothing ever fails: after any
    sequence of its actions and test controls that hand it plain names
    only, every operation of the view is pending, approved or completed,
    [executeOperations] never reports [otpRequired] (its [success] is
    whether the instance is connected), [retryOperation] always answers
    false, and the completed list holds exactly the completed operations.
    Failures and OTP requests arise only from results configured through
    the state manager directly. *)
Theorem composable_never_fails (cfg : MockConnectorConfig) (actions : list Action) :
  Forall plain_action actions →
  let i := act_all actions (create cfg) in
  Forall (λ op, calm (status op)) (v_operations (view i)) ∧
  (∀ now otp, (executeOperations now otp i).1 = (v_connected (view i), None)) ∧
  (∀ id_, (retryOperation id_ i).1 = false) ∧
  completedOperations (view i) = filter (λ op, status op = completed) (v_operations (view i)).
Proof.
  intros _ i.
  destruct (act_all_steady actions (create cfg) (create_steady cfg))
    as ((Hconn & Hops & _) & Hcalm & _).
  fold i in Hconn, Hops, Hcalm. rewrite <-Hops in Hcalm. split_and!.
  - done.
  - intros now otp. unfold executeOperations. rewrite Hconn.
    destruct (isConnected (manager i)); [|done]. simpl.
    by rewrite QueueFacts.no_results_no_halt.
  - intros id_. unfold retryOperation. destruct (isConnected (manager i)); [|done].
    simpl. rewrite Hops in Hcalm. by rewrite (retry_calm id_ _ Hcalm).
  - by apply completed_calm.
Qed.

(** X24. The computed lists of the composable, for any view: every
    operation that is not cancelled is in exactly one of [activeOperations]
    and [completedOperations]; pending and approved operations are active;
    a failed operation is active when its result asks for an OTP and
    completed otherwise. *)
Theorem active_and_completed_partition (v : View) :
  activeOperations v ++ completedOperations v
  ≡ₚ filter (λ op, status op ≠ cancelled) (v_operations v) ∧
  (∀ op, op ∈ pendingOperations v ∨ op ∈ approvedOperations v → op ∈ activeOperations v) ∧
  (∀ op, op ∈ v_operations v → status op = failed →
         (wantsOtp op = true → op ∈ activeOperations v ∧ op ∉ completedOperations v) ∧
         (wantsOtp op = false → op ∈ completedOperations v ∧ op ∉ activeOperations v)).
Proof.
  unfold activeOperations, completedOperations, pendingOperations, approvedOperations.
  split_and!.
  - induction (v_operations v) as [|op l IH]; [done|].
    simpl. rewrite filter_cons. unfold isActive at 1, isCompleted at 1.
    destruct (status op) eqn:Hs; simpl.
    1-3: by rewrite IH.
    + by rewrite <-Permutation_middle, IH.
    + destruct (wantsOtp op); simpl; [by rewrite IH|by rewrite <-Permutation_middle, IH].
    + done.
  - intros op [Hin|Hin]; apply list_elem_of_In, filter_In in Hin as [Hin Hp];
      apply list_elem_of_In, filter_In; (split; [done|]);
      unfold isPending, isApproved, isActive in *;
      apply bool_decide_eq_true in Hp; by rewrite Hp.
  - intros op Hin Hs. rewrite !list_elem_of_In, !filter_In, <-!list_elem_of_In.
    unfold isActive, isCompleted. rewrite Hs. simpl.
    split; intros ->; simpl; naive_solver.
Qed.

(** X23 at an instance that connects, adds an operation, approves and
    executes it: the operation is completed. *)
Lemma composable_never_fails_witness :
  let i := act_all [Connecting 1 "test-token-e2e-12345"; Adding 2 (Samples.addUser "bob" None);
                    ApprovingAll; Executing 3 None]
                   (create Samples.DEFAULT_MOCK_CONFIG) in
  status <$> v_operations (view i) = [completed] ∧
  Forall (λ op, calm (status op)) (v_operations (view i)).
Proof.
  intros i. split; [reflexivity|].
  apply (composable_never_fails Samples.DEFAULT_MOCK_CONFIG
           [Connecting 1 "test-token-e2e-12345"; Adding 2 (Samples.addUser "bob" None);
            ApprovingAll; Executing 3 None]).
  repeat constructor.
  all: by apply (bool_decide_unpack (EffectSpec.plain _)).
Defined.

End ComposableFacts.

(** ** The connector service and the npm client *)

Module ConnectorFacts.
Import Server ServerSpec NpmClient.

Lemma executeOperation_unknown exec op otp_ :
  type op ∉ handled_types → executeOperation exec op otp_ = Normal (unknown_type (type op)).
Proof.
  intros Hty. unfold handled_types in Hty. rewrite !not_elem_of_cons in Hty.
  destruct_and!. unfold executeOperation. cbv zeta.
  by rewrite !decide_False by done.
Qed.

(** X25. Every handler of the connector except [/connect] answers 401
    [Unauthorized] and leaves the state exactly as it was when
    [validateToken] rejects the [authorization] header of the request. *)
Theorem unauthorized_changes_nothing (expectedToken : string) (env : Env) (req : Request)
    (st : ConnectorState) (auth : option string) :
  request_auth req = Some auth → validateToken expectedToken auth = false →
  handle expectedToken env req st = (unauthorized, st).
Proof.
  intros Hreq Hval. destruct req; simplify_eq/=; by rewrite Hval.
Qed.

(** X27. An operation whose type [executeOperation] has no case for is
    answered with exit code 1 and the text [Unknown operation type],
    whatever the commands would do: none is run. [org:set-role], a member
    of [OperationType], is such a type: the connector answers it so, while
    the mock applies it and sets the role of a plain user of a known
    org. *)
Theorem unhandled_type_fails (op : PendingOperation) :
  type op ∉ handled_types →
  (∀ exec otp_, executeOperation exec op otp_ = Normal (unknown_type (type op))) ∧
  "org:set-role" ∉ handled_types ∧
  (type op = "org:set-role" →
   ∀ m org user role users,
     params op !! "org" = Some org → params op !! "user" = Some user →
     params op !! "role" = Some role → org ≠ "" → user ≠ "" → role ≠ "" →
     EffectSpec.plain user →
     MockData.getOrgUsers org m = Some users →
     MockData.getOrgUsers org (Mock.applyOperationEffect op m) = Some (<[user := role]> users)).
Proof.
  intros Hty. split_and!.
  - intros exec otp_. by apply executeOperation_unknown.
  - unfold handled_types. set_solver.
  - intros Ht m org user role users Ho Hu Hr Hno%JsFacts.truthy_Some Hnu%JsFacts.truthy_Some
      Hnr%JsFacts.truthy_Some _ Hget.
    unfold Mock.applyOperationEffect. cbv zeta. rewrite Ht, Ho, Hu, Hr, Hno, Hnu, Hnr.
    simpl. unfold MockData.getOrgUsers in *.
    destruct (Mock.orgs m !! Mock.normalizeOrg org) as [o|] eqn:Horg; [|done].
    simpl in *. rewrite lookup_insert_eq. simpl. congruence.
Qed.


Lemma getNpmUser_cases exec :
  getNpmUser exec
  = Normal match exec "npm whoami" with
           | Normal out =>
               if Js.truthy (Some (Js.trim out.1)) then Some (Js.trim out.1) else None
           | Throw e =>
               let printed := default "" (Js.trim <$> err_stdout e) in
               if bool_decide (default (Exit 1) (err_code e) = Exit 0)
                  && Js.truthy (Some printed)
               then Some printed else None
           end.
Proof.
  unfold getNpmUser, execNpm.
  change (commandLine ["whoami"] None) with "npm whoami".
  by destruct (exec "npm whoami") as [[out err]|e].
Qed.

(** X28. [POST /connect] with the expected token never ends in an error:
    it stores the clock's time and the user that [getNpmUser] reports, keeps
    the token, the queue and the OTP, and answers with both. A reported
    user name is never empty and carries no white space (any character
    that [trim] strips) at its ends; it is the trimmed output of
    [npm whoami], taken when the command succeeded or was rejected with
    code 0. *)
Theorem connect_records_user (expectedToken : string) (env : Env) (st : ConnectorState)
    (body : option ConnectBody) :
  body ≫= b_token = Some expectedToken →
  ∃ user,
    getNpmUser (execAsync env 0) = Normal user ∧
    handle expectedToken env (PostConnect body) st
    = (Success (ConnectData user (now env 0)),
       mkState (mkSession (token (session st)) (now env 0) user) (operations st) (otp st)) ∧
    match user with
    | Some name =>
        name ≠ "" ∧ trimmed name ∧
        match execAsync env 0 "npm whoami" with
        | Normal out => name = Js.trim out.1
        | Throw e => err_code e = Some (Exit 0) ∧ Some name = Js.trim <$> err_stdout e
        end
    | None => True
    end.
Proof.
  intros Hbody. unfold handle. rewrite decide_False by (by intros []).
  rewrite getNpmUser_cases. eexists. split_and!; [done..|].
  destruct (execAsync env 0 "npm whoami") as [[out err]|e]; cbn [fst].
  - destruct (Js.truthy (Some (Js.trim out))) eqn:Htr; [|done].
    split_and!; [by apply JsFacts.truthy_Some|apply NpmClientFacts.trim_trimmed|done].
  - cbv zeta. destruct (bool_decide _ && Js.truthy _) eqn:Hc; [|done].
    apply andb_true_iff in Hc as [Hcode%bool_decide_eq_true Htr].
    destruct (err_stdout e) as [o|]; [|done]. cbn [fmap option_fmap option_map default] in *.
    split_and!; [by apply JsFacts.truthy_Some|apply NpmClientFacts.trim_trimmed| |done].
    destruct (err_code e) as [c|]; simpl in Hcode; [by subst|done].
Qed.

Lemma append_assoc (a b c : string) : (a +:+ b) +:+ c = a +:+ (b +:+ c).
Proof.
  induction a as [|x a IH]; [done|].
  change (String x ((a +:+ b) +:+ c) = String x (a +:+ (b +:+ c))). by f_equal.
Qed.

Lemma join_cons sep p l : l ≠ [] → Js.join sep (p :: l) = p +:+ sep +:+ Js.join sep l.
Proof. by destruct l. Qed.

Lemma join_split_argument l1 l2 x y :
  Js.join " " (l1 ++ [x +:+ " " +:+ y] ++ l2) = Js.join " " (l1 ++ [x; y] ++ l2).
Proof.
  induction l1 as [|a l1 IH].
  - destruct l2 as [|z l2]; [done|]. cbn [app]. rewrite !join_cons by done.
    by rewrite append_assoc.
  - change (Js.join " " (a :: (l1 ++ [x +:+ " " +:+ y] ++ l2))
            = Js.join " " (a :: (l1 ++ [x; y] ++ l2))).
    rewrite !join_cons; [by rewrite IH|by destruct l1..].
Qed.

Lemma join_snoc sep l p : l ≠ [] → Js.join sep (l ++ [p]) = Js.join sep l +:+ sep +:+ p.
Proof.
  induction l as [|a l IH]; [done|]. intros _. destruct l as [|b l]; [done|].
  cbn [app]. rewrite join_cons by done. cbn [app] in IH. rewrite IH by done.
  rewrite (join_cons _ a) by done. by rewrite !append_assoc.
Qed.

(** X29. [execNpm] joins its arguments with spaces and quotes nothing: an
    argument that contains a space gives the same command line, and so the
    same result, as the two arguments it is made of. The OTP is appended as
    [--otp] and its value exactly when it is truthy, unquoted as well: an
    OTP with a space in it reads as one more argument. *)
Theorem arguments_are_not_quoted (exec : ExecAsync) (args front rest : list string)
    (x y : string) (otp_ : option string) :
  commandLine (front ++ [x +:+ " " +:+ y] ++ rest) otp_
  = commandLine (front ++ [x; y] ++ rest) otp_ ∧
  execNpm exec (front ++ [x +:+ " " +:+ y] ++ rest) otp_
  = execNpm exec (front ++ [x; y] ++ rest) otp_ ∧
  commandLine args otp_
  = (if Js.truthy otp_ then commandLine args None +:+ " --otp " +:+ default "" otp_
     else commandLine args None) ∧
  (∀ o w, o ≠ "" → commandLine args (Some (o +:+ " " +:+ w)) = commandLine (args ++ ["--otp"; o; w]) None).
Proof.
  assert (commandLine (front ++ [x +:+ " " +:+ y] ++ rest) otp_
          = commandLine (front ++ [x; y] ++ rest) otp_) as Heq.
  { unfold commandLine. destruct (Js.truthy otp_).
    - rewrite !app_comm_cons, <-!app_assoc. apply join_split_argument.
    - rewrite !app_comm_cons. apply join_split_argument. }
  assert (∀ o, commandLine args (Some o)
               = if Js.truthy (Some o) then commandLine args None +:+ " --otp " +:+ o
                 else commandLine args None) as Hotp.
  { intros o. unfold commandLine. destruct (Js.truthy (Some o)); [|done].
    change (Js.truthy None) with false. cbv zeta. cbn iota.
    change ["--otp"; default "" (Some o)] with (["--otp"] ++ [o]).
    rewrite (app_assoc ("npm" :: args)).
    rewrite join_snoc by done. rewrite join_snoc by done.
    by rewrite !append_assoc. }
  split_and!.
  - done.
  - unfold execNpm. by rewrite Heq.
  - destruct otp_ as [o|]; [apply Hotp|done].
  - intros o w Ho. unfold commandLine. 
    assert (Js.truthy (Some (o +:+ " " +:+ w)) = true) as ->.
    { apply JsFacts.truthy_Some. by destruct o. }
    change (Js.truthy None) with false. cbv zeta. cbn iota.
    change (default "" (Some (o +:+ " " +:+ w))) with (o +:+ " " +:+ w).
    change ["--otp"; o +:+ " " +:+ w] with (["--otp"] ++ [o +:+ " " +:+ w] ++ []).
    change ["--otp"; o; w] with (["--otp"] ++ [o; w] ++ []).
    rewrite (app_comm_cons args), !(app_assoc ("npm" :: args)).
    apply join_split_argument.
Qed.

Lemma requireAuth_bearer s st :
  MockServer.requireAuth (Some ("Bearer " +:+ s)) st
  = if decide (s ≠ Mock.token (Mock.config st)) then Some "Invalid token"
    else if negb (Mock.isConnected st) then Some "Not connected" else None.
Proof.
  unfold MockServer.requireAuth.
  change (default "" (Some ("Bearer " +:+ s))) with ("Bearer " +:+ s).
  rewrite JsFacts.startsWith_app.
  change (Js.truthy (Some ("Bearer " +:+ s))) with true. cbn [negb orb].
  change 7%nat with (String.length "Bearer "). by rewrite JsFacts.drop_app.
Qed.

Lemma requireAuth_not_bearer h st :
  (∀ rest_, h ≠ Some ("Bearer " +:+ rest_)) →
  MockServer.requireAuth h st = Some "Authorization required".
Proof.
  intros Hh. unfold MockServer.requireAuth.
  destruct h as [s|]; [|done]. simpl default.
  destruct (Js.startsWith "Bearer " s) eqn:Hs.
  - apply JsFacts.startsWith_inv in Hs as [r ->]. by destruct (Hh r).
  - by rewrite orb_true_r.
Qed.

Lemma bearer_or_not (h : option string) :
  (∃ r, h = Some ("Bearer " +:+ r)) ∨ (∀ r, h ≠ Some ("Bearer " +:+ r)).
Proof.
  destruct h as [s|]; [|by right].
  destruct (Js.startsWith "Bearer " s) eqn:Hs.
  - left. apply JsFacts.startsWith_inv in Hs as [r ->]. eauto.
  - right. intros r [= ->]. by rewrite JsFacts.startsWith_app in Hs.
Qed.

Lemma mock_connect_ok now bodyToken st :
  (MockServer.connect now bodyToken st).1 = 200 ↔
  bodyToken = Some (Mock.token (Mock.config st)) ∧ Mock.token (Mock.config st) ≠ "".
Proof.
  unfold MockServer.connect. destruct (Js.truthy bodyToken) eqn:Ht; cbn [negb orb].
  - case_bool_decide as Hb; cbn [fst].
    + split; [done|]. by intros [? _].
    + subst bodyToken. split; [|done].
      intros _. split; [done|]. by apply JsFacts.truthy_Some.
  - cbn [fst]. split; [done|]. intros [-> Hne%JsFacts.truthy_Some]. congruence.
Qed.

(** X30. The auth helper of the mock HTTP server lets a request pass
    exactly when its header is [Bearer] followed by the configured token
    and the manager is connected; it answers [Authorization required]
    exactly when the header is missing or does not start with [Bearer ].
    The mock [/connect] answers 200 exactly for a body token that equals
    the configured token and is not empty, and after it the helper passes
    the bearer header of that token. *)
Theorem requireAuth_passes (authHeader : option string) (st : Mock.MockConnectorStateData)
    (now : Z) (bodyToken : option string) :
  (MockServer.requireAuth authHeader st = None ↔
   authHeader = Some ("Bearer " +:+ Mock.token (Mock.config st)) ∧
   Mock.isConnected st = true) ∧
  (MockServer.requireAuth authHeader st = Some "Authorization required" ↔
   ∀ rest_, authHeader ≠ Some ("Bearer " +:+ rest_)) ∧
  ((MockServer.connect now bodyToken st).1 = 200 ↔
   bodyToken = Some (Mock.token (Mock.config st)) ∧ Mock.token (Mock.config st) ≠ "") ∧
  ((MockServer.connect now bodyToken st).1 = 200 →
   MockServer.requireAuth (Some ("Bearer " +:+ Mock.token (Mock.config st)))
     (MockServer.connect now bodyToken st).2 = None).
Proof.
  split_and!.
  - destruct (bearer_or_not authHeader) as [[r ->]|Hno].
    + rewrite requireAuth_bearer. split.
      * case_decide as Hd; [done|]. rewrite Hd.
        destruct (Mock.isConnected st); naive_solver.
      * intros [[= ->%(inj _)] ->]. by rewrite decide_False by (by intros []).
    + rewrite requireAuth_not_bearer by done. split; [done|]. intros [-> _]. by destruct (Hno (Mock.token (Mock.config st))).
  - destruct (bearer_or_not authHeader) as [[r ->]|Hno].
    + rewrite requireAuth_bearer. split; [|intros H; by destruct (H r)].
      case_decide; [done|]. by destruct (Mock.isConnected st).
    + by rewrite requireAuth_not_bearer.
  - apply mock_connect_ok.
  - intros [-> Hne]%mock_connect_ok.
    assert ((MockServer.connect now (Some (Mock.token (Mock.config st))) st).2
            = Mock.set_connection true (Some now) st) as ->.
    { unfold MockServer.connect. rewrite (proj2 (JsFacts.truthy_Some _) Hne).
      rewrite bool_decide_eq_false_2 by (by intros []). cbn [negb orb snd default].
      unfold Mock.connect. by rewrite decide_False by (by intros []). }
    rewrite requireAuth_bearer. cbn. by rewrite decide_False by (by intros []).
Qed.


Lemma unauthorized_changes_nothing_witness :
  handle "s3cret" logged_in (PostExecute (Some "Bearer guess")) queued = (unauthorized, queued) ∧
  handle "s3cret" logged_in (DeleteOperationsAll None) queued = (unauthorized, queued).
Proof.
  split.
  - by apply (unauthorized_changes_nothing "s3cret" logged_in _ queued (Some "Bearer guess")).
  - by apply (unauthorized_changes_nothing "s3cret" logged_in _ queued None).
Defined.

Lemma unhandled_type_fails_witness :
  executeOperation (execAsync logged_in 0) role_change None
  = Normal (unknown_type "org:set-role").
Proof.
  destruct (unhandled_type_fails role_change) as (H & _); [|exact (H _ _)].
  unfold handled_types. simpl. set_solver.
Defined.

Lemma connect_records_user_witness :
  handle "s3cret" logged_in (PostConnect (Some (mkConnectBody (Some "s3cret")))) queued
  = (Success (ConnectData (Some "alice") 7),
     mkState (mkSession "s3cret" 7 (Some "alice")) [role_change] None).
Proof.
  destruct (connect_records_user "s3cret" logged_in queued
              (Some (mkConnectBody (Some "s3cret"))) eq_refl) as (user & Hg & Hh & _).
  rewrite Hh. assert (user = Some "alice") as -> by (vm_compute in Hg; congruence). done.
Defined.

End ConnectorFacts.
